(** * librudp: the per-peer protocol engine, the server demultiplexer and
      the client shell, embedded from [src/peer.c], [src/server.c],
      [src/client.c] and the packet, time and address headers.

    Conventions of the embedding.

    - Fixed-width C integers are [Z] with the wrap-around written out
      ([uint16], [int16]); [rudp_time_t] (a 64-bit millisecond count) is a
      plain [Z], far from its bounds.
    - Header fields are kept as the struct holds them, in network byte
      order; the code's [ntohs]/[htons] are applied where the code applies
      them (little-endian host).
    - [rudp_timestamp()] is passed as the argument [now]; all the clock
      readings of one callback return the same millisecond.
    - A packet chain is its header and the payload bytes following it, so
      that [pc->len] is [8 + length data].
    - Handler callbacks and endpoint transmissions are recorded, in order,
      as a list of events. *)

From Stdlib Require Import ZArith List Bool Lia.
Import ListNotations.
Local Open Scope Z_scope.

(** ** Machine integers *)

Module Int.

Definition uint16 (z : Z) : Z := z mod 65536.

(** Conversion to [int16_t]: reduction modulo 2^16 into [-32768, 32767]. *)
Definition int16 (z : Z) : Z := (z + 32768) mod 65536 - 32768.

(** [htons] and [ntohs] on a little-endian host: the two bytes swapped. *)
Definition htons (x : Z) : Z := (x mod 256) * 256 + (x / 256) mod 256.
Definition ntohs (x : Z) : Z := htons x.

End Int.

Import Int.

(** ** Packets ([rudp/packet.h]) *)

Definition RUDP_CMD_NOOP : Z := 0.
Definition RUDP_CMD_CLOSE : Z := 1.
Definition RUDP_CMD_CONN_REQ : Z := 2.
Definition RUDP_CMD_CONN_RSP : Z := 3.
Definition RUDP_CMD_PING : Z := 4.
Definition RUDP_CMD_PONG : Z := 5.
Definition RUDP_CMD_APP : Z := 16.

Definition RUDP_OPT_RELIABLE : Z := 1.
Definition RUDP_OPT_ACK : Z := 2.
Definition RUDP_OPT_RETRANSMITTED : Z := 4.

Definition EINVAL : Z := 22.

Record rudp_packet_header := mk_header {
  command : Z;        (* uint8_t *)
  opt : Z;            (* uint8_t *)
  reliable_ack : Z;   (* uint16_t, network order *)
  reliable : Z;       (* uint16_t, network order *)
  unreliable : Z      (* uint16_t, network order *)
}.

(** [sizeof(struct rudp_packet_header)], [sizeof(struct rudp_packet_conn_req)]
    and [sizeof(struct rudp_packet_conn_rsp)]. *)
Definition sizeof_header : Z := 8.
Definition sizeof_conn_req : Z := 12.
Definition sizeof_conn_rsp : Z := 12.

Record rudp_packet_chain := mk_chain {
  header : rudp_packet_header;
  data : list Z       (* the bytes after the header *)
}.

Definition len (pc : rudp_packet_chain) : Z :=
  sizeof_header + Z.of_nat (length (data pc)).

(** [header->opt & flag] as a C condition. *)
Definition has_opt (flag : Z) (h : rudp_packet_header) : bool :=
  negb (Z.land (opt h) flag =? 0).

Definition set_command (c : Z) (h : rudp_packet_header) :=
  mk_header c (opt h) (reliable_ack h) (reliable h) (unreliable h).
Definition set_opt (o : Z) (h : rudp_packet_header) :=
  mk_header (command h) o (reliable_ack h) (reliable h) (unreliable h).
Definition set_reliable_ack (a : Z) (h : rudp_packet_header) :=
  mk_header (command h) (opt h) a (reliable h) (unreliable h).
Definition set_reliable (r : Z) (h : rudp_packet_header) :=
  mk_header (command h) (opt h) (reliable_ack h) r (unreliable h).
Definition set_unreliable (u : Z) (h : rudp_packet_header) :=
  mk_header (command h) (opt h) (reliable_ack h) (reliable h) u.

Definition with_header (f : rudp_packet_header -> rudp_packet_header)
    (pc : rudp_packet_chain) : rudp_packet_chain :=
  mk_chain (f (header pc)) (data pc).

(** [rudp_packet_chain_alloc(rudp, asked)]: a chain of [asked] bytes.  The
    allocator leaves the buffer unspecified; it is taken zeroed. *)
Definition rudp_packet_chain_alloc (asked : Z) : rudp_packet_chain :=
  mk_chain (mk_header 0 0 0 0 0)
           (repeat 0 (Z.to_nat (asked - sizeof_header))).

(** A [rudp_time_t] copied with [memcpy] into eight payload bytes and back
    (little-endian, two's complement); bytes a short payload lacks read
    as zero. *)
Fixpoint le_bytes (n : nat) (z : Z) : list Z :=
  match n with
  | O => []
  | S n' => z mod 256 :: le_bytes n' (z / 256)
  end.

Fixpoint le_value (l : list Z) : Z :=
  match l with
  | [] => 0
  | b :: l' => b + 256 * le_value l'
  end.

Definition time_to_bytes (t : Z) : list Z := le_bytes 8 t.

Definition time_of_bytes (l : list Z) : Z :=
  let u := le_value (firstn 8 l) in
  if u <? 2 ^ 63 then u else u - 2 ^ 64.

(** ** Addresses ([rudp/address.h], [address.c]) *)

Inductive sockaddr :=
| sockaddr_in (sin_port : Z) (sin_addr : list Z)
| sockaddr_in6 (sin6_port : Z) (sin6_addr : list Z).

(** [memcmp]: zero exactly when the two buffers agree. *)
Fixpoint memcmp (a b : list Z) : Z :=
  match a, b with
  | x :: a', y :: b' =>
      if x <? y then -1 else if y <? x then 1 else memcmp a' b'
  | [], [] => 0
  | [], _ :: _ => -1
  | _ :: _, [] => 1
  end.

Definition rudp_address_compare (left right : sockaddr) : Z :=
  match left, right with
  | sockaddr_in lp la, sockaddr_in rp ra =>
      if negb (lp =? rp) then 1 else memcmp la ra
  | sockaddr_in6 lp la, sockaddr_in6 rp ra =>
      if negb (lp =? rp) then 1 else memcmp la ra
  | _, _ => 1
  end.

(** ** The peer ([rudp/peer.h], [peer.c]) *)

Definition ACTION_TIMEOUT : Z := 5000.
Definition DROP_TIMEOUT : Z := ACTION_TIMEOUT * 2.
Definition MAX_RTO : Z := 3000.

Inductive peer_state := PEER_NEW | PEER_RUN | PEER_CONNECTING | PEER_DEAD.

Definition peer_state_eqb (a b : peer_state) : bool :=
  match a, b with
  | PEER_NEW, PEER_NEW | PEER_RUN, PEER_RUN
  | PEER_CONNECTING, PEER_CONNECTING | PEER_DEAD, PEER_DEAD => true
  | _, _ => false
  end.

Record timeval := mk_timeval { tv_sec : Z; tv_usec : Z }.

(** [rudp_timestamp_to_timeval]; C's [/] and [%] truncate toward zero. *)
Definition rudp_timestamp_to_timeval (ts : Z) : timeval :=
  mk_timeval (Z.quot ts 1000) (Z.rem ts 1000 * 1000).

(** The delay, in milliseconds, a [timeval] stands for. *)
Definition timeval_ms (tv : timeval) : Z :=
  tv_sec tv * 1000 + Z.quot (tv_usec tv) 1000.

Record rudp_peer := mk_peer {
  address : option sockaddr;
  abs_timeout_deadline : Z;
  last_out_time : Z;
  srtt : Z;
  rttvar : Z;
  rto : Z;
  in_seq_reliable : Z;      (* uint16_t *)
  in_seq_unreliable : Z;    (* uint16_t *)
  out_seq_reliable : Z;     (* uint16_t *)
  out_seq_unreliable : Z;   (* uint16_t *)
  out_seq_acked : Z;        (* uint16_t *)
  must_ack : bool;          (* uint8_t : 1 *)
  scheduled : bool;         (* uint8_t : 1 *)
  state : peer_state;
  sendq : list rudp_packet_chain;
  service_timeout : timeval; (* what ela_set_timeout last armed service_source with *)
  sendto_err : Z
}.

Definition set_address v p :=
  mk_peer v (abs_timeout_deadline p) (last_out_time p) (srtt p) (rttvar p)
    (rto p) (in_seq_reliable p) (in_seq_unreliable p) (out_seq_reliable p)
    (out_seq_unreliable p) (out_seq_acked p) (must_ack p) (scheduled p)
    (state p) (sendq p) (service_timeout p) (sendto_err p).
Definition set_abs_timeout_deadline v p :=
  mk_peer (address p) v (last_out_time p) (srtt p) (rttvar p)
    (rto p) (in_seq_reliable p) (in_seq_unreliable p) (out_seq_reliable p)
    (out_seq_unreliable p) (out_seq_acked p) (must_ack p) (scheduled p)
    (state p) (sendq p) (service_timeout p) (sendto_err p).
Definition set_last_out_time v p :=
  mk_peer (address p) (abs_timeout_deadline p) v (srtt p) (rttvar p)
    (rto p) (in_seq_reliable p) (in_seq_unreliable p) (out_seq_reliable p)
    (out_seq_unreliable p) (out_seq_acked p) (must_ack p) (scheduled p)
    (state p) (sendq p) (service_timeout p) (sendto_err p).
Definition set_srtt v p :=
  mk_peer (address p) (abs_timeout_deadline p) (last_out_time p) v (rttvar p)
    (rto p) (in_seq_reliable p) (in_seq_unreliable p) (out_seq_reliable p)
    (out_seq_unreliable p) (out_seq_acked p) (must_ack p) (scheduled p)
    (state p) (sendq p) (service_timeout p) (sendto_err p).
Definition set_rttvar v p :=
  mk_peer (address p) (abs_timeout_deadline p) (last_out_time p) (srtt p) v
    (rto p) (in_seq_reliable p) (in_seq_unreliable p) (out_seq_reliable p)
    (out_seq_unreliable p) (out_seq_acked p) (must_ack p) (scheduled p)
    (state p) (sendq p) (service_timeout p) (sendto_err p).
Definition set_rto v p :=
  mk_peer (address p) (abs_timeout_deadline p) (last_out_time p) (srtt p)
    (rttvar p) v (in_seq_reliable p) (in_seq_unreliable p)
    (out_seq_reliable p) (out_seq_unreliable p) (out_seq_acked p)
    (must_ack p) (scheduled p) (state p) (sendq p) (service_timeout p)
    (sendto_err p).
Definition set_in_seq_reliable v p :=
  mk_peer (address p) (abs_timeout_deadline p) (last_out_time p) (srtt p)
    (rttvar p) (rto p) v (in_seq_unreliable p) (out_seq_reliable p)
    (out_seq_unreliable p) (out_seq_acked p) (must_ack p) (scheduled p)
    (state p) (sendq p) (service_timeout p) (sendto_err p).
Definition set_in_seq_unreliable v p :=
  mk_peer (address p) (abs_timeout_deadline p) (last_out_time p) (srtt p)
    (rttvar p) (rto p) (in_seq_reliable p) v (out_seq_reliable p)
    (out_seq_unreliable p) (out_seq_acked p) (must_ack p) (scheduled p)
    (state p) (sendq p) (service_timeout p) (sendto_err p).
Definition set_out_seq_reliable v p :=
  mk_peer (address p) (abs_timeout_deadline p) (last_out_time p) (srtt p)
    (rttvar p) (rto p) (in_seq_reliable p) (in_seq_unreliable p) v
    (out_seq_unreliable p) (out_seq_acked p) (must_ack p) (scheduled p)
    (state p) (sendq p) (service_timeout p) (sendto_err p).
Definition set_out_seq_unreliable v p :=
  mk_peer (address p) (abs_timeout_deadline p) (last_out_time p) (srtt p)
    (rttvar p) (rto p) (in_seq_reliable p) (in_seq_unreliable p)
    (out_seq_reliable p) v (out_seq_acked p) (must_ack p) (scheduled p)
    (state p) (sendq p) (service_timeout p) (sendto_err p).
Definition set_out_seq_acked v p :=
  mk_peer (address p) (abs_timeout_deadline p) (last_out_time p) (srtt p)
    (rttvar p) (rto p) (in_seq_reliable p) (in_seq_unreliable p)
    (out_seq_reliable p) (out_seq_unreliable p) v (must_ack p) (scheduled p)
    (state p) (sendq p) (service_timeout p) (sendto_err p).
Definition set_must_ack v p :=
  mk_peer (address p) (abs_timeout_deadline p) (last_out_time p) (srtt p)
    (rttvar p) (rto p) (in_seq_reliable p) (in_seq_unreliable p)
    (out_seq_reliable p) (out_seq_unreliable p) (out_seq_acked p) v
    (scheduled p) (state p) (sendq p) (service_timeout p) (sendto_err p).
Definition set_scheduled v p :=
  mk_peer (address p) (abs_timeout_deadline p) (last_out_time p) (srtt p)
    (rttvar p) (rto p) (in_seq_reliable p) (in_seq_unreliable p)
    (out_seq_reliable p) (out_seq_unreliable p) (out_seq_acked p)
    (must_ack p) v (state p) (sendq p) (service_timeout p) (sendto_err p).
Definition set_state v p :=
  mk_peer (address p) (abs_timeout_deadline p) (last_out_time p) (srtt p)
    (rttvar p) (rto p) (in_seq_reliable p) (in_seq_unreliable p)
    (out_seq_reliable p) (out_seq_unreliable p) (out_seq_acked p)
    (must_ack p) (scheduled p) v (sendq p) (service_timeout p) (sendto_err p).
Definition set_sendq v p :=
  mk_peer (address p) (abs_timeout_deadline p) (last_out_time p) (srtt p)
    (rttvar p) (rto p) (in_seq_reliable p) (in_seq_unreliable p)
    (out_seq_reliable p) (out_seq_unreliable p) (out_seq_acked p)
    (must_ack p) (scheduled p) (state p) v (service_timeout p) (sendto_err p).
Definition set_service_timeout v p :=
  mk_peer (address p) (abs_timeout_deadline p) (last_out_time p) (srtt p)
    (rttvar p) (rto p) (in_seq_reliable p) (in_seq_unreliable p)
    (out_seq_reliable p) (out_seq_unreliable p) (out_seq_acked p)
    (must_ack p) (scheduled p) (state p) (sendq p) v (sendto_err p).
Definition set_sendto_err v p :=
  mk_peer (address p) (abs_timeout_deadline p) (last_out_time p) (srtt p)
    (rttvar p) (rto p) (in_seq_reliable p) (in_seq_unreliable p)
    (out_seq_reliable p) (out_seq_unreliable p) (out_seq_acked p)
    (must_ack p) (scheduled p) (state p) (sendq p) (service_timeout p) v.

(** What the engine does to the outside: the callbacks of
    [struct rudp_peer_handler] and the datagrams handed to
    [rudp_endpoint_send]. *)
Inductive peer_event :=
| EvDropped
| EvHandlePacket (pc : rudp_packet_chain)
| EvSend (pc : rudp_packet_chain).

(** *** Sync handling *)

Inductive packet_state := SEQUENCED | UNSEQUENCED | RETRANSMITTED.

Definition peer_analyse_reliable (peer : rudp_peer) (reliable_seq : Z)
    : packet_state * rudp_peer :=
  if in_seq_reliable peer =? reliable_seq then (RETRANSMITTED, peer)
  else if negb (uint16 (in_seq_reliable peer + 1) =? reliable_seq)
  then (UNSEQUENCED, peer)
  else (SEQUENCED,
        set_in_seq_unreliable 0 (set_in_seq_reliable reliable_seq peer)).

Definition peer_analyse_unreliable (peer : rudp_peer)
    (reliable_seq unreliable_seq : Z) : packet_state * rudp_peer :=
  if negb (in_seq_reliable peer =? reliable_seq) then (UNSEQUENCED, peer)
  else
    let unreliable_delta := int16 (unreliable_seq - in_seq_unreliable peer) in
    if unreliable_delta <=? 0 then (UNSEQUENCED, peer)
    else (SEQUENCED, set_in_seq_unreliable unreliable_seq peer).

(** *** Service scheduling *)

(** The delay [peer_service_schedule] computes before arming the timer. *)
Definition peer_service_delta (now : Z) (peer : rudp_peer) : Z :=
  let delta :=
    match sendq peer with
    | [] => ACTION_TIMEOUT
    | head :: _ =>
        if has_opt RUDP_OPT_RETRANSMITTED (header head)
        then now - last_out_time peer + rto peer
        else 0
    end in
  let to_delta := abs_timeout_deadline peer - now in
  let delta := if to_delta <? delta then to_delta else delta in
  if delta <=? 0 then 1 else delta.

Definition peer_service_schedule (now : Z) (peer : rudp_peer) : rudp_peer :=
  let tv := rudp_timestamp_to_timeval (peer_service_delta now peer) in
  set_scheduled true (set_service_timeout tv peer).

(** *** Sender functions *)

Definition rudp_peer_send_unreliable (now : Z) (peer : rudp_peer)
    (pc : rudp_packet_chain) : Z * rudp_peer :=
  let unrel := uint16 (out_seq_unreliable peer + 1) in
  let peer := set_out_seq_unreliable unrel peer in
  let pc := with_header (fun h =>
              set_unreliable (htons unrel)
                (set_reliable (htons (out_seq_reliable peer))
                   (set_opt 0 h))) pc in
  let peer := set_sendq (sendq peer ++ [pc]) peer in
  let peer := peer_service_schedule now peer in
  (sendto_err peer, peer).

Definition rudp_peer_send_reliable (now : Z) (peer : rudp_peer)
    (pc : rudp_packet_chain) : Z * rudp_peer :=
  let rel := uint16 (out_seq_reliable peer + 1) in
  let peer := set_out_seq_reliable rel peer in
  let pc := with_header (fun h =>
              set_unreliable 0
                (set_reliable (htons rel)
                   (set_opt RUDP_OPT_RELIABLE h))) pc in
  let peer := set_out_seq_unreliable 0 peer in
  let peer := set_sendq (sendq peer ++ [pc]) peer in
  let peer := peer_service_schedule now peer in
  (sendto_err peer, peer).

Definition peer_ping (now : Z) (peer : rudp_peer) : rudp_peer :=
  let pc := rudp_packet_chain_alloc (sizeof_header + 8) in
  let pc := mk_chain (set_command RUDP_CMD_PING (header pc))
                     (time_to_bytes now) in
  snd (rudp_peer_send_reliable now peer pc).

Definition rudp_peer_send_connect (now : Z) (peer : rudp_peer)
    : Z * rudp_peer :=
  let pc := rudp_packet_chain_alloc sizeof_conn_req in
  let pc := mk_chain (set_command RUDP_CMD_CONN_REQ (header pc)) [0; 0; 0; 0] in
  let peer := set_state PEER_CONNECTING peer in
  rudp_peer_send_reliable now peer pc.

(** *** RTT estimation *)

Definition peer_update_rtt (peer : rudp_peer) (last_rtt : Z) : rudp_peer :=
  let peer :=
    set_rttvar (Z.quot (3 * rttvar peer + Z.abs (srtt peer - last_rtt)) 4)
               peer in
  let peer := set_srtt (Z.quot (7 * srtt peer + last_rtt) 8) peer in
  let peer := set_rto (srtt peer) peer in
  if rto peer >? MAX_RTO then set_rto MAX_RTO peer else peer.

Definition peer_rto_backoff (peer : rudp_peer) : rudp_peer :=
  let peer := set_rto (rto peer * 2) peer in
  if rto peer >? MAX_RTO then set_rto MAX_RTO peer else peer.

(** *** Receiver functions *)

Definition peer_handle_ping (now : Z) (peer : rudp_peer)
    (pc_in : rudp_packet_chain) : rudp_peer :=
  if has_opt RUDP_OPT_RETRANSMITTED (header pc_in) then peer
  else
    let out := rudp_packet_chain_alloc (len pc_in) in
    let out := mk_chain (set_opt 0 (set_command RUDP_CMD_PONG (header out)))
                        (data pc_in) in
    snd (rudp_peer_send_unreliable now peer out).

Definition peer_handle_pong (now : Z) (peer : rudp_peer)
    (pc : rudp_packet_chain) : rudp_peer :=
  let orig := time_of_bytes (data pc) in
  let delta := now - orig in
  peer_update_rtt peer delta.

Definition peer_handle_connreq (now : Z) (peer : rudp_peer) : rudp_peer :=
  let pc := rudp_packet_chain_alloc sizeof_conn_rsp in
  let pc := mk_chain (set_opt 0 (set_command RUDP_CMD_CONN_RSP (header pc)))
                     [0; 0; 0; 1] in
  let peer := snd (rudp_peer_send_unreliable now peer pc) in
  peer_service_schedule now peer.

(** *** Ack handling *)

(** The loop of [peer_handle_ack] over the send queue: what is left of it. *)
Fixpoint ack_unqueue (ack : Z) (q : list rudp_packet_chain)
    : list rudp_packet_chain :=
  match q with
  | [] => []
  | pc :: rest =>
      let seqno := ntohs (reliable (header pc)) in
      let delta := int16 (seqno - ack) in
      if negb (has_opt RUDP_OPT_RELIABLE (header pc))
         || negb (has_opt RUDP_OPT_RETRANSMITTED (header pc))
      then q
      else if delta >? 0 then q
      else ack_unqueue ack rest
  end.

(** Returns the C result (nonzero: broken ack) and the peer afterwards. *)
Definition peer_handle_ack (peer : rudp_peer) (ack : Z) : Z * rudp_peer :=
  let ack_delta := int16 (ack - out_seq_acked peer) in
  let adv_delta := int16 (ack - out_seq_reliable peer) in
  if ack_delta <? 0 then (0, peer)
  else if adv_delta >? 0 then (1, peer)
  else
    let peer := set_out_seq_acked ack peer in
    (0, set_sendq (ack_unqueue ack (sendq peer)) peer).

Definition peer_post_ack (now : Z) (peer : rudp_peer) : rudp_peer :=
  let peer := set_must_ack true peer in
  match sendq peer with
  | _ :: _ => peer
  | [] =>
      let pc := rudp_packet_chain_alloc sizeof_conn_rsp in
      let pc := with_header (set_command RUDP_CMD_NOOP) pc in
      let peer := snd (rudp_peer_send_unreliable now peer pc) in
      peer_service_schedule now peer
  end.

(** *** [rudp_peer_incoming_packet] *)

(** What a call leaves behind: the C return value, the peer and the events
    raised, oldest first. *)
Record outcome := mk_outcome {
  ret : Z;
  peer_after : rudp_peer;
  events : list peer_event
}.

(** The ACK stage (first [if] of the function). *)
Definition incoming_ack (peer : rudp_peer) (pc : rudp_packet_chain)
    : Z * rudp_peer :=
  if has_opt RUDP_OPT_ACK (header pc)
  then peer_handle_ack peer (ntohs (reliable_ack (header pc)))
  else (0, peer).

(** The classification stage. *)
Definition incoming_analyse (peer : rudp_peer) (pc : rudp_packet_chain)
    : packet_state * rudp_peer :=
  if has_opt RUDP_OPT_RELIABLE (header pc)
  then peer_analyse_reliable peer (ntohs (reliable (header pc)))
  else peer_analyse_unreliable peer (ntohs (reliable (header pc)))
                               (ntohs (unreliable (header pc))).

(** The [switch (state)]: either the function returns from inside it
    ([inl]), or control reaches the code after it ([inr]). *)
Definition incoming_dispatch (now : Z) (st : packet_state)
    (peer : rudp_peer) (pc : rudp_packet_chain)
    : outcome + rudp_peer * list peer_event :=
  let cmd := command (header pc) in
  match st with
  | UNSEQUENCED =>
      if peer_state_eqb (state peer) PEER_NEW && (cmd =? RUDP_CMD_CONN_REQ)
      then
        let peer := peer_handle_connreq now peer in
        let peer := set_in_seq_reliable (ntohs (reliable (header pc))) peer in
        inr (set_state PEER_RUN peer, [])
      else if peer_state_eqb (state peer) PEER_CONNECTING
              && (cmd =? RUDP_CMD_CONN_RSP)
      then
        let peer := set_in_seq_reliable (ntohs (reliable (header pc))) peer in
        let peer :=
          snd (peer_handle_ack peer (ntohs (reliable_ack (header pc)))) in
        inr (set_state PEER_RUN peer, [])
      else inr (peer, [])
  | RETRANSMITTED =>
      inr (set_abs_timeout_deadline (now + DROP_TIMEOUT) peer, [])
  | SEQUENCED =>
      let peer := set_abs_timeout_deadline (now + DROP_TIMEOUT) peer in
      if cmd =? RUDP_CMD_CLOSE then
        inl (mk_outcome 0 (set_state PEER_DEAD peer) [EvDropped])
      else if cmd =? RUDP_CMD_PING then
        if peer_state_eqb (state peer) PEER_RUN
        then inr (peer_handle_ping now peer pc, [])
        else inr (peer, [])
      else if cmd =? RUDP_CMD_PONG then
        if peer_state_eqb (state peer) PEER_RUN
        then inr (peer_handle_pong now peer pc, [])
        else inr (peer, [])
      else if (cmd =? RUDP_CMD_NOOP) || (cmd =? RUDP_CMD_CONN_REQ)
              || (cmd =? RUDP_CMD_CONN_RSP)
      then inr (peer, [])
      else if negb (peer_state_eqb (state peer) PEER_RUN)
      then inr (peer, [])
      else if cmd >=? RUDP_CMD_APP
      then inr (peer, [EvHandlePacket pc])
      else inr (peer, [])
  end.

(** The code after the [switch]. *)
Definition incoming_finish (now : Z) (peer : rudp_peer)
    (pc : rudp_packet_chain) : rudp_peer :=
  let peer :=
    if has_opt RUDP_OPT_RELIABLE (header pc)
    then peer_post_ack now peer else peer in
  peer_service_schedule now peer.

(** Everything after the ACK stage. *)
Definition incoming_sequenced (now : Z) (peer : rudp_peer)
    (pc : rudp_packet_chain) : outcome :=
  let '(st, peer) := incoming_analyse peer pc in
  match incoming_dispatch now st peer pc with
  | inl r => r
  | inr (peer, evs) => mk_outcome 0 (incoming_finish now peer pc) evs
  end.

Definition rudp_peer_incoming_packet (now : Z) (peer : rudp_peer)
    (pc : rudp_packet_chain) : outcome :=
  let '(broken, peer1) := incoming_ack peer pc in
  if negb (broken =? 0) then mk_outcome EINVAL peer1 []
  else incoming_sequenced now peer1 pc.

(** *** Worker functions *)

Section Endpoint.

(** [rudp_endpoint_send]: the error code [sendto] yields for a datagram. *)
Variable rudp_endpoint_send : rudp_packet_chain -> Z.

Definition peer_send_raw (now : Z) (peer : rudp_peer)
    (pc : rudp_packet_chain) : rudp_peer :=
  let peer := set_sendto_err (rudp_endpoint_send pc) peer in
  set_last_out_time now peer.

(** The loop of [peer_send_queue] over the entries from the current one on;
    returns what these entries become, the peer and the datagrams sent.
    The loop reads and writes no queue link of the peer, whose [sendq] is
    stored back by [peer_send_queue]. *)
Fixpoint send_queue_loop (now : Z) (q : list rudp_packet_chain)
    (peer : rudp_peer)
    : list rudp_packet_chain * rudp_peer * list peer_event :=
  match q with
  | [] => ([], peer, [])
  | pc :: rest =>
      let pc :=
        if must_ack peer
        then with_header (fun h =>
               set_reliable_ack (htons (in_seq_reliable peer))
                 (set_opt (Z.lor (opt h) RUDP_OPT_ACK) h)) pc
        else with_header (set_reliable_ack 0) pc in
      let peer := peer_send_raw now peer pc in
      if has_opt RUDP_OPT_RELIABLE (header pc)
         && has_opt RUDP_OPT_RETRANSMITTED (header pc)
      then (pc :: rest, peer_rto_backoff peer, [EvSend pc])
      else if has_opt RUDP_OPT_RELIABLE (header pc) then
        let pc' :=
          with_header (fun h =>
            set_opt (Z.lor (opt h) RUDP_OPT_RETRANSMITTED) h) pc in
        let '(rest', peer', evs) := send_queue_loop now rest peer in
        (pc' :: rest', peer', EvSend pc :: evs)
      else
        let '(rest', peer', evs) := send_queue_loop now rest peer in
        (rest', peer', EvSend pc :: evs)
  end.

Definition peer_send_queue (now : Z) (peer : rudp_peer)
    : rudp_peer * list peer_event :=
  let '(q, peer', evs) := send_queue_loop now (sendq peer) peer in
  (set_sendq q peer', evs).

Definition peer_service (now : Z) (peer : rudp_peer)
    : rudp_peer * list peer_event :=
  let peer := set_scheduled false peer in
  if abs_timeout_deadline peer <? now then (peer, [EvDropped])
  else
    let peer :=
      match sendq peer with
      | [] =>
          let out_delta := now - last_out_time peer in
          if out_delta >? ACTION_TIMEOUT then peer_ping now peer else peer
      | _ :: _ => peer
      end in
    let '(peer, evs) := peer_send_queue now peer in
    (peer_service_schedule now peer, evs).


End Endpoint.

(** *** Object management *)

(** [rnd] is what [rudp_random] returns. *)
Definition rudp_peer_reset (now rnd : Z) (peer : rudp_peer) : rudp_peer :=
  let peer := set_sendq [] peer in
  let peer := set_scheduled false peer in
  let peer := set_abs_timeout_deadline (now + DROP_TIMEOUT) peer in
  let peer := set_in_seq_reliable (uint16 (-1)) peer in
  let peer := set_in_seq_unreliable 0 peer in
  let peer := set_out_seq_reliable (uint16 rnd) peer in
  let peer := set_out_seq_unreliable 0 peer in
  let peer := set_out_seq_acked (uint16 (out_seq_reliable peer - 1)) peer in
  let peer := set_state PEER_NEW peer in
  let peer := set_last_out_time now peer in
  let peer := set_srtt 100 peer in
  let peer := set_rttvar (Z.quot (srtt peer) 2) peer in
  let peer := set_rto MAX_RTO peer in
  let peer := set_must_ack false peer in
  set_sendto_err 0 peer.

(** [rudp_peer_init] writes every field the model keeps, so it is a
    constructor here. *)
Definition rudp_peer_init (now rnd : Z) : rudp_peer :=
  let peer :=
    mk_peer None 0 0 0 0 0 0 0 0 0 0 false false PEER_NEW []
            (mk_timeval 0 0) 0 in
  let peer := rudp_peer_reset now rnd peer in
  peer_service_schedule now peer.

Definition rudp_peer_deinit (now rnd : Z) (peer : rudp_peer) : rudp_peer :=
  set_address None (rudp_peer_reset now rnd peer).

Definition rudp_peer_from_sockaddr (now rnd : Z) (addr : sockaddr)
    : rudp_peer :=
  set_address (Some addr) (rudp_peer_init now rnd).

Definition rudp_peer_address_compare (peer : rudp_peer) (addr : sockaddr)
    : Z :=
  match address peer with
  | Some a => rudp_address_compare a addr
  | None => 1
  end.

(** ** Application packets ([rudp_client_send], [rudp_server_send]) *)

Definition ENOMEM : Z := 12.

(** Assignment to a [uint8_t]. *)
Definition uint8 (z : Z) : Z := z mod 256.

(** The body the two send functions share once their own checks have
    passed: build the packet and queue it.  [alloc_ok] tells whether
    [rudp_packet_chain_alloc] returned a buffer; [reliable] is the C
    truth value. *)
Definition app_packet_send (now : Z) (alloc_ok : bool) (peer : rudp_peer)
    (reliable command : Z) (payload : list Z) : Z * rudp_peer :=
  if negb alloc_ok then (ENOMEM, peer)
  else
    let pc :=
      rudp_packet_chain_alloc (sizeof_header + Z.of_nat (length payload)) in
    let pc :=
      mk_chain (set_command (uint8 (RUDP_CMD_APP + command)) (header pc))
               payload in
    if negb (reliable =? 0)
    then rudp_peer_send_reliable now peer pc
    else rudp_peer_send_unreliable now peer pc.

(** ** The client shell ([client.c]) *)

Module Client.

Record rudp_client := mk_client {
  peer : rudp_peer;
  address : option sockaddr;   (* the resolved server address, if any *)
  endpoint_open : bool;        (* the endpoint's socket is bound *)
  connected : Z                (* char *)
}.

(** The callbacks of [struct rudp_client_handler]. *)
Inductive client_event :=
| ClConnected
| ClServerLost
| ClHandlePacket (command : Z) (payload : list Z) (length : Z).

Definition EDESTADDRREQ : Z := 89.

(** [rudp_client_init] leaves the embedded peer for [rudp_client_connect]
    to initialise; until then it is shown as a fresh peer. *)
Definition rudp_client_init : rudp_client :=
  mk_client (rudp_peer_init 0 0) None false 0.

Definition set_peer (p : rudp_peer) (c : rudp_client) : rudp_client :=
  mk_client p (address c) (endpoint_open c) (connected c).
Definition set_endpoint_open (b : bool) (c : rudp_client) : rudp_client :=
  mk_client (peer c) (address c) b (connected c).
Definition set_connected (v : Z) (c : rudp_client) : rudp_client :=
  mk_client (peer c) (address c) (endpoint_open c) v.

Definition rudp_client_set_addr (addr : sockaddr) (c : rudp_client)
    : rudp_client :=
  mk_client (peer c) (Some addr) (endpoint_open c) (connected c).

(** [bind_err] is the result of [rudp_endpoint_bind]. *)
Definition rudp_client_connect (now rnd bind_err : Z) (client : rudp_client)
    : Z * rudp_client :=
  match address client with
  | None => (EDESTADDRREQ, client)
  | Some addr =>
      let p := rudp_peer_from_sockaddr now rnd addr in
      let p := snd (rudp_peer_send_connect now p) in
      let client := set_peer p client in
      (bind_err, set_endpoint_open (bind_err =? 0) client)
  end.

(** [client_handle_data_packet]; [sizeof(header)] there is the size of a
    pointer, 8 on the 64-bit targets considered. *)
Definition client_handle_data_packet (pc : rudp_packet_chain)
    : client_event :=
  ClHandlePacket (command (header pc) - RUDP_CMD_APP) (data pc) (len pc - 8).

Definition client_peer_dropped (now rnd : Z) (client : rudp_client)
    : rudp_client * list client_event :=
  let client := set_connected 0 client in
  let client := set_peer (rudp_peer_deinit now rnd (peer client)) client in
  let client := set_endpoint_open false client in
  (client, [ClServerLost]).

(** [client_peer_handler] run on the callbacks the engine raised.  The
    engine returns to its caller right after [dropped], so running the
    callbacks on its result is running them in place. *)
Fixpoint client_peer_handler (now rnd : Z) (evs : list peer_event)
    (client : rudp_client) : rudp_client * list client_event :=
  match evs with
  | [] => (client, [])
  | ev :: evs' =>
      let '(client, out) :=
        match ev with
        | EvDropped => client_peer_dropped now rnd client
        | EvHandlePacket pc => (client, [client_handle_data_packet pc])
        | EvSend _ => (client, [])
        end in
      let '(client, out') := client_peer_handler now rnd evs' client in
      (client, out ++ out')
  end.

Definition client_handle_endpoint_packet (now rnd : Z)
    (client : rudp_client) (pc : rudp_packet_chain)
    : rudp_client * list client_event :=
  let r := rudp_peer_incoming_packet now (peer client) pc in
  let client := set_peer (peer_after r) client in
  let '(client, out) := client_peer_handler now rnd (events r) client in
  let err := ret r in
  if (err =? 0) && (connected client =? 0)
  then (set_connected 1 client, out ++ [ClConnected])
  else (client, out).

Definition rudp_client_send (now : Z) (alloc_ok : bool)
    (client : rudp_client) (reliable command : Z) (payload : list Z)
    : Z * rudp_client :=
  if command + RUDP_CMD_APP >? 255 then (EINVAL, client)
  else if connected client =? 0 then (EINVAL, client)
  else
    let '(err, p) :=
      app_packet_send now alloc_ok (peer client) reliable command payload in
    (err, set_peer p client).


End Client.

(** ** The server demultiplexer ([server.c]) *)

Module Server.

Record server_peer := mk_server_peer {
  base : rudp_peer;
  user_data : Z
}.

Record rudp_server := mk_server {
  peer_list : list server_peer
}.

(** The callbacks of [struct rudp_server_handler], and the allocator and
    log calls of the demultiplexer. *)
Inductive server_event :=
| SrvPeerNew (p : rudp_peer)
| SrvPeerDropped (p : rudp_peer)
| SrvHandlePacket (p : rudp_peer) (command : Z) (payload : list Z)
                  (length : Z)
| SrvNewConnection             (* server_peer_new built and inserted a peer *)
| SrvFree (p : rudp_peer)      (* server_peer_forget released a peer *)
| SrvGarbage.                  (* "Garbage data" *)

Fixpoint list_remove {A} (i : nat) (l : list A) : list A :=
  match l, i with
  | [], _ => []
  | _ :: l', O => l'
  | x :: l', S i' => x :: list_remove i' l'
  end.

Fixpoint list_update {A} (i : nat) (f : A -> A) (l : list A) : list A :=
  match l, i with
  | [], _ => []
  | x :: l', O => f x :: l'
  | x :: l', S i' => x :: list_update i' f l'
  end.

(** The position of the first peer of the list bound to [addr]. *)
Fixpoint rudp_server_peer_lookup (l : list server_peer) (addr : sockaddr)
    : option nat :=
  match l with
  | [] => None
  | p :: l' =>
      if rudp_peer_address_compare (base p) addr =? 0 then Some O
      else option_map S (rudp_server_peer_lookup l' addr)
  end.

Definition set_base (p : rudp_peer) (sp : server_peer) : server_peer :=
  mk_server_peer p (user_data sp).

(** [server_peer_forget] on the peer at position [i]. *)
Definition server_peer_forget (i : nat) (server : rudp_server)
    : rudp_server * list server_event :=
  match nth_error (peer_list server) i with
  | None => (server, [])
  | Some sp => (mk_server (list_remove i (peer_list server)), [SrvFree (base sp)])
  end.

Definition server_peer_dropped (i : nat) (server : rudp_server)
    : rudp_server * list server_event :=
  match nth_error (peer_list server) i with
  | None => (server, [])
  | Some sp =>
      let '(server, out) := server_peer_forget i server in
      (server, SrvPeerDropped (base sp) :: out)
  end.

Definition server_handle_data_packet (i : nat) (server : rudp_server)
    (pc : rudp_packet_chain) : list server_event :=
  match nth_error (peer_list server) i with
  | None => []
  | Some sp =>
      [SrvHandlePacket (base sp) (command (header pc) - RUDP_CMD_APP)
                       (data pc) (len pc - 8)]
  end.

(** [server_peer_handler] run on the callbacks the engine raised for the
    peer at position [i]; nothing follows [dropped], which frees the peer. *)
Fixpoint server_peer_handler (i : nat) (evs : list peer_event)
    (server : rudp_server) : rudp_server * list server_event :=
  match evs with
  | [] => (server, [])
  | EvDropped :: _ => server_peer_dropped i server
  | EvHandlePacket pc :: evs' =>
      let out := server_handle_data_packet i server pc in
      let '(server, out') := server_peer_handler i evs' server in
      (server, out ++ out')
  | EvSend _ :: evs' => server_peer_handler i evs' server
  end.

(** [server_peer_new]; [alloc_ok] tells whether [rudp_alloc] returned a
    buffer.  [rudp_list_insert] puts the peer at the head of the list. *)
Definition server_peer_new (now rnd : Z) (alloc_ok : bool)
    (server : rudp_server) (addr : sockaddr)
    : option (server_peer * rudp_server * list server_event) :=
  if negb alloc_ok then None
  else
    let sp := mk_server_peer (rudp_peer_from_sockaddr now rnd addr) 0 in
    Some (sp, mk_server (sp :: peer_list server), [SrvNewConnection]).

Definition server_handle_endpoint_packet (now rnd : Z) (alloc_ok : bool)
    (server : rudp_server) (addr : sockaddr) (pc : rudp_packet_chain)
    : rudp_server * list server_event :=
  match rudp_server_peer_lookup (peer_list server) addr with
  | Some i =>
      match nth_error (peer_list server) i with
      | None => (server, [])
      | Some sp =>
          let r := rudp_peer_incoming_packet now (base sp) pc in
          let server :=
            mk_server (list_update i (set_base (peer_after r))
                                   (peer_list server)) in
          server_peer_handler i (events r) server
      end
  | None =>
      if negb (len pc =? sizeof_conn_req)
         || negb (command (header pc) =? RUDP_CMD_CONN_REQ)
      then (server, [SrvGarbage])
      else
        match server_peer_new now rnd alloc_ok server addr with
        | None => (server, [])
        | Some (sp, server, out0) =>
            let r := rudp_peer_incoming_packet now (base sp) pc in
            let server :=
              mk_server (list_update O (set_base (peer_after r))
                                     (peer_list server)) in
            let '(server, out1) := server_peer_handler O (events r) server in
            if ret r =? 0
            then (server, out0 ++ out1 ++ [SrvPeerNew (peer_after r)])
            else
              let '(server, out2) := server_peer_forget O server in
              (server, out0 ++ out1 ++ out2)
        end
  end.

Definition rudp_server_init : rudp_server := mk_server [].

Definition rudp_server_send (now : Z) (alloc_ok : bool) (peer : rudp_peer)
    (reliable command : Z) (payload : list Z) : Z * rudp_peer :=
  if command + RUDP_CMD_APP >? 255 then (EINVAL, peer)
  else app_packet_send now alloc_ok peer reliable command payload.

(** The loop of [rudp_server_send_all]; [alloc_ok i] is the outcome of the
    allocation made for the [i]-th peer reached. *)
Fixpoint server_send_all_loop (now : Z) (alloc_ok : nat -> bool)
    (l : list server_peer) (reliable command : Z) (payload : list Z)
    : list server_peer :=
  match l with
  | [] => []
  | sp :: l' =>
      let p :=
        snd (rudp_server_send now (alloc_ok O) (base sp) reliable command
                              payload) in
      set_base p sp
      :: server_send_all_loop now (fun i => alloc_ok (S i)) l' reliable
                              command payload
  end.

Definition rudp_server_send_all (now : Z) (alloc_ok : nat -> bool)
    (server : rudp_server) (reliable command : Z) (payload : list Z)
    : Z * rudp_server :=
  if command + RUDP_CMD_APP >? 255 then (EINVAL, server)
  else
    (0, mk_server (server_send_all_loop now alloc_ok (peer_list server)
                                        reliable command payload)).

Definition rudp_server_client_close (i : nat) (server : rudp_server)
    : rudp_server * list server_event :=
  server_peer_forget i server.

(** The loop of [rudp_server_close] over the peers [l] still to visit;
    those before them are gone, so the one visited is the head of the
    server's list. *)
Fixpoint server_close_loop (l : list server_peer) (server : rudp_server)
    : rudp_server * list server_event :=
  match l with
  | [] => (server, [])
  | sp :: l' =>
      let '(server, out) := rudp_server_client_close O server in
      let '(server, out') := server_close_loop l' server in
      (server, SrvPeerDropped (base sp) :: out ++ out')
  end.

Definition rudp_server_close (server : rudp_server)
    : Z * rudp_server * list server_event :=
  let '(server, out) := server_close_loop (peer_list server) server in
  (0, server, out).

Definition rudp_server_peer_data_get (sp : server_peer) : Z := user_data sp.

Definition rudp_server_peer_data_set (v : Z) (sp : server_peer)
    : server_peer :=
  mk_server_peer (base sp) v.

End Server.

(** ** Predicates in the specification's words *)

(** An entry an acknowledgement of [ack] covers: reliable, transmitted at
    least once, and of sequence at most [ack] by signed 16-bit delta. *)
Definition acknowledged_by (ack : Z) (pc : rudp_packet_chain) : bool :=
  has_opt RUDP_OPT_RELIABLE (header pc)
  && has_opt RUDP_OPT_RETRANSMITTED (header pc)
  && (int16 (ntohs (reliable (header pc)) - ack) <=? 0).

(** ** Sample data, used to run the definitions *)

Module Sample.

Definition addr1 : sockaddr := sockaddr_in 4242 [127; 0; 0; 1].
Definition addr2 : sockaddr := sockaddr_in 4243 [127; 0; 0; 1].

(** A running peer with sequences [in_rel], [in_unrel], [out_rel] and
    [out_acked], an empty send queue, at time 1000. *)
Definition running (in_rel in_unrel out_rel out_acked : Z) : rudp_peer :=
  mk_peer (Some addr1) 11000 1000 100 50 3000 in_rel in_unrel out_rel 0
          out_acked false false PEER_RUN [] (mk_timeval 0 0) 0.

(** A packet whose sequence fields are given in host order. *)
Definition packet (cmd flags ack rel unrel : Z) (payload : list Z)
    : rudp_packet_chain :=
  mk_chain (mk_header cmd flags (htons ack) (htons rel) (htons unrel)) payload.

(** A queued reliable entry of sequence [seq], already sent when [sent]. *)
Definition queued (cmd seq : Z) (sent : bool) : rudp_packet_chain :=
  packet cmd (if sent then 5 else 1) 0 seq 0 [].

(** A client that called [rudp_client_connect] at time 1000 (its first
    reliable sequence is 8), and the same client once the handshake is
    over. *)
Definition connecting_client : Client.rudp_client :=
  snd (Client.rudp_client_connect 1000 7 0
         (Client.rudp_client_set_addr addr1 Client.rudp_client_init)).

Definition connected_client : Client.rudp_client :=
  fst (Client.client_handle_endpoint_packet 1040 0 connecting_client
         (packet RUDP_CMD_CONN_RSP RUDP_OPT_ACK 8 100 1 [0; 0; 0; 1])).

End Sample.

(** ** The packet pool ([packet.c], [rudp.c]) *)

Module Pool.

Definition RUDP_RECV_BUFFER_SIZE : Z := 4096.
Definition DEFAULT_ALLOC_SIZE : Z := RUDP_RECV_BUFFER_SIZE.
Definition FREE_PACKET_POOL : Z := 10.

(** The bookkeeping fields of a [struct rudp_packet_chain]; [ident] stands
    for the address of the buffer. *)
Record chain := mk_chain {
  ident : Z;
  alloc_size : Z;
  len : Z
}.

(** The pool fields of [struct rudp]; both counters are [uint16_t]. *)
Record rudp := mk_rudp {
  free_packet_list : list chain;
  allocated_packets : Z;
  free_packets : Z
}.

Definition rudp_init : rudp := mk_rudp [] 0 0.

(** [fresh] is what [rudp_alloc] returns: the address of a new buffer, or
    [None] for [NULL]. *)
Definition rudp_packet_chain_alloc (fresh : option Z) (r : rudp) (asked : Z)
    : option chain * rudp :=
  let alloc := if asked <? DEFAULT_ALLOC_SIZE then DEFAULT_ALLOC_SIZE
               else asked in
  match (if alloc =? DEFAULT_ALLOC_SIZE then free_packet_list r else []) with
  | pc :: rest =>
      (Some (mk_chain (ident pc) (alloc_size pc) asked),
       mk_rudp rest (allocated_packets r) (uint16 (free_packets r - 1)))
  | [] =>
      match fresh with
      | None => (None, r)
      | Some a =>
          (Some (mk_chain a alloc asked),
           mk_rudp (free_packet_list r) (uint16 (allocated_packets r + 1))
                   (free_packets r))
      end
  end.

(** The [while] loop that ends [rudp_packet_chain_free]: the pool and the
    buffers handed to [rudp_free].  With the counter above the bound and
    the list empty the loop makes no progress and never ends: [None]. *)
Fixpoint pool_trim (l : list chain) (allocated free : Z)
    : option (rudp * list chain) :=
  if free >? FREE_PACKET_POOL then
    match l with
    | [] => None
    | pc :: rest =>
        match pool_trim rest (uint16 (allocated - 1)) (uint16 (free - 1)) with
        | None => None
        | Some (r, released) => Some (r, pc :: released)
        end
    end
  else Some (mk_rudp l allocated free, []).

Definition rudp_packet_chain_free (r : rudp) (pc : chain)
    : option (rudp * list chain) :=
  if alloc_size pc =? DEFAULT_ALLOC_SIZE then
    pool_trim (pc :: free_packet_list r) (allocated_packets r)
              (uint16 (free_packets r + 1))
  else
    match pool_trim (free_packet_list r) (uint16 (allocated_packets r - 1))
                    (free_packets r) with
    | None => None
    | Some (r', released) => Some (r', pc :: released)
    end.

(** The pool is consistent: the counter is the length of the list, within
    the bound, and every cached buffer has the default size. *)
Definition pool_ok (r : rudp) : Prop :=
  free_packets r = Z.of_nat (length (free_packet_list r)) /\
  free_packets r <= FREE_PACKET_POOL /\
  Forall (fun pc => alloc_size pc = DEFAULT_ALLOC_SIZE) (free_packet_list r).

End Pool.

(** ** The intrusive list of [rudp_list.h]

    The send queue, the server's peer list and the packet pool are all
    circular doubly-linked lists threaded through the objects
    themselves.  The rest of this development treats them as plain
    lists; this module models the pointer operations on a heap of list
    nodes so that the two views can be related.  A node is named by its
    address; [__container_of] only adds a constant offset and is left
    out. *)

Module RudpList.

Record rudp_list := mk_node { prev : Z; next : Z }.

Definition heap := Z -> rudp_list.

(** [a->prev = v] and [a->next = v] *)
Definition set_prev (m : heap) (a v : Z) : heap :=
  fun x => if x =? a then mk_node v (next (m x)) else m x.

Definition set_next (m : heap) (a v : Z) : heap :=
  fun x => if x =? a then mk_node (prev (m x)) v else m x.

Definition rudp_list_init (m : heap) (list : Z) : heap :=
  let m := set_prev m list list in
  set_next m list list.

Definition rudp_list_insert (m : heap) (list elm : Z) : heap :=
  let m := set_prev m elm list in
  let m := set_next m elm (next (m list)) in
  let m := set_next m list elm in
  set_prev m (next (m elm)) elm.

Definition rudp_list_append (m : heap) (list elm : Z) : heap :=
  let m := set_next m elm list in
  let m := set_prev m elm (prev (m list)) in
  let m := set_prev m list elm in
  set_next m (prev (m elm)) elm.

Definition rudp_list_remove (m : heap) (elm : Z) : heap :=
  let m := set_next m (prev (m elm)) (next (m elm)) in
  set_prev m (next (m elm)) (prev (m elm)).

Definition INT_MAX : Z := 2147483647.

(** The loop of [rudp_list_length]; [None] when the walk does not come
    back to the head within [fuel] steps, or when the [int] counter
    would overflow. *)
Fixpoint length_loop (fuel : nat) (m : heap) (list e count : Z)
  : option Z :=
  match fuel with
  | O => None
  | S fuel =>
      if e =? list then Some count
      else if count <? INT_MAX
           then length_loop fuel m list (next (m e)) (count + 1)
           else None
  end.

Definition rudp_list_length (fuel : nat) (m : heap) (list : Z) : option Z :=
  length_loop fuel m list (next (m list)) 0.

Definition rudp_list_empty (m : heap) (elm : Z) : Z :=
  if next (m elm) =? elm then 1 else 0.

(** [rudp_list_head]: the node after the head, whatever it is. *)
Definition rudp_list_head (m : heap) (head : Z) : Z := next (m head).

(** [rudp_list_for_each] and [rudp_list_for_each_reverse] with a body
    that leaves the links alone: the positions the body is run at, in
    order. *)
Fixpoint for_each_loop (fuel : nat) (m : heap) (head pos : Z)
  : option (list Z) :=
  match fuel with
  | O => None
  | S fuel =>
      if pos =? head then Some []
      else option_map (cons pos) (for_each_loop fuel m head (next (m pos)))
  end.

Definition rudp_list_for_each (fuel : nat) (m : heap) (head : Z) :=
  for_each_loop fuel m head (next (m head)).

Fixpoint for_each_reverse_loop (fuel : nat) (m : heap) (head pos : Z)
  : option (list Z) :=
  match fuel with
  | O => None
  | S fuel =>
      if pos =? head then Some []
      else option_map (cons pos)
             (for_each_reverse_loop fuel m head (prev (m pos)))
  end.

Definition rudp_list_for_each_reverse (fuel : nat) (m : heap) (head : Z) :=
  for_each_reverse_loop fuel m head (prev (m head)).

(** [rudp_list_for_each_safe] with the body of [rudp_peer_reset],
    [rudp_deinit] and the like: unlink the current node.  [tmp] is read
    before the body runs.  Returns the final heap and the nodes
    unlinked, in order. *)
Fixpoint for_each_safe_remove_loop (fuel : nat) (m : heap)
                                   (head pos tmp : Z)
  : option (heap * list Z) :=
  match fuel with
  | O => None
  | S fuel =>
      if pos =? head then Some (m, [])
      else
        let m := rudp_list_remove m pos in
        match for_each_safe_remove_loop fuel m head tmp (next (m tmp)) with
        | Some (m', seen) => Some (m', pos :: seen)
        | None => None
        end
  end.

Definition rudp_list_for_each_safe_remove (fuel : nat) (m : heap)
                                          (head : Z) :=
  let pos := next (m head) in
  for_each_safe_remove_loop fuel m head pos (next (m pos)).

(** The nodes along [path] are linked to one another in both
    directions. *)
Fixpoint links (m : heap) (path : list Z) : Prop :=
  match path with
  | a :: (b :: _) as rest =>
      next (m a) = b /\ prev (m b) = a /\ links m rest
  | _ => True
  end.

(** The heap holds at [head] a well-formed ring whose elements, from
    [head->next] round to [head->prev], are [l]. *)
Definition ring (m : heap) (head : Z) (l : list Z) : Prop :=
  NoDup (head :: l) /\ links m (head :: l ++ [head]).

(** A heap where every node points to address 0, and one where the
    head at address 100 has had nodes 1 and 2 appended. *)
Definition blank : heap := fun _ => mk_node 0 0.

Definition two_nodes : heap :=
  rudp_list_append (rudp_list_append (rudp_list_init blank 100) 100 1) 100 2.

End RudpList.

(** ** What a service cycle does to one queue entry *)

(** The header as [peer_send_queue] transmits it: the ACK fields stamped
    when [must_ack] is set, [reliable_ack] cleared otherwise. *)
Definition stamped (peer : rudp_peer) (pc : rudp_packet_chain)
    : rudp_packet_chain :=
  if must_ack peer
  then with_header (fun h =>
         set_reliable_ack (htons (in_seq_reliable peer))
           (set_opt (Z.lor (opt h) RUDP_OPT_ACK) h)) pc
  else with_header (set_reliable_ack 0) pc.

(** A reliable entry as it stays in the queue after its first
    transmission. *)
Definition marked (pc : rudp_packet_chain) : rudp_packet_chain :=
  with_header (fun h => set_opt (Z.lor (opt h) RUDP_OPT_RETRANSMITTED) h) pc.

Definition is_reliable (pc : rudp_packet_chain) : bool :=
  has_opt RUDP_OPT_RELIABLE (header pc).

Definition is_retransmitted (pc : rudp_packet_chain) : bool :=
  has_opt RUDP_OPT_RETRANSMITTED (header pc).

Definition all_unreliable (q : list rudp_packet_chain) : Prop :=
  Forall (fun pc => is_reliable pc = false) q.

(** The address a peer is bound to, and those of a server's peers in list
    order. *)
Definition peer_address (p : rudp_peer) : option sockaddr := address p.

Definition bound_addresses (server : Server.rudp_server)
    : list (option sockaddr) :=
  map (fun sp => peer_address (Server.base sp)) (Server.peer_list server).

(** The server's list holds at most one peer per address, each bound. *)
Definition one_peer_per_address (server : Server.rudp_server) : Prop :=
  NoDup (bound_addresses server) /\
  Forall (fun a => a <> None) (bound_addresses server).

(** A receiver [r] is in step with a sender [s]: it has taken everything
    [s] has numbered so far. *)
Definition in_step (s r : rudp_peer) : Prop :=
  in_seq_reliable r = out_seq_reliable s /\
  in_seq_unreliable r = out_seq_unreliable s /\
  0 <= out_seq_reliable s < 65536 /\
  0 <= out_seq_unreliable s < 65536.

(** * Properties *)

(** ** Machine integers *)

Lemma uint16_range z : 0 <= uint16 z < 65536.
Proof. unfold uint16. apply Z.mod_pos_bound. lia. Qed.

Lemma uint16_small z : 0 <= z < 65536 -> uint16 z = z.
Proof. intros H. unfold uint16. apply Z.mod_small. exact H. Qed.

Lemma int16_range z : -32768 <= int16 z <= 32767.
Proof.
  unfold int16. pose proof (Z.mod_pos_bound (z + 32768) 65536). lia.
Qed.

Lemma int16_small z : -32768 <= z <= 32767 -> int16 z = z.
Proof. intros H. unfold int16. rewrite Z.mod_small; lia. Qed.

Lemma htons_range x : 0 <= htons x < 65536.
Proof.
  unfold htons.
  pose proof (Z.mod_pos_bound x 256).
  pose proof (Z.mod_pos_bound (x / 256) 256). lia.
Qed.

Lemma ntohs_htons x : 0 <= x < 65536 -> ntohs (htons x) = x.
Proof.
  intros H. unfold ntohs, htons.
  assert (Hq : 0 <= x / 256 < 256).
  { split; [apply Z.div_pos; lia | apply Z.div_lt_upper_bound; lia]. }
  pose proof (Z.mod_pos_bound x 256 ltac:(lia)) as Hr.
  rewrite (Z.mod_small (x / 256) 256) by exact Hq.
  replace ((x mod 256 * 256 + x / 256) mod 256) with (x / 256).
  2:{ rewrite Z.add_comm, Z.mod_add by lia. symmetry. apply Z.mod_small. exact Hq. }
  replace ((x mod 256 * 256 + x / 256) / 256) with (x mod 256).
  2:{ rewrite Z.add_comm, Z.div_add by lia.
      rewrite (Z.div_small (x / 256) 256) by exact Hq. reflexivity. }
  rewrite (Z.mod_small (x mod 256) 256) by exact Hr.
  pose proof (Z.div_mod x 256 ltac:(lia)). lia.
Qed.

Lemma int16_uint16_add (a k : Z) :
  -32768 <= k <= 32767 -> int16 (uint16 (a + k) - a) = k.
Proof.
  intros Hk. unfold int16, uint16.
  pose proof (Z.div_mod (a + k) 65536 ltac:(lia)) as E.
  replace ((a + k) mod 65536 - a + 32768)
    with (k + 32768 + (- ((a + k) / 65536)) * 65536) by lia.
  rewrite Z.mod_add by lia.
  rewrite Z.mod_small by lia. lia.
Qed.

(** ** The stages of [rudp_peer_incoming_packet] *)

Ltac break_if :=
  match goal with
  | |- context [if ?c then _ else _] => destruct c eqn:?
  end.

Ltac break_cmp :=
  repeat match goal with
  | |- context [?a <? ?b] => destruct (Z.ltb_spec a b)
  | |- context [?a <=? ?b] => destruct (Z.leb_spec a b)
  end.

Lemma incoming_packet_accepted (now : Z) (peer : rudp_peer)
    (pc : rudp_packet_chain) :
  fst (incoming_ack peer pc) = 0 ->
  rudp_peer_incoming_packet now peer pc =
    incoming_sequenced now (snd (incoming_ack peer pc)) pc.
Proof.
  unfold rudp_peer_incoming_packet.
  destruct (incoming_ack peer pc) as [broken p1]. simpl.
  intros ->. reflexivity.
Qed.

Lemma incoming_packet_rejected (now : Z) (peer : rudp_peer)
    (pc : rudp_packet_chain) :
  incoming_ack peer pc = (1, peer) ->
  rudp_peer_incoming_packet now peer pc = mk_outcome EINVAL peer [].
Proof.
  unfold rudp_peer_incoming_packet. intros ->. reflexivity.
Qed.

Lemma incoming_sequenced_eq (now : Z) (peer : rudp_peer)
    (pc : rudp_packet_chain) :
  incoming_sequenced now peer pc =
    match incoming_dispatch now (fst (incoming_analyse peer pc))
                            (snd (incoming_analyse peer pc)) pc with
    | inl r => r
    | inr (p3, evs) => mk_outcome 0 (incoming_finish now p3 pc) evs
    end.
Proof.
  unfold incoming_sequenced.
  destruct (incoming_analyse peer pc). reflexivity.
Qed.

Lemma incoming_ack_in_seq (peer : rudp_peer) (pc : rudp_packet_chain) :
  in_seq_reliable (snd (incoming_ack peer pc)) = in_seq_reliable peer /\
  in_seq_unreliable (snd (incoming_ack peer pc)) = in_seq_unreliable peer.
Proof.
  unfold incoming_ack, peer_handle_ack.
  destruct (has_opt RUDP_OPT_ACK (header pc)); [|split; reflexivity].
  destruct (_ <? 0); [split; reflexivity|].
  destruct (_ >? 0); split; reflexivity.
Qed.

Lemma incoming_ack_frame (peer : rudp_peer) (pc : rudp_packet_chain) :
  must_ack (snd (incoming_ack peer pc)) = must_ack peer /\
  state (snd (incoming_ack peer pc)) = state peer /\
  out_seq_reliable (snd (incoming_ack peer pc)) = out_seq_reliable peer /\
  out_seq_unreliable (snd (incoming_ack peer pc)) = out_seq_unreliable peer.
Proof.
  unfold incoming_ack, peer_handle_ack.
  repeat break_if; repeat split; reflexivity.
Qed.

Lemma incoming_analyse_frame (peer : rudp_peer) (pc : rudp_packet_chain) :
  let p2 := snd (incoming_analyse peer pc) in
  must_ack p2 = must_ack peer /\ state p2 = state peer /\
  sendq p2 = sendq peer /\
  out_seq_reliable p2 = out_seq_reliable peer /\
  out_seq_unreliable p2 = out_seq_unreliable peer.
Proof.
  unfold incoming_analyse, peer_analyse_reliable, peer_analyse_unreliable.
  repeat break_if; repeat split; reflexivity.
Qed.

Lemma incoming_finish_in_seq (now : Z) (peer : rudp_peer)
    (pc : rudp_packet_chain) :
  in_seq_reliable (incoming_finish now peer pc) = in_seq_reliable peer /\
  in_seq_unreliable (incoming_finish now peer pc) = in_seq_unreliable peer.
Proof.
  unfold incoming_finish, peer_post_ack.
  destruct (has_opt RUDP_OPT_RELIABLE (header pc)); simpl;
    [destruct (sendq peer)|]; split; reflexivity.
Qed.

Lemma incoming_dispatch_in_seq (now : Z) (peer : rudp_peer)
    (pc : rudp_packet_chain) :
  match incoming_dispatch now SEQUENCED peer pc with
  | inl r =>
      in_seq_reliable (peer_after r) = in_seq_reliable peer /\
      in_seq_unreliable (peer_after r) = in_seq_unreliable peer
  | inr (p3, _) =>
      in_seq_reliable p3 = in_seq_reliable peer /\
      in_seq_unreliable p3 = in_seq_unreliable peer
  end.
Proof.
  unfold incoming_dispatch, peer_handle_ping, peer_handle_pong,
    peer_update_rtt.
  repeat break_if; split; reflexivity.
Qed.

(** A SEQUENCED packet leaves the counters as the classification set
    them, whatever its command. *)
Lemma incoming_sequenced_in_seq (now : Z) (peer : rudp_peer)
    (pc : rudp_packet_chain) :
  fst (incoming_analyse peer pc) = SEQUENCED ->
  let p2 := snd (incoming_analyse peer pc) in
  let r := incoming_sequenced now peer pc in
  in_seq_reliable (peer_after r) = in_seq_reliable p2 /\
  in_seq_unreliable (peer_after r) = in_seq_unreliable p2.
Proof.
  intros Hst p2 r. unfold r. rewrite incoming_sequenced_eq, Hst. fold p2.
  pose proof (incoming_dispatch_in_seq now p2 pc) as H.
  destruct (incoming_dispatch now SEQUENCED p2 pc) as [r'|[p3 evs]].
  - exact H.
  - destruct (incoming_finish_in_seq now p3 pc) as [E1 E2].
    cbn [peer_after]. rewrite E1, E2. exact H.
Qed.

(** ** Inbound sequencing *)

(** C1. A reliable packet, classified by [rudp_peer_incoming_packet]
    against the peer's [in_rel], is RETRANSMITTED when its sequence [s]
    equals [in_rel]; else SEQUENCED when [s = (uint16)(in_rel + 1)], and
    then [in_rel] becomes [s] and [in_unrel] becomes 0, which is how the
    call leaves them; else UNSEQUENCED.  With [in_rel = 0xFFFF], sequence
    [0x0000] is SEQUENCED. *)
Theorem classify_reliable_packet (now : Z) (peer : rudp_peer)
    (pc : rudp_packet_chain) :
  has_opt RUDP_OPT_RELIABLE (header pc) = true ->
  let s := ntohs (reliable (header pc)) in
  let in_rel := in_seq_reliable peer in
  let p1 := snd (incoming_ack peer pc) in
  let r := rudp_peer_incoming_packet now peer pc in
  (s = in_rel -> incoming_analyse p1 pc = (RETRANSMITTED, p1)) /\
  (s <> in_rel -> s = uint16 (in_rel + 1) ->
     incoming_analyse p1 pc =
       (SEQUENCED, set_in_seq_unreliable 0 (set_in_seq_reliable s p1))) /\
  (s <> in_rel -> s = uint16 (in_rel + 1) -> fst (incoming_ack peer pc) = 0 ->
     in_seq_reliable (peer_after r) = s /\
     in_seq_unreliable (peer_after r) = 0) /\
  (s <> in_rel -> s <> uint16 (in_rel + 1) ->
     incoming_analyse p1 pc = (UNSEQUENCED, p1)) /\
  (in_rel = 65535 -> s = 0 -> fst (incoming_analyse p1 pc) = SEQUENCED).
Proof.
  intros Hrel s in_rel p1 r.
  assert (Hin : in_seq_reliable p1 = in_rel)
    by apply (incoming_ack_in_seq peer pc).
  assert (Hseq : s <> in_rel -> s = uint16 (in_rel + 1) ->
                 incoming_analyse p1 pc =
                   (SEQUENCED,
                    set_in_seq_unreliable 0 (set_in_seq_reliable s p1))).
  { intros N E. unfold incoming_analyse, peer_analyse_reliable.
    rewrite Hrel, Hin. fold s.
    destruct (Z.eqb_spec in_rel s); [congruence|].
    rewrite <- E, Z.eqb_refl. reflexivity. }
  split; [|split; [exact Hseq|split; [|split]]].
  - intros E. unfold incoming_analyse, peer_analyse_reliable.
    rewrite Hrel, Hin. fold s. rewrite E, Z.eqb_refl. reflexivity.
  - intros N E Hok. specialize (Hseq N E).
    unfold r. rewrite (incoming_packet_accepted now peer pc Hok). fold p1.
    destruct (incoming_sequenced_in_seq now p1 pc) as [E1 E2].
    + rewrite Hseq. reflexivity.
    + rewrite E1, E2, Hseq. split; reflexivity.
  - intros N1 N2. unfold incoming_analyse, peer_analyse_reliable.
    rewrite Hrel, Hin. fold s.
    destruct (Z.eqb_spec in_rel s); [congruence|].
    destruct (Z.eqb_spec (uint16 (in_rel + 1)) s); [congruence|]. reflexivity.
  - intros E1 E2. unfold incoming_analyse, peer_analyse_reliable.
    rewrite Hrel, Hin. fold s. rewrite E1, E2. reflexivity.
Qed.

(** After sequence 0xFFFF, a reliable packet of sequence 0x0000 is
    SEQUENCED. *)
Lemma classify_reliable_packet_witness :
  fst (incoming_analyse
         (snd (incoming_ack (Sample.running 65535 7 6 5)
                            (Sample.packet 16 1 0 0 0 [104; 105])))
         (Sample.packet 16 1 0 0 0 [104; 105])) = SEQUENCED.
Proof.
  apply (classify_reliable_packet 1000 (Sample.running 65535 7 6 5)
           (Sample.packet 16 1 0 0 0 [104; 105]));
    reflexivity.
Defined.

(** C8. An unreliable packet is UNSEQUENCED when its reliable field
    differs from [in_rel]; else UNSEQUENCED when the signed 16-bit delta
    of its unreliable sequence to [in_unrel] is not positive; else
    SEQUENCED, with [in_unrel] set to that sequence, which is how the call
    leaves it: every positive delta is taken, and an older or equal
    sequence is dropped. *)
Theorem classify_unreliable_packet (now : Z) (peer : rudp_peer)
    (pc : rudp_packet_chain) :
  has_opt RUDP_OPT_RELIABLE (header pc) = false ->
  let s := ntohs (reliable (header pc)) in
  let u := ntohs (unreliable (header pc)) in
  let p1 := snd (incoming_ack peer pc) in
  let r := rudp_peer_incoming_packet now peer pc in
  (s <> in_seq_reliable peer -> incoming_analyse p1 pc = (UNSEQUENCED, p1)) /\
  (s = in_seq_reliable peer -> int16 (u - in_seq_unreliable peer) <= 0 ->
     incoming_analyse p1 pc = (UNSEQUENCED, p1)) /\
  (s = in_seq_reliable peer -> 0 < int16 (u - in_seq_unreliable peer) ->
     incoming_analyse p1 pc = (SEQUENCED, set_in_seq_unreliable u p1)) /\
  (s = in_seq_reliable peer -> 0 < int16 (u - in_seq_unreliable peer) ->
   fst (incoming_ack peer pc) = 0 ->
     in_seq_reliable (peer_after r) = in_seq_reliable peer /\
     in_seq_unreliable (peer_after r) = u) /\
  (forall k, s = in_seq_reliable peer -> 0 < k <= 32767 ->
     u = uint16 (in_seq_unreliable peer + k) ->
     fst (incoming_analyse p1 pc) = SEQUENCED) /\
  (forall k, 0 <= k <= 32768 ->
     u = uint16 (in_seq_unreliable peer - k) ->
     fst (incoming_analyse p1 pc) = UNSEQUENCED).
Proof.
  intros Hrel s u p1 r.
  destruct (incoming_ack_in_seq peer pc) as [Hin Hun].
  fold p1 in Hin, Hun.
  assert (Hneg : s <> in_seq_reliable peer ->
                 incoming_analyse p1 pc = (UNSEQUENCED, p1)).
  { intros N. unfold incoming_analyse, peer_analyse_unreliable.
    rewrite Hrel, Hin. fold s.
    destruct (Z.eqb_spec (in_seq_reliable peer) s); [congruence|].
    reflexivity. }
  assert (Hold : s = in_seq_reliable peer ->
                 int16 (u - in_seq_unreliable peer) <= 0 ->
                 incoming_analyse p1 pc = (UNSEQUENCED, p1)).
  { intros E D. unfold incoming_analyse, peer_analyse_unreliable.
    rewrite Hrel, Hin, Hun. fold s u. rewrite <- E, Z.eqb_refl. simpl.
    destruct (Z.leb_spec (int16 (u - in_seq_unreliable peer)) 0); [|lia].
    reflexivity. }
  assert (Hnew : s = in_seq_reliable peer ->
                 0 < int16 (u - in_seq_unreliable peer) ->
                 incoming_analyse p1 pc =
                   (SEQUENCED, set_in_seq_unreliable u p1)).
  { intros E D. unfold incoming_analyse, peer_analyse_unreliable.
    rewrite Hrel, Hin, Hun. fold s u. rewrite <- E, Z.eqb_refl. simpl.
    destruct (Z.leb_spec (int16 (u - in_seq_unreliable peer)) 0); [lia|].
    reflexivity. }
  split; [exact Hneg|split; [exact Hold|split; [exact Hnew|split; [|split]]]].
  - intros E D Hok. specialize (Hnew E D).
    unfold r. rewrite (incoming_packet_accepted now peer pc Hok). fold p1.
    destruct (incoming_sequenced_in_seq now p1 pc) as [E1 E2].
    + rewrite Hnew. reflexivity.
    + rewrite E1, E2, Hnew. split; [exact Hin|reflexivity].
  - intros k E Hk Hu. rewrite Hnew; auto.
    rewrite Hu, int16_uint16_add; lia.
  - intros k Hk Hu.
    destruct (Z.eq_dec s (in_seq_reliable peer)) as [E|N].
    + rewrite Hold; auto. rewrite Hu.
      destruct (Z.eq_dec k 32768) as [->|Nk].
      * unfold int16, uint16.
        pose proof (Z.div_mod (in_seq_unreliable peer - 32768) 65536
                      ltac:(lia)) as D.
        replace ((in_seq_unreliable peer - 32768) mod 65536
                 - in_seq_unreliable peer + 32768)
          with (0 + (- ((in_seq_unreliable peer - 32768) / 65536)) * 65536)
          by lia.
        rewrite Z.mod_add by lia. rewrite Z.mod_small; lia.
      * replace (in_seq_unreliable peer - k)
          with (in_seq_unreliable peer + (- k)) by lia.
        rewrite int16_uint16_add; lia.
    + rewrite Hneg; auto.
Qed.

(** In the epoch [in_rel = 9], with [in_unrel = 3] already taken, the
    duplicate [unrel = 2] is dropped. *)
Lemma classify_unreliable_packet_witness :
  fst (incoming_analyse
         (snd (incoming_ack (Sample.running 9 3 6 5)
                            (Sample.packet 16 0 0 9 2 [])))
         (Sample.packet 16 0 0 9 2 [])) = UNSEQUENCED.
Proof.
  apply (classify_unreliable_packet 1000 (Sample.running 9 3 6 5)
           (Sample.packet 16 0 0 9 2 [])) with (k := 1);
    [reflexivity | lia | reflexivity].
Defined.

(** ** Acknowledgement processing *)

Lemma ack_unqueue_prefix (ack : Z) (q : list rudp_packet_chain) :
  exists removed,
    q = removed ++ ack_unqueue ack q /\
    forallb (acknowledged_by ack) removed = true /\
    match ack_unqueue ack q with
    | [] => True
    | pc :: _ => acknowledged_by ack pc = false
    end.
Proof.
  induction q as [|pc rest IH]; simpl.
  - exists []. auto.
  - destruct (has_opt RUDP_OPT_RELIABLE (header pc)) eqn:R; simpl.
    2:{ exists []. unfold acknowledged_by. rewrite R. auto. }
    destruct (has_opt RUDP_OPT_RETRANSMITTED (header pc)) eqn:T; simpl.
    2:{ exists []. unfold acknowledged_by. rewrite R, T. auto. }
    destruct (Z.gtb_spec (int16 (ntohs (reliable (header pc)) - ack)) 0)
      as [G|G].
    + exists []. unfold acknowledged_by. rewrite R, T. simpl.
      repeat split. apply Z.leb_gt. lia.
    + destruct IH as (removed & E & A & S).
      exists (pc :: removed). simpl. repeat split.
      * f_equal. exact E.
      * rewrite A. unfold acknowledged_by. rewrite R, T. simpl.
        rewrite andb_true_r. apply Z.leb_le. lia.
      * exact S.
Qed.

Lemma forallb_acknowledged_sent (ack : Z) (l : list rudp_packet_chain) :
  forallb (acknowledged_by ack) l = true ->
  Forall (fun pc => has_opt RUDP_OPT_RETRANSMITTED (header pc) = true) l.
Proof.
  intros H. apply Forall_forall. intros pc Hin.
  rewrite forallb_forall in H. specialize (H pc Hin).
  unfold acknowledged_by in H.
  apply andb_true_iff in H. destruct H as [H _].
  apply andb_true_iff in H. tauto.
Qed.

(** C2. An ack that is neither stale nor past [out_rel] becomes
    [out_acked], and removes exactly a prefix of the send queue: the
    leading entries that are reliable, already transmitted and of sequence
    at most [ack] by signed 16-bit delta.  The walk stops at the first
    entry that is not so; no entry with RETRANSMITTED clear is removed, and
    what follows the removed prefix is untouched. *)
Theorem ack_removes_acknowledged_prefix (peer : rudp_peer) (ack : Z) :
  0 <= int16 (ack - out_seq_acked peer) ->
  int16 (ack - out_seq_reliable peer) <= 0 ->
  let peer' := snd (peer_handle_ack peer ack) in
  fst (peer_handle_ack peer ack) = 0 /\
  out_seq_acked peer' = ack /\
  peer' = set_sendq (sendq peer') (set_out_seq_acked ack peer) /\
  exists removed,
    sendq peer = removed ++ sendq peer' /\
    forallb (acknowledged_by ack) removed = true /\
    Forall (fun pc => has_opt RUDP_OPT_RETRANSMITTED (header pc) = true)
           removed /\
    match sendq peer' with
    | [] => True
    | pc :: _ => acknowledged_by ack pc = false
    end.
Proof.
  intros Hstale Hadv. unfold peer_handle_ack.
  destruct (Z.ltb_spec (int16 (ack - out_seq_acked peer)) 0); [lia|].
  destruct (Z.gtb_spec (int16 (ack - out_seq_reliable peer)) 0); [lia|].
  simpl. repeat split.
  destruct (ack_unqueue_prefix ack (sendq peer)) as (removed & E & A & S).
  exists removed. repeat split; auto.
  apply (forallb_acknowledged_sent ack). exact A.
Qed.

(** Sequences 6 and 7 were sent, 8 was not; an ack of 8 removes 6 and 7
    and keeps 8. *)
Lemma ack_removes_acknowledged_prefix_witness :
  let peer :=
    set_sendq [Sample.queued 16 6 true; Sample.queued 16 7 true;
               Sample.queued 16 8 false]
              (Sample.running 65535 0 8 5) in
  sendq (snd (peer_handle_ack peer 8)) = [Sample.queued 16 8 false] /\
  out_seq_acked (snd (peer_handle_ack peer 8)) = 8.
Proof.
  intros peer.
  destruct (ack_removes_acknowledged_prefix peer 8) as (_ & Hack & _).
  - vm_compute. discriminate.
  - vm_compute. discriminate.
  - split; [reflexivity | exact Hack].
Defined.

(** C3, as the code has it.  With the ACK flag set: a stale ack (negative
    signed delta to [out_acked]) is ignored and the packet goes through
    sequencing from the unchanged peer, whatever its delta to [out_rel];
    an ack that is not stale and lies past [out_rel] makes the whole
    packet rejected with [EINVAL], the peer left as it was. *)
Theorem stale_ack_ignored_invalid_ack_rejected (now : Z) (peer : rudp_peer)
    (pc : rudp_packet_chain) :
  has_opt RUDP_OPT_ACK (header pc) = true ->
  let ack := ntohs (reliable_ack (header pc)) in
  (int16 (ack - out_seq_acked peer) < 0 ->
     incoming_ack peer pc = (0, peer) /\
     rudp_peer_incoming_packet now peer pc =
       incoming_sequenced now peer pc) /\
  (0 <= int16 (ack - out_seq_acked peer) ->
   0 < int16 (ack - out_seq_reliable peer) ->
     rudp_peer_incoming_packet now peer pc = mk_outcome EINVAL peer [] /\
     peer_after (rudp_peer_incoming_packet now peer pc) = peer).
Proof.
  intros Hack ack. split.
  - intros Hstale.
    assert (E : incoming_ack peer pc = (0, peer)).
    { unfold incoming_ack, peer_handle_ack. rewrite Hack. fold ack.
      destruct (Z.ltb_spec (int16 (ack - out_seq_acked peer)) 0); [|lia].
      reflexivity. }
    split; [exact E|].
    rewrite incoming_packet_accepted; rewrite E; reflexivity.
  - intros Hfresh Hadv.
    assert (E : incoming_ack peer pc = (1, peer)).
    { unfold incoming_ack, peer_handle_ack. rewrite Hack. fold ack.
      destruct (Z.ltb_spec (int16 (ack - out_seq_acked peer)) 0); [lia|].
      destruct (Z.gtb_spec (int16 (ack - out_seq_reliable peer)) 0); [|lia].
      reflexivity. }
    rewrite (incoming_packet_rejected now peer pc E). split; reflexivity.
Qed.

(** With [out_rel = 10] and [out_acked = 5], an ACK of 20 rejects the
    packet. *)
Lemma stale_ack_ignored_invalid_ack_rejected_witness :
  rudp_peer_incoming_packet 1000 (Sample.running 65535 0 10 5)
      (Sample.packet 16 3 20 0 0 [104; 105]) =
    mk_outcome EINVAL (Sample.running 65535 0 10 5) [].
Proof.
  apply (stale_ack_ignored_invalid_ack_rejected 1000
           (Sample.running 65535 0 10 5)
           (Sample.packet 16 3 20 0 0 [104; 105]) eq_refl).
  - vm_compute. discriminate.
  - vm_compute. reflexivity.
Defined.

(** C3 as stated fails: an ack past [out_rel] is not always rejected.
    With [out_acked = 5] and [out_rel = 6], the ack 32773 is at signed
    delta +32767 past [out_rel], yet at -32768 from [out_acked]; the stale
    test comes first and the packet is accepted. *)
Lemma ack_past_out_rel_not_always_rejected :
  ~ (forall (now : Z) (peer : rudp_peer) (pc : rudp_packet_chain),
       has_opt RUDP_OPT_ACK (header pc) = true ->
       0 < int16 (ntohs (reliable_ack (header pc)) - out_seq_reliable peer) ->
       ret (rudp_peer_incoming_packet now peer pc) = EINVAL).
Proof.
  intros H.
  specialize (H 1000 (Sample.running 65535 0 6 5)
                (Sample.packet 0 2 32773 0 0 []) eq_refl eq_refl).
  vm_compute in H. discriminate H.
Qed.

(** ** Dispatch and acknowledgement posting *)

Lemma incoming_dispatch_close (now : Z) (peer : rudp_peer)
    (pc : rudp_packet_chain) :
  command (header pc) = RUDP_CMD_CLOSE ->
  incoming_dispatch now SEQUENCED peer pc =
    inl (mk_outcome 0
           (set_state PEER_DEAD
              (set_abs_timeout_deadline (now + DROP_TIMEOUT) peer))
           [EvDropped]).
Proof. intros E. unfold incoming_dispatch. rewrite E. reflexivity. Qed.

Lemma incoming_dispatch_continues (now : Z) (st : packet_state)
    (peer : rudp_peer) (pc : rudp_packet_chain) :
  ~ (st = SEQUENCED /\ command (header pc) = RUDP_CMD_CLOSE) ->
  exists p3 evs, incoming_dispatch now st peer pc = inr (p3, evs).
Proof.
  intros N. unfold incoming_dispatch.
  destruct st; try (repeat break_if; eauto; fail).
  destruct (Z.eqb_spec (command (header pc)) RUDP_CMD_CLOSE) as [E|_];
    [tauto|].
  repeat break_if; eauto.
Qed.

Lemma peer_post_ack_spec (now : Z) (peer : rudp_peer) :
  must_ack (peer_post_ack now peer) = true /\
  (sendq peer <> [] -> sendq (peer_post_ack now peer) = sendq peer) /\
  (sendq peer = [] ->
     exists carrier,
       sendq (peer_post_ack now peer) = [carrier] /\
       command (header carrier) = RUDP_CMD_NOOP /\
       opt (header carrier) = 0 /\
       reliable (header carrier) = htons (out_seq_reliable peer) /\
       unreliable (header carrier) =
         htons (uint16 (out_seq_unreliable peer + 1))).
Proof.
  unfold peer_post_ack. simpl.
  destruct (sendq peer) as [|hd tl] eqn:Q.
  - split; [reflexivity|]. split; [congruence|].
    intros _. eexists. split; [simpl; reflexivity|].
    repeat split.
  - split; [reflexivity|]. split; [intros _; simpl; exact Q|].
    discriminate.
Qed.

(** C10, as the code has it.  A packet with the RELIABLE flag that the ACK
    stage does not reject sets [must_ack], whatever its classification,
    and gets a NOOP carrier queued when the send queue is empty at that
    point; except a SEQUENCED CLOSE, which marks the peer dead, calls
    [dropped] and returns with [must_ack] and the send queue untouched. *)
Theorem reliable_packet_posts_ack (now : Z) (peer : rudp_peer)
    (pc : rudp_packet_chain) :
  has_opt RUDP_OPT_RELIABLE (header pc) = true ->
  fst (incoming_ack peer pc) = 0 ->
  let p1 := snd (incoming_ack peer pc) in
  let st := fst (incoming_analyse p1 pc) in
  let p2 := snd (incoming_analyse p1 pc) in
  let r := rudp_peer_incoming_packet now peer pc in
  (st = SEQUENCED -> command (header pc) = RUDP_CMD_CLOSE ->
     r = mk_outcome 0
           (set_state PEER_DEAD
              (set_abs_timeout_deadline (now + DROP_TIMEOUT) p2))
           [EvDropped] /\
     must_ack (peer_after r) = must_ack peer /\
     sendq (peer_after r) = sendq p1) /\
  (~ (st = SEQUENCED /\ command (header pc) = RUDP_CMD_CLOSE) ->
     exists p3 evs,
       incoming_dispatch now st p2 pc = inr (p3, evs) /\
       ret r = 0 /\
       must_ack (peer_after r) = true /\
       (sendq p3 <> [] -> sendq (peer_after r) = sendq p3) /\
       (sendq p3 = [] ->
          exists carrier,
            sendq (peer_after r) = [carrier] /\
            command (header carrier) = RUDP_CMD_NOOP /\
            opt (header carrier) = 0)).
Proof.
  intros Hrel Hok p1 st p2 r.
  assert (Er : r = incoming_sequenced now p1 pc)
    by (apply incoming_packet_accepted; exact Hok).
  rewrite incoming_sequenced_eq in Er. fold st p2 in Er.
  pose proof (incoming_ack_frame peer pc) as (Hm1 & _).
  pose proof (incoming_analyse_frame p1 pc) as (Hm2 & _ & Hq2 & _).
  fold p1 in Hm1. fold p2 in Hm2, Hq2.
  split.
  - intros Hst Hcmd. rewrite Hst in Er.
    rewrite (incoming_dispatch_close now p2 pc Hcmd) in Er.
    rewrite Er. simpl. repeat split; congruence.
  - intros N.
    destruct (incoming_dispatch_continues now st p2 pc N) as (p3 & evs & Ed).
    exists p3, evs. rewrite Ed in Er. rewrite Er. simpl.
    unfold incoming_finish. rewrite Hrel.
    destruct (peer_post_ack_spec now p3) as (Hm & Hne & He).
    repeat split; auto.
    intros Q. destruct (He Q) as (carrier & H1 & H2 & H3 & _).
    exists carrier. auto.
Qed.

(** An out-of-order reliable packet (sequence 7 while [in_rel = 3]) still
    sets [must_ack]. *)
Lemma reliable_packet_posts_ack_witness :
  must_ack (peer_after (rudp_peer_incoming_packet 1000
                          (Sample.running 3 0 6 5)
                          (Sample.packet 16 1 0 7 0 [104; 105]))) = true.
Proof.
  destruct (reliable_packet_posts_ack 1000 (Sample.running 3 0 6 5)
              (Sample.packet 16 1 0 7 0 [104; 105]) eq_refl eq_refl)
    as [_ H].
  destruct H as (p3 & evs & _ & _ & Hm & _).
  - vm_compute. intros [E _]. discriminate E.
  - exact Hm.
Defined.

(** C10 as stated fails: a SEQUENCED CLOSE is not the only reliable packet
    that leaves [must_ack] unset.  A reliable packet whose ACK lies past
    [out_rel] (here 20, with [out_rel = 10] and [out_acked = 5]) is
    rejected before any ack is posted. *)
Lemma rejected_reliable_packet_posts_no_ack :
  ~ (forall (now : Z) (peer : rudp_peer) (pc : rudp_packet_chain),
       has_opt RUDP_OPT_RELIABLE (header pc) = true ->
       ~ (fst (incoming_analyse (snd (incoming_ack peer pc)) pc) = SEQUENCED
          /\ command (header pc) = RUDP_CMD_CLOSE) ->
       must_ack (peer_after (rudp_peer_incoming_packet now peer pc)) = true).
Proof.
  intros H.
  specialize (H 1000 (Sample.running 65535 0 10 5)
                (Sample.packet 16 3 20 0 0 [104; 105]) eq_refl).
  assert (N : ~ (fst (incoming_analyse
                        (snd (incoming_ack (Sample.running 65535 0 10 5)
                                (Sample.packet 16 3 20 0 0 [104; 105])))
                        (Sample.packet 16 3 20 0 0 [104; 105])) = SEQUENCED
                 /\ command (header (Sample.packet 16 3 20 0 0 [104; 105]))
                    = RUDP_CMD_CLOSE)).
  { intros [_ E]. vm_compute in E. discriminate E. }
  specialize (H N). vm_compute in H. discriminate H.
Qed.

(** ** PING *)

Lemma incoming_dispatch_ping (now : Z) (peer : rudp_peer)
    (pc : rudp_packet_chain) :
  command (header pc) = RUDP_CMD_PING ->
  state peer = PEER_RUN ->
  incoming_dispatch now SEQUENCED peer pc =
    inr (peer_handle_ping now
           (set_abs_timeout_deadline (now + DROP_TIMEOUT) peer) pc, []).
Proof.
  intros E S. unfold incoming_dispatch. rewrite E. simpl. rewrite S.
  reflexivity.
Qed.

Lemma incoming_finish_spec (now : Z) (peer : rudp_peer)
    (pc : rudp_packet_chain) :
  let p' := incoming_finish now peer pc in
  (sendq peer <> [] -> sendq p' = sendq peer) /\
  (has_opt RUDP_OPT_RELIABLE (header pc) = false ->
     sendq p' = sendq peer /\ must_ack p' = must_ack peer) /\
  (has_opt RUDP_OPT_RELIABLE (header pc) = true ->
     must_ack p' = true /\
     (sendq peer = [] ->
        exists carrier,
          sendq p' = [carrier] /\
          command (header carrier) = RUDP_CMD_NOOP /\
          opt (header carrier) = 0)).
Proof.
  unfold incoming_finish.
  destruct (peer_post_ack_spec now peer) as (Hm & Hne & He).
  destruct (has_opt RUDP_OPT_RELIABLE (header pc)).
  - split; [exact Hne|]. split; [discriminate|].
    intros _. split; [exact Hm|].
    intros Q. destruct (He Q) as (carrier & H1 & H2 & H3 & _).
    exists carrier. auto.
  - split; [reflexivity|]. split; [split; reflexivity|discriminate].
Qed.

Lemma peer_handle_ping_first (now : Z) (peer : rudp_peer)
    (pc : rudp_packet_chain) :
  has_opt RUDP_OPT_RETRANSMITTED (header pc) = false ->
  exists pong,
    sendq (peer_handle_ping now peer pc) = sendq peer ++ [pong] /\
    command (header pong) = RUDP_CMD_PONG /\
    has_opt RUDP_OPT_RELIABLE (header pong) = false /\
    data pong = data pc /\ len pong = len pc /\
    reliable (header pong) = htons (out_seq_reliable peer) /\
    unreliable (header pong) = htons (uint16 (out_seq_unreliable peer + 1)).
Proof.
  intros Hre. unfold peer_handle_ping. rewrite Hre.
  eexists. split; [reflexivity|]. repeat split.
Qed.

Lemma peer_handle_ping_again (now : Z) (peer : rudp_peer)
    (pc : rudp_packet_chain) :
  has_opt RUDP_OPT_RETRANSMITTED (header pc) = true ->
  peer_handle_ping now peer pc = peer.
Proof. intros Hre. unfold peer_handle_ping. rewrite Hre. reflexivity. Qed.

(** C9. A SEQUENCED PING received in state RUN: with RETRANSMITTED clear,
    exactly one entry is appended to the send queue, an unreliable PONG
    carrying the PING's payload; with RETRANSMITTED set, no PONG is
    queued, and a reliable PING still sets [must_ack]. *)
Theorem sequenced_ping_in_run (now : Z) (peer : rudp_peer)
    (pc : rudp_packet_chain) :
  fst (incoming_ack peer pc) = 0 ->
  let p1 := snd (incoming_ack peer pc) in
  fst (incoming_analyse p1 pc) = SEQUENCED ->
  state peer = PEER_RUN ->
  command (header pc) = RUDP_CMD_PING ->
  let r := rudp_peer_incoming_packet now peer pc in
  (has_opt RUDP_OPT_RETRANSMITTED (header pc) = false ->
     exists pong,
       sendq (peer_after r) = sendq p1 ++ [pong] /\
       command (header pong) = RUDP_CMD_PONG /\
       has_opt RUDP_OPT_RELIABLE (header pong) = false /\
       data pong = data pc /\ len pong = len pc /\
       reliable (header pong) = htons (out_seq_reliable peer) /\
       unreliable (header pong) =
         htons (uint16 (out_seq_unreliable peer + 1))) /\
  (has_opt RUDP_OPT_RETRANSMITTED (header pc) = true ->
     (exists extra,
        sendq (peer_after r) = sendq p1 ++ extra /\
        Forall (fun e => command (header e) <> RUDP_CMD_PONG) extra) /\
     (has_opt RUDP_OPT_RELIABLE (header pc) = true ->
        must_ack (peer_after r) = true)).
Proof.
  intros Hok p1 Hst Hrun Hcmd r.
  assert (Er : r = incoming_sequenced now p1 pc)
    by (apply incoming_packet_accepted; exact Hok).
  rewrite incoming_sequenced_eq, Hst in Er.
  pose proof (incoming_ack_frame peer pc) as (_ & Hs1 & Hr1 & Hu1).
  pose proof (incoming_analyse_frame p1 pc) as (_ & Hs2 & Hq2 & Hr2 & Hu2).
  fold p1 in Hs1, Hr1, Hu1.
  set (p2 := snd (incoming_analyse p1 pc)) in *.
  rewrite incoming_dispatch_ping in Er by congruence.
  set (p2' := set_abs_timeout_deadline (now + DROP_TIMEOUT) p2) in *.
  assert (Hq2' : sendq p2' = sendq p1) by exact Hq2.
  assert (Er' : peer_after r = incoming_finish now (peer_handle_ping now p2' pc) pc)
    by (rewrite Er; reflexivity).
  rewrite Er'.
  destruct (incoming_finish_spec now (peer_handle_ping now p2' pc) pc)
    as (Hne & Hunrel & Hrel).
  split; intros Hre.
  - destruct (peer_handle_ping_first now p2' pc Hre)
      as (pong & Hq & Hc & Ho & Hd & Hl & Hsr & Hsu).
    exists pong. rewrite Hne.
    + rewrite Hq, Hq2'. repeat split; auto.
      * rewrite Hsr. f_equal. change (out_seq_reliable p2 = out_seq_reliable peer).
        congruence.
      * rewrite Hsu. do 2 f_equal.
        change (out_seq_unreliable p2 + 1 = out_seq_unreliable peer + 1).
        congruence.
    + rewrite Hq. intros Q. apply app_eq_nil in Q. destruct Q as [_ Q].
      discriminate Q.
  - rewrite (peer_handle_ping_again now p2' pc Hre) in *.
    split.
    + destruct (has_opt RUDP_OPT_RELIABLE (header pc)) eqn:R.
      * destruct (sendq p1) as [|hd tl] eqn:Q.
        -- destruct Hrel as (_ & He); [reflexivity|].
           destruct He as (carrier & H1 & H2 & _); [congruence|].
           exists [carrier]. split; [exact H1|].
           constructor; [|constructor]. rewrite H2. discriminate.
        -- exists []. rewrite app_nil_r. split; [|constructor].
           rewrite Hne; congruence.
      * exists []. rewrite app_nil_r. split; [|constructor].
        destruct Hunrel as (Hq & _); [reflexivity|]. congruence.
    + intros R. apply Hrel. exact R.
Qed.

(** A reliable PING of sequence 4 arriving at [in_rel = 3], first
    transmission: one PONG with the eight payload bytes is queued. *)
Lemma sequenced_ping_in_run_witness :
  exists pong,
    sendq (peer_after (rudp_peer_incoming_packet 1000
                         (Sample.running 3 0 6 5)
                         (Sample.packet 4 1 0 4 0 [1; 2; 3; 4; 5; 6; 7; 8])))
      = [pong] /\
    command (header pong) = RUDP_CMD_PONG /\
    data pong = [1; 2; 3; 4; 5; 6; 7; 8].
Proof.
  destruct (sequenced_ping_in_run 1000 (Sample.running 3 0 6 5)
              (Sample.packet 4 1 0 4 0 [1; 2; 3; 4; 5; 6; 7; 8])
              eq_refl eq_refl eq_refl eq_refl) as [H _].
  destruct (H eq_refl) as (pong & Hq & Hc & _ & Hd & _).
  exists pong. repeat split; assumption.
Defined.

(** ** Service *)

Section Service.

Variable rudp_endpoint_send : rudp_packet_chain -> Z.

Lemma peer_service_past_deadline (now : Z) (peer : rudp_peer) :
  abs_timeout_deadline peer < now ->
  peer_service rudp_endpoint_send now peer =
    (set_scheduled false peer, [EvDropped]).
Proof.
  intros H. unfold peer_service. simpl.
  destruct (Z.ltb_spec (abs_timeout_deadline peer) now); [reflexivity|lia].
Qed.

End Service.

(** C4, on the code.  A running peer with a packet queued is serviced one
    millisecond past its drop deadline: [dropped] is called and nothing is
    sent or queued, but the lifecycle state is still RUN; only the CLOSE
    branch of [rudp_peer_incoming_packet] writes PEER_DEAD. *)
Theorem service_past_deadline_keeps_state :
  let peer := set_sendq [Sample.queued 16 6 false] (Sample.running 3 0 6 5) in
  let r := peer_service (fun _ => 0) 11001 peer in
  abs_timeout_deadline peer < 11001 /\
  snd r = [EvDropped] /\
  sendq (fst r) = sendq peer /\
  state (fst r) = PEER_RUN /\
  state (fst r) <> PEER_DEAD.
Proof.
  intros peer r. subst r.
  rewrite peer_service_past_deadline by (vm_compute; reflexivity).
  vm_compute. repeat split; try reflexivity; discriminate.
Qed.

Lemma timeval_ms_of_timestamp (d : Z) :
  timeval_ms (rudp_timestamp_to_timeval d) = d.
Proof.
  unfold timeval_ms, rudp_timestamp_to_timeval. simpl.
  rewrite Z.quot_mul by lia.
  pose proof (Z.quot_rem d 1000 ltac:(lia)). lia.
Qed.

Lemma service_timeout_delta (now : Z) (peer : rudp_peer) :
  timeval_ms (service_timeout (peer_service_schedule now peer)) =
    peer_service_delta now peer.
Proof. unfold peer_service_schedule. simpl. apply timeval_ms_of_timestamp. Qed.

(** C5, as the code has it.  The armed delay is at least 1 ms; the wake
    time is no later than [drop_deadline] whenever the deadline is still
    ahead, and the delay is exactly 1 ms once it is reached; a head not
    yet transmitted wakes the service at once (1 ms); an empty queue wakes
    it at [now + ACTION_TIMEOUT], or at the deadline when that is sooner. *)
Theorem service_wake_time (now : Z) (peer : rudp_peer) :
  let delay := timeval_ms (service_timeout (peer_service_schedule now peer)) in
  let deadline := abs_timeout_deadline peer in
  1 <= delay /\
  scheduled (peer_service_schedule now peer) = true /\
  (now < deadline -> now + delay <= deadline) /\
  (deadline <= now -> delay = 1) /\
  (forall head rest,
     sendq peer = head :: rest ->
     has_opt RUDP_OPT_RETRANSMITTED (header head) = false ->
     delay = 1) /\
  (sendq peer = [] -> now + ACTION_TIMEOUT <= deadline ->
     now + delay = now + ACTION_TIMEOUT) /\
  (sendq peer = [] -> now < deadline <= now + ACTION_TIMEOUT ->
     now + delay = deadline).
Proof.
  intros delay deadline. subst delay.
  rewrite service_timeout_delta. unfold peer_service_delta. fold deadline.
  unfold ACTION_TIMEOUT.
  repeat split.
  - destruct (sendq peer) as [|head rest]; [|break_if]; break_cmp; lia.
  - intros H.
    destruct (sendq peer) as [|head rest]; [|break_if]; break_cmp; lia.
  - intros H.
    destruct (sendq peer) as [|head rest]; [|break_if]; break_cmp; lia.
  - intros head rest Q T. rewrite Q, T. break_cmp; lia.
  - intros Q H. rewrite Q. break_cmp; lia.
  - intros Q H. rewrite Q. break_cmp; lia.
Qed.

(** An idle peer at time 1000 with its deadline at 11000 wakes at 6000. *)
Lemma service_wake_time_witness :
  1000 + timeval_ms (service_timeout
                       (peer_service_schedule 1000 (Sample.running 3 0 6 5)))
    = 1000 + ACTION_TIMEOUT.
Proof.
  apply (service_wake_time 1000 (Sample.running 3 0 6 5)).
  - reflexivity.
  - vm_compute. discriminate.
Defined.

(** C5 as stated fails: the wake time is not always clipped to the drop
    deadline.  Scheduled at the deadline itself (both 11000), the delay is
    the 1 ms minimum and the wake time 11001. *)
Lemma wake_time_may_pass_deadline :
  ~ (forall (now : Z) (peer : rudp_peer),
       now + timeval_ms (service_timeout (peer_service_schedule now peer))
         <= abs_timeout_deadline peer).
Proof.
  intros H. specialize (H 11000 (Sample.running 3 0 6 5)).
  vm_compute in H. apply H. reflexivity.
Qed.

(** With a transmitted head the code arms [now - last_out_time + rto]:
    sent at 900 with [rto = 300] and scheduled at 1000, the service wakes
    at 1400. *)
Lemma retransmitted_head_delay :
  let peer :=
    set_rto 300 (set_last_out_time 900
      (set_sendq [Sample.queued 16 6 true] (Sample.running 3 0 6 5))) in
  1000 + timeval_ms (service_timeout (peer_service_schedule 1000 peer)) = 1400
  /\ last_out_time peer + rto peer = 1200.
Proof. vm_compute. split; reflexivity. Qed.

(** ** The handshake and a retransmission, run on the model *)

(** A new server-side peer (first sequence 7) takes a reliable CONN_REQ of
    sequence 8: it queues CONN_RSP, adopts [in_rel = 8] and runs; its next
    service sends CONN_RSP carrying the ACK of 8, and the queue is empty
    again. *)
Example handshake_server_side :
  let p0 := rudp_peer_from_sockaddr 1000 7 Sample.addr1 in
  let r := rudp_peer_incoming_packet 1000 p0
             (Sample.packet RUDP_CMD_CONN_REQ RUDP_OPT_RELIABLE 0 8 0
                            [0; 0; 0; 0]) in
  let '(p1, sent) := peer_service (fun _ => 0) 1001 (peer_after r) in
  ret r = 0 /\ state (peer_after r) = PEER_RUN /\
  in_seq_reliable (peer_after r) = 8 /\ must_ack (peer_after r) = true /\
  sent = [EvSend (Sample.packet RUDP_CMD_CONN_RSP RUDP_OPT_ACK 8 7 1
                                [0; 0; 0; 1])] /\
  sendq p1 = [].
Proof. vm_compute. repeat split; reflexivity. Qed.

(** A reliable packet is sent, flagged RETRANSMITTED in the queue, sent
    again with the flag and [rto] doubled up to [MAX_RTO], and leaves the
    queue when its sequence is acknowledged. *)
Example retransmit_then_ack :
  let p0 := set_rto 200 (Sample.running 3 0 6 6) in
  let p1 := snd (rudp_peer_send_reliable 1000 p0
                   (mk_chain (mk_header 16 0 0 0 0) [104; 105])) in
  let '(p2, sent1) := peer_service (fun _ => 0) 1001 p1 in
  let '(p3, sent2) := peer_service (fun _ => 0) 1201 p2 in
  let p4 := snd (peer_handle_ack p3 7) in
  sent1 = [EvSend (Sample.packet 16 1 0 7 0 [104; 105])] /\
  sent2 = [EvSend (Sample.packet 16 5 0 7 0 [104; 105])] /\
  sendq p3 = [Sample.packet 16 5 0 7 0 [104; 105]] /\
  rto p3 = 400 /\
  sendq p4 = [] /\ out_seq_acked p4 = 7.
Proof. vm_compute. repeat split; reflexivity. Qed.

(** ** The client shell *)

Import Client.

(** C6, on the code.  A client whose peer is still CONNECTING receives an
    unsequenced NOOP without flags: the engine ignores it and returns 0,
    and the shell calls [connected] although the peer has not left
    CONNECTING. *)
Theorem connected_fires_while_connecting :
  let r :=
    client_handle_endpoint_packet 1001 0 Sample.connecting_client
      (Sample.packet RUDP_CMD_NOOP 0 0 0 0 []) in
  state (peer Sample.connecting_client) = PEER_CONNECTING /\
  connected Sample.connecting_client = 0 /\
  snd r = [ClConnected] /\
  connected (fst r) = 1 /\
  state (peer (fst r)) = PEER_CONNECTING.
Proof. vm_compute. repeat split; reflexivity. Qed.

(** A connected client that receives CLOSE calls [server_lost] and then,
    in the same call, [connected] again, with no connect in between. *)
Lemma connected_fires_after_close :
  let r :=
    client_handle_endpoint_packet 2000 0 Sample.connected_client
      (Sample.packet RUDP_CMD_CLOSE 0 0 100 2 []) in
  state (peer Sample.connected_client) = PEER_RUN /\
  connected Sample.connected_client = 1 /\
  snd r = [ClServerLost; ClConnected] /\
  state (peer (fst r)) = PEER_NEW.
Proof. vm_compute. repeat split; reflexivity. Qed.

(** ** The server demultiplexer *)

Import Server.




(** Acceptance is the engine returning 0, not its reaching RUN: a reliable
    CONN_REQ of sequence 0 is SEQUENCED for a fresh peer (whose [in_rel]
    is 0xFFFF), so no handshake is run, the peer stays NEW, and [peer_new]
    is called all the same. *)
Lemma peer_new_without_handshake :
  let pc := Sample.packet RUDP_CMD_CONN_REQ RUDP_OPT_RELIABLE 0 0 0
                          [0; 0; 0; 0] in
  let res :=
    server_handle_endpoint_packet 1000 7 true (mk_server []) Sample.addr1 pc in
  exists p, snd res = [SrvNewConnection; SrvPeerNew p] /\ state p = PEER_NEW.
Proof. eexists. vm_compute. split; reflexivity. Qed.

(** * Further properties of the code *)

(** ** PING payload and RTT estimation *)

Lemma le_value_le_bytes (n : nat) (z : Z) :
  le_value (le_bytes n z) = z mod 256 ^ Z.of_nat n.
Proof.
  revert z. induction n as [|n IH]; intros z.
  - simpl. rewrite Z.mod_1_r. reflexivity.
  - cbn [le_bytes le_value]. rewrite IH.
    rewrite Nat2Z.inj_succ, Z.pow_succ_r by lia.
    rewrite Z.rem_mul_r by lia. reflexivity.
Qed.

Lemma le_bytes_length (n : nat) (z : Z) : length (le_bytes n z) = n.
Proof. revert z. induction n; intros z; simpl; auto. Qed.

Lemma time_of_bytes_to_bytes (t : Z) :
  - 2 ^ 63 <= t < 2 ^ 63 -> time_of_bytes (time_to_bytes t) = t.
Proof.
  intros H. unfold time_of_bytes, time_to_bytes.
  rewrite firstn_all2 by (rewrite le_bytes_length; lia).
  rewrite le_value_le_bytes.
  change (256 ^ Z.of_nat 8) with (2 ^ 64).
  destruct (Z.lt_ge_cases t 0) as [Hneg|Hpos].
  - assert (E : t mod 2 ^ 64 = t + 2 ^ 64).
    { symmetry. apply (Z.mod_unique_pos t (2 ^ 64) (-1)); lia. }
    rewrite E. destruct (Z.ltb_spec (t + 2 ^ 64) (2 ^ 63)); lia.
  - rewrite Z.mod_small by lia.
    destruct (Z.ltb_spec t (2 ^ 63)); lia.
Qed.

(** X1.  The timestamp a keep-alive PING carries comes back unchanged in
    the PONG the remote peer queues for it, so the RTT sample taken when
    the PONG arrives at [t2] is [t2 - t0] for a PING built at [t0]. *)
Theorem ping_pong_rtt_sample (t0 t1 t2 : Z) (a b a' : rudp_peer)
    (d : rudp_packet_chain) :
  - 2 ^ 63 <= t0 < 2 ^ 63 ->
  let ping := last (sendq (peer_ping t0 a)) d in
  let pong := last (sendq (peer_handle_ping t1 b ping)) d in
  command (header ping) = RUDP_CMD_PING /\
  has_opt RUDP_OPT_RELIABLE (header ping) = true /\
  command (header pong) = RUDP_CMD_PONG /\
  has_opt RUDP_OPT_RELIABLE (header pong) = false /\
  data pong = data ping /\
  peer_handle_pong t2 a' pong = peer_update_rtt a' (t2 - t0).
Proof.
  intros Ht ping pong.
  assert (Eping : ping =
            mk_chain (mk_header RUDP_CMD_PING RUDP_OPT_RELIABLE 0
                        (htons (uint16 (out_seq_reliable a + 1))) 0)
                     (time_to_bytes t0)).
  { unfold ping, peer_ping, rudp_peer_send_reliable. cbn.
    rewrite last_last. reflexivity. }
  assert (Epong : data pong = time_to_bytes t0 /\
                  command (header pong) = RUDP_CMD_PONG /\
                  has_opt RUDP_OPT_RELIABLE (header pong) = false).
  { unfold pong. rewrite Eping. unfold peer_handle_ping.
    cbn [header has_opt opt].
    change (negb (Z.land RUDP_OPT_RELIABLE RUDP_OPT_RETRANSMITTED =? 0))
      with false. cbn iota.
    unfold rudp_peer_send_unreliable. cbn. rewrite last_last.
    repeat split. }
  destruct Epong as (Ed & Ec & Ho).
  refine (conj _ (conj _ (conj Ec (conj Ho (conj _ _))))).
  - rewrite Eping. reflexivity.
  - rewrite Eping. reflexivity.
  - rewrite Ed, Eping. reflexivity.
  - unfold peer_handle_pong. rewrite Ed, time_of_bytes_to_bytes by exact Ht.
    reflexivity.
Qed.

Lemma ping_pong_rtt_sample_witness :
  peer_handle_pong 1080 (Sample.running 3 0 6 5)
    (last (sendq (peer_handle_ping 1040 (Sample.running 9 0 3 3)
                    (last (sendq (peer_ping 1000 (Sample.running 3 0 6 5)))
                          (Sample.packet 0 0 0 0 0 []))))
          (Sample.packet 0 0 0 0 0 []))
  = peer_update_rtt (Sample.running 3 0 6 5) (1080 - 1000).
Proof.
  apply (ping_pong_rtt_sample 1000 1040 1080 (Sample.running 3 0 6 5)
           (Sample.running 9 0 3 3) (Sample.running 3 0 6 5)
           (Sample.packet 0 0 0 0 0 [])).
  split; [discriminate | reflexivity].
Defined.

(** ** The send queue walk *)

Lemma has_opt_lor (f g : Z) (h : rudp_packet_header) :
  has_opt f (set_opt (Z.lor (opt h) g) h) =
    has_opt f h || negb (Z.land g f =? 0).
Proof.
  unfold has_opt. cbn [opt set_opt]. rewrite Z.land_lor_distr_l.
  destruct (Z.eqb_spec (Z.land (opt h) f) 0) as [E|N];
  destruct (Z.eqb_spec (Z.land g f) 0) as [E'|N'];
  destruct (Z.eqb_spec (Z.lor (Z.land (opt h) f) (Z.land g f)) 0) as [L|L];
    try reflexivity; exfalso.
  - rewrite E, E' in L. apply L. reflexivity.
  - apply Z.lor_eq_0_iff in L. tauto.
  - apply Z.lor_eq_0_iff in L. tauto.
  - apply Z.lor_eq_0_iff in L. tauto.
Qed.

Lemma has_opt_set_reliable_ack (f a : Z) (h : rudp_packet_header) :
  has_opt f (set_reliable_ack a h) = has_opt f h.
Proof. reflexivity. Qed.

Lemma stamped_flags (peer : rudp_peer) (pc : rudp_packet_chain) :
  is_reliable (stamped peer pc) = is_reliable pc /\
  is_retransmitted (stamped peer pc) = is_retransmitted pc /\
  data (stamped peer pc) = data pc /\
  command (header (stamped peer pc)) = command (header pc) /\
  reliable (header (stamped peer pc)) = reliable (header pc) /\
  unreliable (header (stamped peer pc)) = unreliable (header pc).
Proof.
  unfold stamped, is_reliable, is_retransmitted.
  destruct (must_ack peer); cbn [with_header header data].
  - rewrite !has_opt_set_reliable_ack, !has_opt_lor.
    change (Z.land RUDP_OPT_ACK RUDP_OPT_RELIABLE =? 0) with true.
    change (Z.land RUDP_OPT_ACK RUDP_OPT_RETRANSMITTED =? 0) with true.
    cbn [negb]. rewrite !orb_false_r. repeat split.
  - repeat split.
Qed.

Lemma stamped_ack (peer : rudp_peer) (pc : rudp_packet_chain) :
  must_ack peer = true ->
  has_opt RUDP_OPT_ACK (header (stamped peer pc)) = true /\
  reliable_ack (header (stamped peer pc)) = htons (in_seq_reliable peer).
Proof.
  intros M. unfold stamped. rewrite M. cbn [with_header header].
  rewrite has_opt_set_reliable_ack, has_opt_lor.
  change (Z.land RUDP_OPT_ACK RUDP_OPT_ACK =? 0) with false.
  cbn [negb]. rewrite orb_true_r. split; reflexivity.
Qed.

Lemma marked_flags (pc : rudp_packet_chain) :
  is_retransmitted (marked pc) = true /\
  is_reliable (marked pc) = is_reliable pc /\
  has_opt RUDP_OPT_ACK (header (marked pc)) = has_opt RUDP_OPT_ACK (header pc) /\
  data (marked pc) = data pc /\
  command (header (marked pc)) = command (header pc) /\
  reliable (header (marked pc)) = reliable (header pc) /\
  reliable_ack (header (marked pc)) = reliable_ack (header pc) /\
  unreliable (header (marked pc)) = unreliable (header pc).
Proof.
  unfold marked, is_reliable, is_retransmitted. cbn [with_header header data].
  rewrite !has_opt_lor.
  change (Z.land RUDP_OPT_RETRANSMITTED RUDP_OPT_RETRANSMITTED =? 0) with false.
  change (Z.land RUDP_OPT_RETRANSMITTED RUDP_OPT_RELIABLE =? 0) with true.
  change (Z.land RUDP_OPT_RETRANSMITTED RUDP_OPT_ACK =? 0) with true.
  cbn [negb]. rewrite orb_true_r, !orb_false_r. repeat split.
Qed.

Section SendQueue.

Variable rudp_endpoint_send : rudp_packet_chain -> Z.

Lemma send_queue_loop_step (now : Z) (pc : rudp_packet_chain)
    (rest : list rudp_packet_chain) (peer : rudp_peer) :
  send_queue_loop rudp_endpoint_send now (pc :: rest) peer =
    let pc1 := stamped peer pc in
    let p1 := peer_send_raw rudp_endpoint_send now peer pc1 in
    if is_reliable pc && is_retransmitted pc
    then (pc1 :: rest, peer_rto_backoff p1, [EvSend pc1])
    else
      let '(rest', p', evs) :=
        send_queue_loop rudp_endpoint_send now rest p1 in
      if is_reliable pc
      then (marked pc1 :: rest', p', EvSend pc1 :: evs)
      else (rest', p', EvSend pc1 :: evs).
Proof.
  cbn [send_queue_loop]. fold (stamped peer pc).
  destruct (stamped_flags peer pc) as (Fr & Ft & _).
  unfold is_reliable, is_retransmitted in Fr, Ft.
  rewrite Fr, Ft. unfold is_reliable, is_retransmitted.
  destruct (has_opt RUDP_OPT_RELIABLE (header pc));
  destruct (has_opt RUDP_OPT_RETRANSMITTED (header pc)); cbn [andb];
    try reflexivity.
Qed.

Lemma peer_send_raw_frame (now : Z) (peer : rudp_peer)
    (pc : rudp_packet_chain) :
  let p' := peer_send_raw rudp_endpoint_send now peer pc in
  must_ack p' = must_ack peer /\
  in_seq_reliable p' = in_seq_reliable peer /\
  rto p' = rto peer /\ last_out_time p' = now /\
  stamped p' = stamped peer.
Proof. repeat split. Qed.

Lemma send_queue_walk_aux (now : Z) (peer : rudp_peer)
    (fresh tail : list rudp_packet_chain) :
  sendq peer = fresh ++ tail ->
  Forall (fun pc => is_retransmitted pc = false) fresh ->
  match tail with
  | [] => True
  | pc :: _ => is_reliable pc = true /\ is_retransmitted pc = true
  end ->
  let res := peer_send_queue rudp_endpoint_send now peer in
  snd res = map EvSend (map (stamped peer) (fresh ++ firstn 1 tail)) /\
  sendq (fst res) =
    map marked (filter is_reliable (map (stamped peer) fresh))
    ++ map (stamped peer) (firstn 1 tail) ++ skipn 1 tail /\
  rto (fst res) = match tail with
                  | [] => rto peer
                  | _ :: _ => Z.min (rto peer * 2) MAX_RTO
                  end /\
  (sendq peer <> [] -> last_out_time (fst res) = now).
Proof.
  intros Hq Hfresh Htail res.
  assert (G : forall (p0 : rudp_peer),
    stamped p0 = stamped peer ->
    let r := send_queue_loop rudp_endpoint_send now (fresh ++ tail) p0 in
    snd r = map EvSend (map (stamped peer) (fresh ++ firstn 1 tail)) /\
    fst (fst r) =
      map marked (filter is_reliable (map (stamped peer) fresh))
      ++ map (stamped peer) (firstn 1 tail) ++ skipn 1 tail /\
    rto (snd (fst r)) = match tail with
                        | [] => rto p0
                        | _ :: _ => Z.min (rto p0 * 2) MAX_RTO
                        end /\
    (fresh ++ tail <> [] -> last_out_time (snd (fst r)) = now) /\
    (fresh ++ tail = [] -> snd (fst r) = p0)).
  { clear Hq res. induction fresh as [|pc fresh IH]; intros p0 Hs.
    - cbn [app map filter].
      destruct tail as [|pc tail'].
      + cbn. repeat split. congruence.
      + destruct Htail as [Hr Ht].
        rewrite send_queue_loop_step, Hr, Ht, Hs.
        cbn [andb firstn skipn map app fst snd].
        repeat split; try discriminate.
        * unfold peer_rto_backoff, peer_send_raw. cbn.
          destruct (Z.gtb_spec (rto p0 * 2) MAX_RTO); cbn; lia.
        * intros _. unfold peer_rto_backoff. break_if; reflexivity.
    - inversion Hfresh as [|? ? Hpc Hrest]; subst.
      cbn [app]. rewrite send_queue_loop_step, Hpc, andb_false_r, Hs.
      cbn zeta.
      specialize (IH Hrest
                    (peer_send_raw rudp_endpoint_send now p0
                                   (stamped peer pc)) Hs).
      destruct (send_queue_loop rudp_endpoint_send now (fresh ++ tail)
                  (peer_send_raw rudp_endpoint_send now p0 (stamped peer pc)))
        as [[q' p'] sent].
      cbn [fst snd] in IH. destruct IH as (Es & Eq & Er & El & Ee).
      destruct (stamped_flags peer pc) as (Fr & _).
      cbn [map filter]. rewrite Fr.
      assert (Hl : last_out_time p' = now).
      { destruct (fresh ++ tail) eqn:Q.
        - rewrite Ee by reflexivity. reflexivity.
        - apply El. discriminate. }
      destruct (is_reliable pc); cbn [fst snd app map].
      + rewrite Es, Eq. repeat split; auto. discriminate.
      + rewrite Es, Eq. repeat split; auto. discriminate. }
  specialize (G peer eq_refl). unfold res, peer_send_queue. rewrite Hq.
  destruct (send_queue_loop rudp_endpoint_send now (fresh ++ tail) peer)
    as [[q' p'] sent].
  cbn [fst snd] in *. destruct G as (Es & Eq & Er & El & _).
  cbn [sendq set_sendq]. repeat split; auto.
Qed.

(** X2.  One walk of [peer_send_queue] over a queue that starts with
    entries never transmitted ([fresh]) followed by [tail], empty or
    headed by a reliable entry already transmitted: every fresh entry is
    sent once, in order, then the head of [tail] is sent once more and the
    walk stops there.  Fresh unreliable entries leave the queue, fresh
    reliable ones stay with RETRANSMITTED set, [tail] stays; [rto] is
    doubled, up to [MAX_RTO], exactly when a retransmission was made. *)
Theorem send_queue_walk (now : Z) (peer : rudp_peer)
    (fresh tail : list rudp_packet_chain) :
  sendq peer = fresh ++ tail ->
  Forall (fun pc => is_retransmitted pc = false) fresh ->
  match tail with
  | [] => True
  | pc :: _ => is_reliable pc = true /\ is_retransmitted pc = true
  end ->
  let res := peer_send_queue rudp_endpoint_send now peer in
  snd res = map EvSend (map (stamped peer) (fresh ++ firstn 1 tail)) /\
  sendq (fst res) =
    map marked (filter is_reliable (map (stamped peer) fresh))
    ++ map (stamped peer) (firstn 1 tail) ++ skipn 1 tail /\
  rto (fst res) = match tail with
                  | [] => rto peer
                  | _ :: _ => Z.min (rto peer * 2) MAX_RTO
                  end /\
  (sendq peer <> [] -> last_out_time (fst res) = now).
Proof. exact (send_queue_walk_aux now peer fresh tail). Qed.

End SendQueue.

(** A queue of one unreliable and one reliable entry, both new: both are
    sent, the reliable one stays, flagged. *)
Lemma send_queue_walk_witness :
  let peer :=
    set_sendq [Sample.packet 16 0 0 6 1 [1]; Sample.packet 16 1 0 7 0 [2]]
              (Sample.running 3 0 7 5) in
  sendq (fst (peer_send_queue (fun _ => 0) 1001 peer)) =
    [Sample.packet 16 5 0 7 0 [2]].
Proof.
  intros peer.
  destruct (send_queue_walk (fun _ => 0) 1001 peer
              [Sample.packet 16 0 0 6 1 [1]; Sample.packet 16 1 0 7 0 [2]] [])
    as (_ & Hq & _).
  - reflexivity.
  - repeat constructor.
  - exact I.
  - rewrite Hq. reflexivity.
Defined.

(** ** Keep-alive *)

Section KeepAlive.

Variable rudp_endpoint_send : rudp_packet_chain -> Z.

Lemma send_queue_loop_frame (now : Z) (q : list rudp_packet_chain)
    (peer : rudp_peer) :
  let p' := snd (fst (send_queue_loop rudp_endpoint_send now q peer)) in
  must_ack p' = must_ack peer /\
  in_seq_reliable p' = in_seq_reliable peer /\
  in_seq_unreliable p' = in_seq_unreliable peer /\
  out_seq_reliable p' = out_seq_reliable peer /\
  out_seq_unreliable p' = out_seq_unreliable peer /\
  out_seq_acked p' = out_seq_acked peer /\
  state p' = state peer /\
  abs_timeout_deadline p' = abs_timeout_deadline peer.
Proof.
  revert peer. induction q as [|pc rest IH]; intros peer.
  - cbn. repeat split.
  - rewrite send_queue_loop_step. cbn zeta.
    specialize (IH (peer_send_raw rudp_endpoint_send now peer
                                  (stamped peer pc))).
    destruct (send_queue_loop rudp_endpoint_send now rest
                (peer_send_raw rudp_endpoint_send now peer (stamped peer pc)))
      as [[rest' p'] evs].
    cbn [fst snd] in IH.
    destruct (is_reliable pc); destruct (is_retransmitted pc);
      cbn [andb fst snd]; try exact IH.
    unfold peer_rto_backoff. break_if; repeat split.
Qed.

Lemma peer_send_queue_frame (now : Z) (peer : rudp_peer) :
  let p' := fst (peer_send_queue rudp_endpoint_send now peer) in
  must_ack p' = must_ack peer /\
  in_seq_reliable p' = in_seq_reliable peer /\
  in_seq_unreliable p' = in_seq_unreliable peer /\
  out_seq_reliable p' = out_seq_reliable peer /\
  out_seq_unreliable p' = out_seq_unreliable peer /\
  out_seq_acked p' = out_seq_acked peer /\
  state p' = state peer /\
  abs_timeout_deadline p' = abs_timeout_deadline peer.
Proof.
  unfold peer_send_queue.
  pose proof (send_queue_loop_frame now (sendq peer) peer) as F.
  destruct (send_queue_loop rudp_endpoint_send now (sendq peer) peer)
    as [[q' p'] evs].
  exact F.
Qed.

(** X3.  Service of a peer with an empty queue, its drop deadline not yet
    passed: if the last transmission is at most [ACTION_TIMEOUT] old,
    nothing is sent or queued; if it is older, one datagram is sent, a
    reliable PING of the next reliable sequence carrying the current time,
    and it stays in the queue, flagged RETRANSMITTED, until acknowledged. *)
Theorem service_keepalive (now : Z) (peer : rudp_peer) :
  sendq peer = [] ->
  now <= abs_timeout_deadline peer ->
  let res := peer_service rudp_endpoint_send now peer in
  (now - last_out_time peer <= ACTION_TIMEOUT ->
     snd res = [] /\ sendq (fst res) = [] /\
     last_out_time (fst res) = last_out_time peer /\
     out_seq_reliable (fst res) = out_seq_reliable peer) /\
  (ACTION_TIMEOUT < now - last_out_time peer ->
     exists ping,
       snd res = [EvSend ping] /\
       command (header ping) = RUDP_CMD_PING /\
       is_reliable ping = true /\ is_retransmitted ping = false /\
       data ping = time_to_bytes now /\
       ntohs (reliable (header ping)) = uint16 (out_seq_reliable peer + 1) /\
       sendq (fst res) = [marked ping] /\
       last_out_time (fst res) = now /\
       out_seq_reliable (fst res) = uint16 (out_seq_reliable peer + 1)).
Proof.
  intros Hq Hdl res. unfold res, peer_service.
  cbn [abs_timeout_deadline set_scheduled sendq last_out_time].
  destruct (Z.ltb_spec (abs_timeout_deadline peer) now) as [|_]; [lia|].
  rewrite Hq. split.
  - intros Hidle.
    destruct (Z.gtb_spec (now - last_out_time peer) ACTION_TIMEOUT); [lia|].
    unfold peer_send_queue. cbn [sendq set_scheduled]. rewrite Hq. cbn.
    repeat split.
  - intros Hold.
    destruct (Z.gtb_spec (now - last_out_time peer) ACTION_TIMEOUT); [|lia].
    set (p1 := peer_ping now (set_scheduled false peer)).
    set (pc := mk_chain (mk_header RUDP_CMD_PING RUDP_OPT_RELIABLE 0
                           (htons (uint16 (out_seq_reliable peer + 1))) 0)
                        (time_to_bytes now)).
    assert (Hq1 : sendq p1 = [pc] ++ []).
    { unfold p1, peer_ping, rudp_peer_send_reliable. cbn. rewrite Hq.
      reflexivity. }
    pose proof (send_queue_walk_aux rudp_endpoint_send now p1 [pc] [] Hq1) as W.
    destruct W as (Es & Eq & _ & El).
    { constructor; [reflexivity|constructor]. }
    { exact I. }
    pose proof (peer_send_queue_frame now p1) as (_ & _ & _ & Fo & _).
    destruct (peer_send_queue rudp_endpoint_send now p1) as [p2 sent].
    cbn [fst snd] in *.
    destruct (stamped_flags p1 pc) as (Fr & Ft & Fd & Fc & Fs & _).
    exists (stamped p1 pc).
    change (sendq (peer_service_schedule now p2)) with (sendq p2).
    change (last_out_time (peer_service_schedule now p2))
      with (last_out_time p2).
    change (out_seq_reliable (peer_service_schedule now p2))
      with (out_seq_reliable p2).
    assert (Hne : sendq p1 <> []) by (rewrite Hq1; discriminate).
    refine (conj Es (conj Fc (conj Fr (conj Ft (conj Fd
              (conj _ (conj _ (conj (El Hne) _)))))))).
    + rewrite Fs. cbn. apply ntohs_htons. apply uint16_range.
    + rewrite Eq. cbn [map filter app firstn skipn]. rewrite Fr.
      reflexivity.
    + rewrite Fo. reflexivity.
Qed.

End KeepAlive.

(** Idle for 6000 ms with the deadline still ahead: one PING goes out. *)
Lemma service_keepalive_witness :
  exists ping,
    snd (peer_service (fun _ => 0) 7000 (Sample.running 3 0 6 6))
      = [EvSend ping] /\
    command (header ping) = RUDP_CMD_PING /\
    data ping = time_to_bytes 7000.
Proof.
  destruct (service_keepalive (fun _ => 0) 7000 (Sample.running 3 0 6 6))
    as [_ H].
  - reflexivity.
  - vm_compute. discriminate.
  - destruct H as (ping & Hs & Hc & _ & _ & Hd & _).
    + vm_compute. reflexivity.
    + exists ping. repeat split; assumption.
Defined.

(** ** Retransmission timeout *)

Lemma update_rtt_estimators_aux (peer : rudp_peer) (last_rtt : Z) :
  let p' := peer_update_rtt peer last_rtt in
  rto p' = Z.min (srtt p') MAX_RTO /\
  (0 <= srtt peer -> 0 <= last_rtt ->
     Z.min (srtt peer) last_rtt <= srtt p' <= Z.max (srtt peer) last_rtt) /\
  (0 <= rttvar peer -> 0 <= rttvar p') /\
  sendq p' = sendq peer /\ state p' = state peer.
Proof.
  unfold peer_update_rtt, set_rto, set_srtt, set_rttvar.
  cbn [rto srtt rttvar].
  assert (Hs : 0 <= srtt peer -> 0 <= last_rtt ->
               Z.min (srtt peer) last_rtt
               <= Z.quot (7 * srtt peer + last_rtt) 8
               <= Z.max (srtt peer) last_rtt).
  { intros H1 H2. rewrite Z.quot_div_nonneg by lia. split.
    - apply Z.div_le_lower_bound; lia.
    - apply Z.div_le_upper_bound; lia. }
  assert (Hv : 0 <= rttvar peer ->
               0 <= Z.quot (3 * rttvar peer + Z.abs (srtt peer - last_rtt)) 4).
  { intros H. apply Z.quot_pos; lia. }
  destruct (Z.gtb_spec (Z.quot (7 * srtt peer + last_rtt) 8) MAX_RTO);
    unfold set_rto, set_srtt, set_rttvar;
    cbn [rto srtt rttvar sendq state];
    (split; [unfold MAX_RTO in *; lia|
     split; [exact Hs|split; [exact Hv|split; reflexivity]]]).
Qed.



Lemma peer_update_rtt_rto (peer : rudp_peer) (rtt : Z) :
  rto (peer_update_rtt peer rtt) <= MAX_RTO.
Proof.
  destruct (update_rtt_estimators_aux peer rtt) as (E & _). rewrite E. lia.
Qed.

Lemma peer_rto_backoff_rto (peer : rudp_peer) :
  rto (peer_rto_backoff peer) = Z.min (rto peer * 2) MAX_RTO.
Proof.
  unfold peer_rto_backoff. cbn [rto set_rto].
  destruct (Z.gtb_spec (rto peer * 2) MAX_RTO); cbn [rto set_rto]; lia.
Qed.

Lemma incoming_ack_rto (peer : rudp_peer) (pc : rudp_packet_chain) :
  rto (snd (incoming_ack peer pc)) = rto peer.
Proof.
  unfold incoming_ack, peer_handle_ack. repeat break_if; reflexivity.
Qed.

Lemma incoming_analyse_rto (peer : rudp_peer) (pc : rudp_packet_chain) :
  rto (snd (incoming_analyse peer pc)) = rto peer.
Proof.
  unfold incoming_analyse, peer_analyse_reliable, peer_analyse_unreliable.
  repeat break_if; reflexivity.
Qed.

Lemma incoming_finish_rto (now : Z) (peer : rudp_peer)
    (pc : rudp_packet_chain) :
  rto (incoming_finish now peer pc) = rto peer.
Proof.
  unfold incoming_finish, peer_post_ack.
  destruct (has_opt RUDP_OPT_RELIABLE (header pc)); [|reflexivity].
  cbn [sendq set_must_ack]. destruct (sendq peer); reflexivity.
Qed.

Lemma incoming_dispatch_rto (now : Z) (st : packet_state) (peer : rudp_peer)
    (pc : rudp_packet_chain) :
  rto peer <= MAX_RTO ->
  match incoming_dispatch now st peer pc with
  | inl r => rto (peer_after r) <= MAX_RTO
  | inr (p3, _) => rto p3 <= MAX_RTO
  end.
Proof.
  intros H. unfold incoming_dispatch.
  destruct st.
  - repeat break_if; try exact H.
    + unfold peer_handle_ping. break_if; exact H.
    + apply peer_update_rtt_rto.
  - repeat break_if; try exact H.
    unfold peer_handle_ack. cbn. repeat break_if; exact H.
  - exact H.
Qed.

Section RtoBound.

Variable rudp_endpoint_send : rudp_packet_chain -> Z.

Lemma send_queue_loop_rto (now : Z) (q : list rudp_packet_chain)
    (peer : rudp_peer) :
  rto peer <= MAX_RTO ->
  rto (snd (fst (send_queue_loop rudp_endpoint_send now q peer))) <= MAX_RTO.
Proof.
  revert peer. induction q as [|pc rest IH]; intros peer H.
  - exact H.
  - rewrite send_queue_loop_step. cbn zeta.
    specialize (IH (peer_send_raw rudp_endpoint_send now peer
                                  (stamped peer pc)) H).
    destruct (send_queue_loop rudp_endpoint_send now rest
                (peer_send_raw rudp_endpoint_send now peer (stamped peer pc)))
      as [[rest' p'] evs].
    cbn [fst snd] in IH.
    destruct (is_reliable pc); destruct (is_retransmitted pc);
      cbn [andb fst snd]; try exact IH.
    rewrite peer_rto_backoff_rto. lia.
Qed.

(** X5.  The retransmission timeout never exceeds [MAX_RTO]: a reset sets
    it to [MAX_RTO], and an inbound packet, a service cycle and the two
    enqueue operations keep it at or under the bound. *)
Theorem rto_never_exceeds_max (now rnd : Z) (peer : rudp_peer)
    (pc : rudp_packet_chain) :
  rto (rudp_peer_reset now rnd peer) = MAX_RTO /\
  (rto peer <= MAX_RTO ->
     rto (peer_after (rudp_peer_incoming_packet now peer pc)) <= MAX_RTO /\
     rto (fst (peer_service rudp_endpoint_send now peer)) <= MAX_RTO /\
     rto (snd (rudp_peer_send_reliable now peer pc)) <= MAX_RTO /\
     rto (snd (rudp_peer_send_unreliable now peer pc)) <= MAX_RTO).
Proof.
  split; [reflexivity|]. intros H. repeat split.
  - unfold rudp_peer_incoming_packet.
    pose proof (incoming_ack_rto peer pc) as Ea.
    destruct (incoming_ack peer pc) as [broken p1]. cbn [snd] in Ea.
    break_if; [cbn; lia|].
    rewrite incoming_sequenced_eq.
    pose proof (incoming_analyse_rto p1 pc) as En.
    pose proof (incoming_dispatch_rto now (fst (incoming_analyse p1 pc))
                  (snd (incoming_analyse p1 pc)) pc) as Hd.
    destruct (incoming_dispatch now (fst (incoming_analyse p1 pc))
                (snd (incoming_analyse p1 pc)) pc) as [r|[p3 evs]].
    + apply Hd. lia.
    + cbn [peer_after]. rewrite incoming_finish_rto. apply Hd. lia.
  - unfold peer_service.
    cbn [abs_timeout_deadline set_scheduled sendq last_out_time].
    break_if; [exact H|].
    set (p1 := match sendq peer with [] => _ | _ :: _ => _ end).
    assert (H1 : rto p1 <= MAX_RTO).
    { unfold p1. destruct (sendq peer); [|exact H].
      break_if; exact H. }
    unfold peer_send_queue.
    pose proof (send_queue_loop_rto now (sendq p1) p1 H1) as L.
    destruct (send_queue_loop rudp_endpoint_send now (sendq p1) p1)
      as [[q' p'] evs].
    exact L.
  - exact H.
  - exact H.
Qed.

End RtoBound.

Lemma rto_never_exceeds_max_witness :
  rto (peer_after (rudp_peer_incoming_packet 1080 (Sample.running 3 0 6 5)
                     (Sample.packet RUDP_CMD_PONG 0 0 3 1
                                    (time_to_bytes 1000))))
    <= MAX_RTO.
Proof.
  apply (rto_never_exceeds_max (fun _ => 0) 1080 0 (Sample.running 3 0 6 5)
           (Sample.packet RUDP_CMD_PONG 0 0 3 1 (time_to_bytes 1000))).
  vm_compute. discriminate.
Defined.

(** ** More on acknowledgements *)

Lemma ack_unqueue_idempotent (ack : Z) (q : list rudp_packet_chain) :
  ack_unqueue ack (ack_unqueue ack q) = ack_unqueue ack q.
Proof.
  induction q as [|pc rest IH]; [reflexivity|].
  cbn [ack_unqueue].
  destruct (negb (has_opt RUDP_OPT_RELIABLE (header pc))
            || negb (has_opt RUDP_OPT_RETRANSMITTED (header pc))) eqn:F.
  - cbn [ack_unqueue]. rewrite F. reflexivity.
  - destruct (int16 (ntohs (reliable (header pc)) - ack) >? 0) eqn:G.
    + cbn [ack_unqueue]. rewrite F, G. reflexivity.
    + exact IH.
Qed.

Lemma int16_self (x : Z) : int16 (x - x) = 0.
Proof. rewrite Z.sub_diag. reflexivity. Qed.

(** X6.  [peer_handle_ack] never moves [out_acked] backwards (by signed
    16-bit delta), never lengthens or reorders the send queue (what is
    left is a suffix of it), touches nothing else, and handling the same
    ack a second time changes nothing more. *)
Theorem handle_ack_monotone_idempotent (peer : rudp_peer) (ack : Z) :
  let p' := snd (peer_handle_ack peer ack) in
  0 <= int16 (out_seq_acked p' - out_seq_acked peer) /\
  (exists removed, sendq peer = removed ++ sendq p') /\
  p' = set_sendq (sendq p') (set_out_seq_acked (out_seq_acked p') peer) /\
  peer_handle_ack p' ack = (fst (peer_handle_ack peer ack), p').
Proof.
  unfold peer_handle_ack.
  destruct (Z.ltb_spec (int16 (ack - out_seq_acked peer)) 0) as [Hs|Hs].
  - cbn [fst snd]. rewrite int16_self.
    destruct (Z.ltb_spec (int16 (ack - out_seq_acked peer)) 0); [|lia].
    repeat split; try lia.
    + exists []. reflexivity.
    + destruct peer; reflexivity.
  - destruct (Z.gtb_spec (int16 (ack - out_seq_reliable peer)) 0) as [Ha|Ha].
    + cbn [fst snd]. rewrite int16_self.
      destruct (Z.ltb_spec (int16 (ack - out_seq_acked peer)) 0); [lia|].
      destruct (Z.gtb_spec (int16 (ack - out_seq_reliable peer)) 0); [|lia].
      repeat split; try lia.
      * exists []. reflexivity.
      * destruct peer; reflexivity.
    + cbn [fst snd sendq out_seq_acked out_seq_reliable set_sendq
             set_out_seq_acked].
      rewrite int16_self. cbn [Z.ltb Z.compare].
      destruct (Z.gtb_spec (int16 (ack - out_seq_reliable peer)) 0); [lia|].
      rewrite ack_unqueue_idempotent.
      repeat split; try lia.
      destruct (ack_unqueue_prefix ack (sendq peer)) as (removed & E & _).
      exists removed. exact E.
Qed.

(** ** The state machine of [rudp_peer_incoming_packet] *)

Lemma peer_state_eqb_eq (a b : peer_state) :
  peer_state_eqb a b = true <-> a = b.
Proof. destruct a, b; cbn; split; congruence. Qed.

Lemma incoming_finish_frame (now : Z) (peer : rudp_peer)
    (pc : rudp_packet_chain) :
  let p' := incoming_finish now peer pc in
  state p' = state peer /\
  abs_timeout_deadline p' = abs_timeout_deadline peer /\
  out_seq_reliable p' = out_seq_reliable peer /\
  out_seq_acked p' = out_seq_acked peer.
Proof.
  unfold incoming_finish, peer_post_ack.
  destruct (has_opt RUDP_OPT_RELIABLE (header pc)); [|repeat split].
  cbn [sendq set_must_ack]. destruct (sendq peer); repeat split.
Qed.

Lemma incoming_dispatch_cases (now : Z) (st : packet_state)
    (peer : rudp_peer) (pc : rudp_packet_chain) :
  match incoming_dispatch now st peer pc with
  | inl r =>
      st = SEQUENCED /\ command (header pc) = RUDP_CMD_CLOSE /\
      ret r = 0 /\ state (peer_after r) = PEER_DEAD /\
      events r = [EvDropped]
  | inr (p3, evs) =>
      ~ (st = SEQUENCED /\ command (header pc) = RUDP_CMD_CLOSE) /\
      (state p3 = state peer \/
       (st = UNSEQUENCED /\ state peer = PEER_NEW /\
        command (header pc) = RUDP_CMD_CONN_REQ /\ state p3 = PEER_RUN) \/
       (st = UNSEQUENCED /\ state peer = PEER_CONNECTING /\
        command (header pc) = RUDP_CMD_CONN_RSP /\ state p3 = PEER_RUN)) /\
      (evs = [] \/
       (evs = [EvHandlePacket pc] /\ st = SEQUENCED /\
        state peer = PEER_RUN /\ RUDP_CMD_APP <= command (header pc)))
  end.
Proof.
  unfold incoming_dispatch. destruct st.
  - (* SEQUENCED *)
    destruct (Z.eqb_spec (command (header pc)) RUDP_CMD_CLOSE) as [E|N].
    + repeat split; auto.
    + assert (NC : ~ (SEQUENCED = SEQUENCED /\
                      command (header pc) = RUDP_CMD_CLOSE)) by tauto.
      repeat break_if; (split; [exact NC|split]);
        try (left; unfold peer_handle_ping, peer_handle_pong, peer_update_rtt;
             repeat break_if; reflexivity);
        try (left; reflexivity).
      right. repeat split.
      * apply peer_state_eqb_eq.
        match goal with
        | H : negb _ = false |- _ => apply negb_false_iff in H; exact H
        end.
      * apply Z.geb_le. assumption.
  - (* UNSEQUENCED *)
    assert (NC : ~ (UNSEQUENCED = SEQUENCED /\
                    command (header pc) = RUDP_CMD_CLOSE))
      by (intros [E _]; discriminate E).
    destruct (peer_state_eqb (state peer) PEER_NEW
              && (command (header pc) =? RUDP_CMD_CONN_REQ)) eqn:A.
    + apply andb_true_iff in A. destruct A as [A1 A2].
      apply peer_state_eqb_eq in A1. apply Z.eqb_eq in A2.
      split; [exact NC|split; [|auto]]. right. left. repeat split; auto.
    + destruct (peer_state_eqb (state peer) PEER_CONNECTING
                && (command (header pc) =? RUDP_CMD_CONN_RSP)) eqn:B.
      * apply andb_true_iff in B. destruct B as [B1 B2].
        apply peer_state_eqb_eq in B1. apply Z.eqb_eq in B2.
        split; [exact NC|split; [|auto]]. right. right. repeat split; auto.
      * split; [exact NC|split; auto].
  - (* RETRANSMITTED *)
    split; [intros [E _]; discriminate E|split; auto].
Qed.

(** X7.  What one inbound packet can do to the lifecycle and to the
    application.  The state stays as it was, or goes from NEW to RUN on a
    CONN_REQ, from CONNECTING to RUN on a CONN_RSP, or to DEAD on a CLOSE
    (with [dropped] as the only callback).  [handle_packet] is called at
    most once, with the packet itself, and only for a command of at least
    [RUDP_CMD_APP] received in state RUN.  A packet answered [EINVAL]
    leaves the peer untouched and calls nothing; nothing is ever
    transmitted from within the call. *)
Theorem incoming_packet_transitions (now : Z) (peer : rudp_peer)
    (pc : rudp_packet_chain) :
  let r := rudp_peer_incoming_packet now peer pc in
  (ret r = 0 \/ (ret r = EINVAL /\ peer_after r = peer /\ events r = [])) /\
  (state (peer_after r) = state peer \/
   (state peer = PEER_NEW /\ command (header pc) = RUDP_CMD_CONN_REQ /\
    state (peer_after r) = PEER_RUN) \/
   (state peer = PEER_CONNECTING /\ command (header pc) = RUDP_CMD_CONN_RSP /\
    state (peer_after r) = PEER_RUN) \/
   (command (header pc) = RUDP_CMD_CLOSE /\
    state (peer_after r) = PEER_DEAD /\ events r = [EvDropped])) /\
  (events r = [] \/ events r = [EvDropped] \/
   (events r = [EvHandlePacket pc] /\ state peer = PEER_RUN /\
    RUDP_CMD_APP <= command (header pc))).
Proof.
  intros r. unfold r, rudp_peer_incoming_packet.
  pose proof (incoming_ack_frame peer pc) as (_ & Sa & _).
  assert (Hbroken : fst (incoming_ack peer pc) <> 0 ->
                    snd (incoming_ack peer pc) = peer).
  { unfold incoming_ack, peer_handle_ack.
    repeat break_if; cbn; congruence. }
  destruct (incoming_ack peer pc) as [broken p1]. cbn [fst snd] in *.
  destruct (Z.eqb_spec broken 0) as [E|N]; cbn [negb].
  - rewrite incoming_sequenced_eq.
    pose proof (incoming_analyse_frame p1 pc) as (_ & Sn & _).
    pose proof (incoming_dispatch_cases now (fst (incoming_analyse p1 pc))
                  (snd (incoming_analyse p1 pc)) pc) as D.
    destruct (incoming_dispatch now (fst (incoming_analyse p1 pc))
                (snd (incoming_analyse p1 pc)) pc) as [r'|[p3 evs]].
    + destruct D as (_ & Ec & Er & Es & Ee).
      split; [left; exact Er|]. split; [|right; left; exact Ee].
      right. right. right. auto.
    + destruct D as (_ & Ds & De).
      cbn [ret peer_after events].
      pose proof (incoming_finish_frame now p3 pc) as (Sf & _).
      split; [left; reflexivity|]. split.
      * rewrite Sf. destruct Ds as [D1|[D2|D3]].
        -- left. congruence.
        -- right. left. destruct D2 as (_ & A & B & C).
           repeat split; congruence.
        -- right. right. left. destruct D3 as (_ & A & B & C).
           repeat split; congruence.
      * destruct De as [D1|D2]; [left; exact D1|].
        right. right. destruct D2 as (A & _ & B & C).
        repeat split; congruence.
  - cbn [ret peer_after events]. rewrite (Hbroken N).
    split; [right; auto|]. split; [left; reflexivity|left; reflexivity].
Qed.

(** ** Liveness deadline *)

Lemma incoming_ack_deadline (peer : rudp_peer) (pc : rudp_packet_chain) :
  abs_timeout_deadline (snd (incoming_ack peer pc))
    = abs_timeout_deadline peer.
Proof.
  unfold incoming_ack, peer_handle_ack. repeat break_if; reflexivity.
Qed.

Lemma incoming_analyse_deadline (peer : rudp_peer) (pc : rudp_packet_chain) :
  abs_timeout_deadline (snd (incoming_analyse peer pc))
    = abs_timeout_deadline peer.
Proof.
  unfold incoming_analyse, peer_analyse_reliable, peer_analyse_unreliable.
  repeat break_if; reflexivity.
Qed.

Lemma incoming_dispatch_deadline (now : Z) (st : packet_state)
    (peer : rudp_peer) (pc : rudp_packet_chain) :
  let d := match st with
           | UNSEQUENCED => abs_timeout_deadline peer
           | _ => now + DROP_TIMEOUT
           end in
  match incoming_dispatch now st peer pc with
  | inl r => abs_timeout_deadline (peer_after r) = d
  | inr (p3, _) => abs_timeout_deadline p3 = d
  end.
Proof.
  unfold incoming_dispatch. destruct st.
  - repeat break_if; try reflexivity.
    + unfold peer_handle_ping. break_if; reflexivity.
    + unfold peer_handle_pong, peer_update_rtt. break_if; reflexivity.
  - repeat break_if; try reflexivity.
    unfold peer_handle_ack. cbn. repeat break_if; reflexivity.
  - reflexivity.
Qed.

(** X8.  A packet that is not rejected refreshes the drop deadline to
    [now + DROP_TIMEOUT] exactly when it is classified SEQUENCED or
    RETRANSMITTED; an UNSEQUENCED packet, the handshake packets included,
    leaves the deadline where it was. *)
Theorem deadline_refresh (now : Z) (peer : rudp_peer)
    (pc : rudp_packet_chain) :
  fst (incoming_ack peer pc) = 0 ->
  let st := fst (incoming_analyse (snd (incoming_ack peer pc)) pc) in
  let r := rudp_peer_incoming_packet now peer pc in
  abs_timeout_deadline (peer_after r) =
    match st with
    | UNSEQUENCED => abs_timeout_deadline peer
    | _ => now + DROP_TIMEOUT
    end.
Proof.
  intros Hok st r. unfold r.
  rewrite (incoming_packet_accepted now peer pc Hok).
  rewrite incoming_sequenced_eq. fold st.
  pose proof (incoming_dispatch_deadline now st
                (snd (incoming_analyse (snd (incoming_ack peer pc)) pc)) pc)
    as D.
  cbn zeta in D.
  rewrite incoming_analyse_deadline, incoming_ack_deadline in D.
  destruct (incoming_dispatch now st
              (snd (incoming_analyse (snd (incoming_ack peer pc)) pc)) pc)
    as [r'|[p3 evs]].
  - exact D.
  - cbn [peer_after].
    pose proof (incoming_finish_frame now p3 pc) as (_ & Fd & _).
    rewrite Fd. exact D.
Qed.

(** The CONN_REQ that opens a server-side peer is UNSEQUENCED: the peer
    created at 1000 still has its deadline at 11000 after taking it at
    3000. *)
Lemma deadline_refresh_witness :
  abs_timeout_deadline
    (peer_after (rudp_peer_incoming_packet 3000
                   (rudp_peer_from_sockaddr 1000 7 Sample.addr1)
                   (Sample.packet RUDP_CMD_CONN_REQ RUDP_OPT_RELIABLE 0 8 0
                                  [0; 0; 0; 0])))
  = 11000.
Proof.
  rewrite (deadline_refresh 3000
             (rudp_peer_from_sockaddr 1000 7 Sample.addr1)
             (Sample.packet RUDP_CMD_CONN_REQ RUDP_OPT_RELIABLE 0 8 0
                            [0; 0; 0; 0]) eq_refl).
  reflexivity.
Defined.

(** ** Duplicates *)

Lemma incoming_ack_out_seq (peer : rudp_peer) (pc : rudp_packet_chain) :
  out_seq_reliable (snd (incoming_ack peer pc)) = out_seq_reliable peer.
Proof. apply (incoming_ack_frame peer pc). Qed.

(** X9.  Once a reliable packet of sequence [s] has been taken in
    sequence, every later reliable packet of that sequence that is not
    rejected is acknowledged but not delivered: no callback is made,
    [must_ack] is set, [in_rel] stays [s], the state stays, and zero is
    returned. *)
Theorem duplicate_acked_not_delivered (now now' : Z) (peer : rudp_peer)
    (pc pc' : rudp_packet_chain) :
  has_opt RUDP_OPT_RELIABLE (header pc) = true ->
  fst (incoming_ack peer pc) = 0 ->
  ntohs (reliable (header pc)) <> in_seq_reliable peer ->
  ntohs (reliable (header pc)) = uint16 (in_seq_reliable peer + 1) ->
  let p1 := peer_after (rudp_peer_incoming_packet now peer pc) in
  has_opt RUDP_OPT_RELIABLE (header pc') = true ->
  ntohs (reliable (header pc')) = ntohs (reliable (header pc)) ->
  fst (incoming_ack p1 pc') = 0 ->
  let r := rudp_peer_incoming_packet now' p1 pc' in
  in_seq_reliable p1 = ntohs (reliable (header pc)) /\
  ret r = 0 /\ events r = [] /\
  must_ack (peer_after r) = true /\
  in_seq_reliable (peer_after r) = ntohs (reliable (header pc)) /\
  state (peer_after r) = state p1.
Proof.
  intros Hrel Hok Hne Hs p1 Hrel' Hs' Hok' r.
  set (s := ntohs (reliable (header pc))) in *.
  assert (Hin1 : in_seq_reliable p1 = s).
  { unfold p1. rewrite (incoming_packet_accepted now peer pc Hok).
    destruct (incoming_ack_in_seq peer pc) as [Ein _].
    set (pa := snd (incoming_ack peer pc)) in *.
    assert (Ea : incoming_analyse pa pc =
                 (SEQUENCED,
                  set_in_seq_unreliable 0 (set_in_seq_reliable s pa))).
    { unfold incoming_analyse, peer_analyse_reliable.
      rewrite Hrel, Ein. fold s.
      destruct (Z.eqb_spec (in_seq_reliable peer) s); [congruence|].
      rewrite <- Hs, Z.eqb_refl. reflexivity. }
    destruct (incoming_sequenced_in_seq now pa pc) as [E1 _].
    - rewrite Ea. reflexivity.
    - rewrite E1, Ea. reflexivity. }
  split; [exact Hin1|].
  unfold r. rewrite (incoming_packet_accepted now' p1 pc' Hok').
  rewrite incoming_sequenced_eq.
  destruct (incoming_ack_in_seq p1 pc') as [Ein' _].
  pose proof (incoming_ack_frame p1 pc') as (_ & Sa & _).
  set (pa := snd (incoming_ack p1 pc')) in *.
  assert (Ea : incoming_analyse pa pc' = (RETRANSMITTED, pa)).
  { unfold incoming_analyse, peer_analyse_reliable.
    rewrite Hrel', Ein', Hin1, Hs', Z.eqb_refl. reflexivity. }
  rewrite Ea. cbn [fst snd incoming_dispatch ret events peer_after].
  destruct (incoming_finish_in_seq now'
              (set_abs_timeout_deadline (now' + DROP_TIMEOUT) pa) pc')
    as (Ei & _).
  pose proof (incoming_finish_frame now'
                (set_abs_timeout_deadline (now' + DROP_TIMEOUT) pa) pc')
    as (Sf & _).
  repeat split.
  - destruct (incoming_finish_spec now'
                (set_abs_timeout_deadline (now' + DROP_TIMEOUT) pa) pc')
      as (_ & _ & Hm').
    apply Hm'. exact Hrel'.
  - rewrite Ei. cbn. congruence.
  - rewrite Sf. cbn. exact Sa.
Qed.

(** Sequence 4 is delivered to a peer at [in_rel = 3]; its copy flagged
    RETRANSMITTED raises no callback. *)
Lemma duplicate_acked_not_delivered_witness :
  events (rudp_peer_incoming_packet 1300
            (peer_after (rudp_peer_incoming_packet 1000
                           (Sample.running 3 0 6 5)
                           (Sample.packet 16 1 0 4 0 [104; 105])))
            (Sample.packet 16 5 0 4 0 [104; 105])) = [].
Proof.
  apply (duplicate_acked_not_delivered 1000 1300 (Sample.running 3 0 6 5)
           (Sample.packet 16 1 0 4 0 [104; 105])
           (Sample.packet 16 5 0 4 0 [104; 105]));
    try reflexivity.
  vm_compute. discriminate.
Defined.

(** ** The server side of the handshake *)

Lemma incoming_ack_empty_queue (peer : rudp_peer) (pc : rudp_packet_chain) :
  sendq peer = [] -> sendq (snd (incoming_ack peer pc)) = [].
Proof.
  intros Q. unfold incoming_ack, peer_handle_ack.
  destruct (has_opt RUDP_OPT_ACK (header pc)); [|exact Q].
  destruct (_ <? 0); [exact Q|].
  destruct (_ >? 0); [exact Q|].
  cbn [snd sendq set_sendq set_out_seq_acked]. rewrite Q. reflexivity.
Qed.

Lemma incoming_dispatch_conn_req_new (now : Z) (peer : rudp_peer)
    (pc : rudp_packet_chain) :
  state peer = PEER_NEW ->
  command (header pc) = RUDP_CMD_CONN_REQ ->
  incoming_dispatch now UNSEQUENCED peer pc =
    inr (set_state PEER_RUN
           (set_in_seq_reliable (ntohs (reliable (header pc)))
              (peer_handle_connreq now peer)), []).
Proof.
  intros S C. unfold incoming_dispatch. rewrite S, C. reflexivity.
Qed.

Lemma incoming_dispatch_conn_req_sequenced (now : Z) (peer : rudp_peer)
    (pc : rudp_packet_chain) :
  command (header pc) = RUDP_CMD_CONN_REQ ->
  incoming_dispatch now SEQUENCED peer pc =
    inr (set_abs_timeout_deadline (now + DROP_TIMEOUT) peer, []).
Proof.
  intros C. unfold incoming_dispatch. rewrite C. reflexivity.
Qed.

(** X10.  A peer just built for a new address takes a reliable CONN_REQ
    of sequence [n] (its ACK stage passed).  Unless [n] is 0xFFFF or 0 the
    packet is UNSEQUENCED and the handshake runs: the peer queues exactly
    one packet, an unreliable CONN_RSP with [accepted = 1], adopts
    [in_rel = n], posts the ack and enters RUN.  For [n = 0xFFFF]
    (RETRANSMITTED against the initial [in_rel]) and [n = 0] (SEQUENCED)
    no handshake runs: the peer stays NEW and queues only a NOOP. *)
Theorem conn_req_on_fresh_peer (now rnd : Z) (addr : sockaddr)
    (pc : rudp_packet_chain) :
  command (header pc) = RUDP_CMD_CONN_REQ ->
  has_opt RUDP_OPT_RELIABLE (header pc) = true ->
  let p0 := rudp_peer_from_sockaddr now rnd addr in
  fst (incoming_ack p0 pc) = 0 ->
  let n := ntohs (reliable (header pc)) in
  let r := rudp_peer_incoming_packet now p0 pc in
  ret r = 0 /\ must_ack (peer_after r) = true /\
  (n <> 65535 -> n <> 0 ->
     state (peer_after r) = PEER_RUN /\
     in_seq_reliable (peer_after r) = n /\
     exists rsp,
       sendq (peer_after r) = [rsp] /\
       command (header rsp) = RUDP_CMD_CONN_RSP /\
       is_reliable rsp = false /\ data rsp = [0; 0; 0; 1] /\
       ntohs (reliable (header rsp)) = uint16 rnd) /\
  (n = 65535 \/ n = 0 ->
     state (peer_after r) = PEER_NEW /\
     exists noop,
       sendq (peer_after r) = [noop] /\
       command (header noop) = RUDP_CMD_NOOP).
Proof.
  intros Hcmd Hrel p0 Hok n r. unfold r.
  rewrite (incoming_packet_accepted now p0 pc Hok).
  set (pa := snd (incoming_ack p0 pc)) in *.
  assert (Fa : in_seq_reliable pa = 65535 /\ state pa = PEER_NEW /\
               sendq pa = [] /\ out_seq_reliable pa = uint16 rnd /\
               out_seq_unreliable pa = 0).
  { destruct (incoming_ack_in_seq p0 pc) as (A1 & _).
    destruct (incoming_ack_frame p0 pc) as (_ & A2 & A3 & A4).
    pose proof (incoming_ack_empty_queue p0 pc eq_refl) as A5.
    fold pa in A1, A2, A3, A4, A5.
    rewrite A1, A2, A3, A4, A5. repeat split. }
  destruct Fa as (Fi & Fs & Fq & Fo & Fu).
  rewrite incoming_sequenced_eq.
  unfold incoming_analyse, peer_analyse_reliable. rewrite Hrel, Fi. fold n.
  change (uint16 (65535 + 1)) with 0.
  destruct (Z.eqb_spec 65535 n) as [E1|N1].
  - (* RETRANSMITTED *)
    cbn [fst snd incoming_dispatch ret peer_after].
    destruct (incoming_finish_spec now
                (set_abs_timeout_deadline (now + DROP_TIMEOUT) pa) pc)
      as (_ & _ & Hm).
    destruct (Hm Hrel) as (Hm1 & Hm2).
    pose proof (incoming_finish_frame now
                  (set_abs_timeout_deadline (now + DROP_TIMEOUT) pa) pc)
      as (Sf & _).
    split; [reflexivity|]. split; [exact Hm1|]. split; [intros; lia|].
    intros _. split; [rewrite Sf; exact Fs|].
    destruct (Hm2 Fq) as (noop & Q & C & _). exists noop. auto.
  - destruct (Z.eqb_spec 0 n) as [E2|N2]; cbn [negb].
    + (* SEQUENCED *)
      cbn [fst snd].
      rewrite incoming_dispatch_conn_req_sequenced by exact Hcmd.
      cbn [ret peer_after].
      set (p2 := set_abs_timeout_deadline (now + DROP_TIMEOUT)
                   (set_in_seq_unreliable 0 (set_in_seq_reliable n pa))).
      destruct (incoming_finish_spec now p2 pc) as (_ & _ & Hm).
      destruct (Hm Hrel) as (Hm1 & Hm2).
      pose proof (incoming_finish_frame now p2 pc) as (Sf & _).
      split; [reflexivity|]. split; [exact Hm1|]. split; [intros; lia|].
      intros _. split; [rewrite Sf; exact Fs|].
      destruct (Hm2 Fq) as (noop & Q & C & _). exists noop. auto.
    + (* UNSEQUENCED *)
      cbn [fst snd].
      rewrite incoming_dispatch_conn_req_new by assumption.
      cbn [ret peer_after]. fold n.
      set (p2 := set_state PEER_RUN
                   (set_in_seq_reliable n (peer_handle_connreq now pa))).
      assert (Q2 : exists rsp,
                sendq p2 = [rsp] /\
                command (header rsp) = RUDP_CMD_CONN_RSP /\
                is_reliable rsp = false /\ data rsp = [0; 0; 0; 1] /\
                ntohs (reliable (header rsp)) = uint16 rnd).
      { eexists. unfold p2, peer_handle_connreq, rudp_peer_send_unreliable.
        cbn [sendq set_state set_in_seq_reliable peer_service_schedule
             set_scheduled set_service_timeout set_sendq snd
             set_out_seq_unreliable].
        rewrite Fq. split; [reflexivity|].
        cbn [header data command with_header set_unreliable set_reliable
             set_opt set_command app hd].
        repeat split.
        cbn [out_seq_reliable set_out_seq_unreliable reliable].
        rewrite Fo. apply ntohs_htons. apply uint16_range. }
      destruct Q2 as (rsp & Q & C & R & D & S).
      destruct (incoming_finish_spec now p2 pc) as (Hne & _ & Hm).
      destruct (Hm Hrel) as (Hm1 & _).
      pose proof (incoming_finish_frame now p2 pc) as (Sf & _).
      destruct (incoming_finish_in_seq now p2 pc) as (Si & _).
      split; [reflexivity|]. split; [exact Hm1|]. split.
      * intros _ _. split; [rewrite Sf; reflexivity|].
        split; [rewrite Si; reflexivity|].
        exists rsp. rewrite Hne by (rewrite Q; discriminate). auto.
      * intros [E|E]; congruence.
Qed.

Lemma conn_req_on_fresh_peer_witness :
  state (peer_after (rudp_peer_incoming_packet 1000
                       (rudp_peer_from_sockaddr 1000 7 Sample.addr1)
                       (Sample.packet RUDP_CMD_CONN_REQ RUDP_OPT_RELIABLE
                                      0 0 0 [0; 0; 0; 0])))
    = PEER_NEW.
Proof.
  apply (conn_req_on_fresh_peer 1000 7 Sample.addr1
           (Sample.packet RUDP_CMD_CONN_REQ RUDP_OPT_RELIABLE 0 0 0
                          [0; 0; 0; 0]) eq_refl eq_refl eq_refl).
  right. reflexivity.
Defined.

(** ** Delivery of an application message, end to end *)

Lemma uint16_succ_neq (x : Z) : 0 <= x < 65536 -> uint16 (x + 1) <> x.
Proof.
  intros H E. unfold uint16 in E.
  destruct (Z.eq_dec x 65535) as [->|N].
  - vm_compute in E. discriminate E.
  - rewrite Z.mod_small in E by lia. lia.
Qed.

Lemma peer_handle_ack_not_past (peer : rudp_peer) (ack : Z) :
  int16 (ack - out_seq_reliable peer) <= 0 ->
  fst (peer_handle_ack peer ack) = 0.
Proof.
  intros H. unfold peer_handle_ack.
  destruct (_ <? 0); [reflexivity|].
  destruct (Z.gtb_spec (int16 (ack - out_seq_reliable peer)) 0); [lia|].
  reflexivity.
Qed.

Lemma incoming_dispatch_app (now : Z) (peer : rudp_peer)
    (pc : rudp_packet_chain) :
  RUDP_CMD_APP <= command (header pc) ->
  state peer = PEER_RUN ->
  incoming_dispatch now SEQUENCED peer pc =
    inr (set_abs_timeout_deadline (now + DROP_TIMEOUT) peer,
         [EvHandlePacket pc]).
Proof.
  intros C S. unfold incoming_dispatch, RUDP_CMD_APP in *.
  destruct (Z.eqb_spec (command (header pc)) RUDP_CMD_CLOSE) as [E|_];
    [unfold RUDP_CMD_CLOSE in E; lia|].
  destruct (Z.eqb_spec (command (header pc)) RUDP_CMD_PING) as [E|_];
    [unfold RUDP_CMD_PING in E; lia|].
  destruct (Z.eqb_spec (command (header pc)) RUDP_CMD_PONG) as [E|_];
    [unfold RUDP_CMD_PONG in E; lia|].
  destruct (Z.eqb_spec (command (header pc)) RUDP_CMD_NOOP) as [E|_];
    [unfold RUDP_CMD_NOOP in E; lia|].
  destruct (Z.eqb_spec (command (header pc)) RUDP_CMD_CONN_REQ) as [E|_];
    [unfold RUDP_CMD_CONN_REQ in E; lia|].
  destruct (Z.eqb_spec (command (header pc)) RUDP_CMD_CONN_RSP) as [E|_];
    [unfold RUDP_CMD_CONN_RSP in E; lia|].
  cbn [orb state set_abs_timeout_deadline]. rewrite S. cbn [peer_state_eqb negb].
  destruct (Z.geb_spec (command (header pc)) 16); [reflexivity|lia].
Qed.

Section Delivery.

Variable rudp_endpoint_send : rudp_packet_chain -> Z.

(** The datagram of an application message sent reliably by a peer whose
    queue is empty, as its next service cycle transmits it. *)
Lemma app_message_first_transmission (t0 t1 : Z) (s : rudp_peer)
    (cmd : Z) (payload : list Z) :
  sendq s = [] ->
  t1 <= abs_timeout_deadline s ->
  0 <= cmd <= 255 - RUDP_CMD_APP ->
  let s1 := snd (rudp_server_send t0 true s 1 cmd payload) in
  let res := peer_service rudp_endpoint_send t1 s1 in
  fst (rudp_server_send t0 true s 1 cmd payload) = sendto_err s /\
  exists d,
    snd res = [EvSend d] /\
    sendq (fst res) = [marked d] /\
    d = stamped s (mk_chain (mk_header (RUDP_CMD_APP + cmd)
                               RUDP_OPT_RELIABLE 0
                               (htons (uint16 (out_seq_reliable s + 1))) 0)
                            payload) /\
    out_seq_reliable (fst res) = uint16 (out_seq_reliable s + 1) /\
    out_seq_acked (fst res) = out_seq_acked s.
Proof.
  intros Hq Hd Hc s1 res.
  set (pc := mk_chain (mk_header (RUDP_CMD_APP + cmd) RUDP_OPT_RELIABLE 0
                         (htons (uint16 (out_seq_reliable s + 1))) 0)
                      payload).
  assert (Es1 : rudp_server_send t0 true s 1 cmd payload =
                (sendto_err s,
                 peer_service_schedule t0
                   (set_sendq [pc]
                      (set_out_seq_unreliable 0
                         (set_out_seq_reliable
                            (uint16 (out_seq_reliable s + 1)) s))))).
  { unfold rudp_server_send, app_packet_send, RUDP_CMD_APP in *.
    destruct (Z.gtb_spec (cmd + 16) 255); [lia|].
    cbn [negb Z.eqb]. unfold rudp_peer_send_reliable.
    cbn [sendq set_out_seq_reliable set_out_seq_unreliable]. rewrite Hq.
    unfold pc, uint8, with_header, RUDP_CMD_APP.
    rewrite Z.mod_small by lia. reflexivity. }
  unfold s1 in *. unfold res. rewrite Es1. cbn [fst snd].
  split; [reflexivity|].
  set (s1' := peer_service_schedule t0 _).
  unfold peer_service.
  change (abs_timeout_deadline (set_scheduled false s1'))
    with (abs_timeout_deadline s).
  destruct (Z.ltb_spec (abs_timeout_deadline s) t1); [lia|].
  change (sendq (set_scheduled false s1')) with [pc].
  pose proof (send_queue_walk_aux rudp_endpoint_send t1 (set_scheduled false s1')
                [pc] [] eq_refl) as W.
  destruct W as (Es & Eq & _ & _).
  { constructor; [reflexivity|constructor]. }
  { exact I. }
  pose proof (peer_send_queue_frame rudp_endpoint_send t1
                (set_scheduled false s1')) as (_ & _ & _ & Fo & _ & Fa & _).
  destruct (peer_send_queue rudp_endpoint_send t1 (set_scheduled false s1'))
    as [p2 sent].
  cbn [fst snd] in *.
  change (stamped (set_scheduled false s1')) with (stamped s) in *.
  exists (stamped s pc).
  split; [exact Es|]. split; [|split; [reflexivity|split]].
  - change (sendq (peer_service_schedule t1 p2)) with (sendq p2).
    rewrite Eq. cbn [map filter app firstn skipn].
    destruct (stamped_flags s pc) as (Fr & _). rewrite Fr. reflexivity.
  - change (out_seq_reliable (peer_service_schedule t1 p2))
      with (out_seq_reliable p2). rewrite Fo. reflexivity.
  - change (out_seq_acked (peer_service_schedule t1 p2))
      with (out_seq_acked p2). rewrite Fa. reflexivity.
Qed.


Lemma sequenced_app_packet (now : Z) (peer : rudp_peer)
    (pc : rudp_packet_chain) :
  state peer = PEER_RUN ->
  has_opt RUDP_OPT_RELIABLE (header pc) = true ->
  RUDP_CMD_APP <= command (header pc) ->
  fst (incoming_ack peer pc) = 0 ->
  0 <= in_seq_reliable peer < 65536 ->
  ntohs (reliable (header pc)) = uint16 (in_seq_reliable peer + 1) ->
  let r := rudp_peer_incoming_packet now peer pc in
  ret r = 0 /\ events r = [EvHandlePacket pc] /\
  must_ack (peer_after r) = true /\
  in_seq_reliable (peer_after r) = uint16 (in_seq_reliable peer + 1) /\
  state (peer_after r) = PEER_RUN.
Proof.
  intros Hs Hrel Hc Hok Hr Hn r. unfold r.
  rewrite (incoming_packet_accepted now peer pc Hok).
  rewrite incoming_sequenced_eq.
  destruct (incoming_ack_in_seq peer pc) as [Ein _].
  pose proof (incoming_ack_frame peer pc) as (_ & Sa & _).
  set (pa := snd (incoming_ack peer pc)) in *.
  assert (Ea : incoming_analyse pa pc =
               (SEQUENCED,
                set_in_seq_unreliable 0
                  (set_in_seq_reliable (uint16 (in_seq_reliable peer + 1))
                     pa))).
  { unfold incoming_analyse, peer_analyse_reliable.
    rewrite Hrel, Ein, Hn.
    destruct (Z.eqb_spec (in_seq_reliable peer)
                (uint16 (in_seq_reliable peer + 1))) as [E|_].
    - exfalso. apply (uint16_succ_neq (in_seq_reliable peer) Hr).
      symmetry. exact E.
    - rewrite Z.eqb_refl. reflexivity. }
  rewrite Ea. cbn [fst snd].
  rewrite incoming_dispatch_app by (auto; cbn; congruence).
  cbn [ret events peer_after].
  set (p2 := set_abs_timeout_deadline _ _).
  destruct (incoming_finish_spec now p2 pc) as (_ & _ & Hm).
  destruct (incoming_finish_in_seq now p2 pc) as (Si & _).
  pose proof (incoming_finish_frame now p2 pc) as (Sf & _).
  repeat split.
  - apply Hm. exact Hrel.
  - rewrite Si. reflexivity.
  - rewrite Sf. cbn. congruence.
Qed.

(** X11.  An application message sent reliably by a peer whose queue is
    empty reaches the application of a connected client that is in step
    with it.  The call returns the error of the previous transmission;
    the next service cycle (before the drop deadline) transmits exactly
    one datagram; the client, on receiving it, calls [handle_packet] once
    with the sender's command number and payload, does not call
    [connected], adopts the new sequence and owes an ack. *)
Theorem reliable_message_delivered (t0 t1 t2 rnd : Z) (s : rudp_peer)
    (client : rudp_client) (cmd : Z) (payload : list Z) :
  sendq s = [] ->
  t1 <= abs_timeout_deadline s ->
  0 <= cmd <= 255 - RUDP_CMD_APP ->
  0 <= out_seq_reliable s < 65536 ->
  0 <= in_seq_reliable s < 65536 ->
  state (peer client) = PEER_RUN ->
  connected client = 1 ->
  in_seq_reliable (peer client) = out_seq_reliable s ->
  int16 (in_seq_reliable s - out_seq_reliable (peer client)) <= 0 ->
  let s1 := snd (rudp_server_send t0 true s 1 cmd payload) in
  exists d,
    snd (peer_service rudp_endpoint_send t1 s1) = [EvSend d] /\
    let res := client_handle_endpoint_packet t2 rnd client d in
    snd res = [ClHandlePacket cmd payload (Z.of_nat (length payload))] /\
    connected (fst res) = 1 /\
    state (peer (fst res)) = PEER_RUN /\
    must_ack (peer (fst res)) = true /\
    in_seq_reliable (peer (fst res)) = uint16 (out_seq_reliable s + 1).
Proof.
  intros Hq Hd Hc Ho Hi Hs Hcon Hsync Hack s1.
  destruct (app_message_first_transmission t0 t1 s cmd payload Hq Hd Hc)
    as (_ & d & Es & _ & Ed & _).
  exists d. split; [exact Es|].
  set (pc := mk_chain (mk_header (RUDP_CMD_APP + cmd) RUDP_OPT_RELIABLE 0
                         (htons (uint16 (out_seq_reliable s + 1))) 0)
                      payload) in *.
  destruct (stamped_flags s pc) as (Fr & _ & Fd & Fc & Fs & _).
  rewrite <- Ed in Fr, Fd, Fc, Fs.
  assert (Hok : fst (incoming_ack (peer client) d) = 0).
  { unfold incoming_ack.
    destruct (has_opt RUDP_OPT_ACK (header d)) eqn:A; [|reflexivity].
    apply peer_handle_ack_not_past.
    assert (M : must_ack s = true).
    { destruct (must_ack s) eqn:M; [reflexivity|].
      rewrite Ed in A. unfold stamped in A. rewrite M in A.
      cbn in A. discriminate A. }
    destruct (stamped_ack s pc M) as (_ & Ea). rewrite <- Ed in Ea.
    rewrite Ea, ntohs_htons by exact Hi. exact Hack. }
  assert (Hseq : let r := rudp_peer_incoming_packet t2 (peer client) d in
                 ret r = 0 /\ events r = [EvHandlePacket d] /\
                 must_ack (peer_after r) = true /\
                 in_seq_reliable (peer_after r)
                   = uint16 (in_seq_reliable (peer client) + 1) /\
                 state (peer_after r) = PEER_RUN).
  { apply sequenced_app_packet; auto.
    - rewrite Fc. cbn [command header pc]. unfold RUDP_CMD_APP in *. lia.
    - rewrite Hsync. exact Ho.
    - rewrite Fs. cbn [reliable header pc]. rewrite Hsync.
      apply ntohs_htons. apply uint16_range. }
  cbn zeta in Hseq. destruct Hseq as (Hr & He & Hm & Hn & Hst).
  unfold client_handle_endpoint_packet.
  rewrite He, Hr. cbn [client_peer_handler app].
  cbn [peer connected set_peer Z.eqb andb fst snd].
  rewrite Hcon. cbn [Z.eqb andb fst snd peer connected set_peer].
  unfold client_handle_data_packet, len, sizeof_header.
  rewrite Fc, Fd. cbn [command header data pc].
  split; [|split; [exact Hcon|split; [exact Hst|split; [exact Hm|]]]].
  - do 2 f_equal; lia.
  - rewrite Hn, Hsync. reflexivity.
Qed.

End Delivery.

(** The server peer of the handshake example sends "hi" as command 3. *)
Lemma reliable_message_delivered_witness :
  exists d,
    snd (peer_service (fun _ => 0) 1100
           (snd (rudp_server_send 1050 true (Sample.running 8 0 100 100)
                                  1 3 [104; 105])))
      = [EvSend d] /\
    snd (client_handle_endpoint_packet 1140 0 Sample.connected_client d)
      = [ClHandlePacket 3 [104; 105] 2].
Proof.
  destruct (reliable_message_delivered (fun _ => 0) 1050 1100 1140 0
              (Sample.running 8 0 100 100) Sample.connected_client
              3 [104; 105]) as (d & Hs & Hr & _).
  - reflexivity.
  - vm_compute. discriminate.
  - vm_compute. split; discriminate.
  - vm_compute. split; [discriminate|reflexivity].
  - vm_compute. split; [discriminate|reflexivity].
  - vm_compute. reflexivity.
  - vm_compute. reflexivity.
  - vm_compute. reflexivity.
  - vm_compute. discriminate.
  - exists d. split; assumption.
Defined.

(** ** Acknowledgements on the wire *)

Lemma incoming_packet_must_ack (now : Z) (peer : rudp_peer)
    (pc : rudp_packet_chain) :
  must_ack peer = true ->
  must_ack (peer_after (rudp_peer_incoming_packet now peer pc)) = true.
Proof.
  intros M. unfold rudp_peer_incoming_packet.
  pose proof (incoming_ack_frame peer pc) as (Ma & _).
  destruct (incoming_ack peer pc) as [broken p1]. cbn [snd] in Ma.
  break_if; [cbn; congruence|].
  rewrite incoming_sequenced_eq.
  pose proof (incoming_analyse_frame p1 pc) as (Mn & _).
  set (p2 := snd (incoming_analyse p1 pc)) in *.
  assert (M2 : must_ack p2 = true) by congruence.
  assert (D : match incoming_dispatch now (fst (incoming_analyse p1 pc)) p2 pc
              with
              | inl r => must_ack (peer_after r) = true
              | inr (p3, _) => must_ack p3 = true
              end).
  { unfold incoming_dispatch.
    destruct (fst (incoming_analyse p1 pc)).
    - repeat break_if; try exact M2.
      + unfold peer_handle_ping. break_if; exact M2.
      + unfold peer_handle_pong, peer_update_rtt. break_if; exact M2.
    - repeat break_if; try exact M2.
      unfold peer_handle_ack. cbn. repeat break_if; exact M2.
    - exact M2. }
  destruct (incoming_dispatch now (fst (incoming_analyse p1 pc)) p2 pc)
    as [r|[p3 evs]]; [exact D|].
  cbn [peer_after]. unfold incoming_finish.
  destruct (has_opt RUDP_OPT_RELIABLE (header pc)).
  - apply (peer_post_ack_spec now p3).
  - exact D.
Qed.

Section AckOnWire.

Variable rudp_endpoint_send : rudp_packet_chain -> Z.

Lemma send_queue_loop_events (now : Z) (q : list rudp_packet_chain)
    (peer : rudp_peer) :
  Forall (fun e => exists x, In x q /\ e = EvSend (stamped peer x))
         (snd (send_queue_loop rudp_endpoint_send now q peer)).
Proof.
  assert (G : forall p0, stamped p0 = stamped peer ->
    Forall (fun e => exists x, In x q /\ e = EvSend (stamped peer x))
           (snd (send_queue_loop rudp_endpoint_send now q p0))).
  { induction q as [|pc rest IH]; intros p0 Hs.
    - constructor.
    - rewrite send_queue_loop_step, Hs. cbn zeta.
      assert (IH' : Forall
                (fun e => exists x, In x (pc :: rest) /\
                                    e = EvSend (stamped peer x))
                (snd (send_queue_loop rudp_endpoint_send now rest
                        (peer_send_raw rudp_endpoint_send now p0
                                       (stamped peer pc))))).
      { eapply Forall_impl; [|apply IH; exact Hs].
        intros e (x & Hin & He). exists x. split; [right; exact Hin|exact He]. }
      destruct (send_queue_loop rudp_endpoint_send now rest
                  (peer_send_raw rudp_endpoint_send now p0 (stamped peer pc)))
        as [[rest' p'] evs].
      cbn [snd] in IH'.
      assert (H0 : exists x, In x (pc :: rest) /\
                             EvSend (stamped peer pc) = EvSend (stamped peer x)).
      { exists pc. split; [left; reflexivity|reflexivity]. }
      destruct (is_reliable pc); destruct (is_retransmitted pc);
        cbn [andb snd]; constructor; auto. }
  apply G. reflexivity.
Qed.

Lemma acks_piggybacked_aux (now : Z) (peer : rudp_peer)
    (pc : rudp_packet_chain) :
  must_ack peer = true ->
  0 <= in_seq_reliable peer < 65536 ->
  must_ack (peer_after (rudp_peer_incoming_packet now peer pc)) = true /\
  must_ack (fst (peer_service rudp_endpoint_send now peer)) = true /\
  (forall d, In (EvSend d) (snd (peer_service rudp_endpoint_send now peer)) ->
     has_opt RUDP_OPT_ACK (header d) = true /\
     ntohs (reliable_ack (header d)) = in_seq_reliable peer).
Proof.
  intros M Hi. split; [apply incoming_packet_must_ack; exact M|].
  unfold peer_service.
  cbn [abs_timeout_deadline set_scheduled sendq last_out_time].
  break_if.
  - split; [exact M|]. intros d [E|[]]. discriminate E.
  - set (p1 := match sendq peer with [] => _ | _ :: _ => _ end).
    assert (H1 : must_ack p1 = true /\ in_seq_reliable p1 = in_seq_reliable peer).
    { unfold p1. destruct (sendq peer); [|split; [exact M|reflexivity]].
      break_if; split; try exact M; reflexivity. }
    destruct H1 as (M1 & I1).
    pose proof (peer_send_queue_frame rudp_endpoint_send now p1) as (Fm & _).
    unfold peer_send_queue in *.
    pose proof (send_queue_loop_events now (sendq p1) p1) as Ev.
    destruct (send_queue_loop rudp_endpoint_send now (sendq p1) p1)
      as [[q' p'] evs].
    cbn [fst snd] in *. change (must_ack p' = must_ack p1) in Fm.
    split; [change (must_ack p' = true); congruence|].
    intros d Hin. rewrite Forall_forall in Ev.
    destruct (Ev _ Hin) as (x & _ & E). injection E as ->.
    destruct (stamped_ack p1 x M1) as (A & R).
    split; [exact A|]. rewrite R, I1. apply ntohs_htons. exact Hi.
Qed.

(** X12.  [must_ack], once set, stays set through inbound packets and
    service cycles, and every datagram a service cycle then transmits
    carries the ACK flag with [reliable_ack] equal to the peer's
    [in_rel]. *)
Theorem acks_piggybacked (now : Z) (peer : rudp_peer)
    (pc : rudp_packet_chain) :
  must_ack peer = true ->
  0 <= in_seq_reliable peer < 65536 ->
  must_ack (peer_after (rudp_peer_incoming_packet now peer pc)) = true /\
  must_ack (fst (peer_service rudp_endpoint_send now peer)) = true /\
  (forall d, In (EvSend d) (snd (peer_service rudp_endpoint_send now peer)) ->
     has_opt RUDP_OPT_ACK (header d) = true /\
     ntohs (reliable_ack (header d)) = in_seq_reliable peer).
Proof. exact (acks_piggybacked_aux now peer pc). Qed.

End AckOnWire.

Lemma acks_piggybacked_witness :
  must_ack
    (fst (peer_service (fun _ => 0) 1001
            (peer_after (rudp_peer_incoming_packet 1000
                           (set_must_ack true (Sample.running 3 0 6 5))
                           (Sample.packet 16 1 0 4 0 [104; 105])))))
  = true.
Proof.
  apply (acks_piggybacked (fun _ => 0) 1001
           (peer_after (rudp_peer_incoming_packet 1000
                          (set_must_ack true (Sample.running 3 0 6 5))
                          (Sample.packet 16 1 0 4 0 [104; 105])))
           (Sample.packet 0 0 0 0 0 [])).
  - reflexivity.
  - vm_compute. split; [discriminate|reflexivity].
Defined.

(** ** The acknowledgement comes back *)

Lemma incoming_sequenced_ret (now : Z) (peer : rudp_peer)
    (pc : rudp_packet_chain) :
  ret (incoming_sequenced now peer pc) = 0.
Proof.
  rewrite incoming_sequenced_eq.
  pose proof (incoming_dispatch_cases now (fst (incoming_analyse peer pc))
                (snd (incoming_analyse peer pc)) pc) as D.
  destruct (incoming_dispatch now (fst (incoming_analyse peer pc))
              (snd (incoming_analyse peer pc)) pc) as [r|[p3 evs]].
  - apply D.
  - reflexivity.
Qed.

Lemma peer_handle_ack_same (peer : rudp_peer) (ack : Z) :
  out_seq_acked peer = ack ->
  out_seq_acked (snd (peer_handle_ack peer ack)) = ack.
Proof.
  intros E. unfold peer_handle_ack. repeat break_if; cbn; congruence.
Qed.

Lemma peer_handle_ack_empty (peer : rudp_peer) (ack : Z) :
  sendq peer = [] -> sendq (snd (peer_handle_ack peer ack)) = [].
Proof.
  intros Q. unfold peer_handle_ack. repeat break_if; cbn; rewrite ?Q;
    reflexivity.
Qed.

Lemma send_unreliable_queue (now : Z) (peer : rudp_peer)
    (pc : rudp_packet_chain) :
  exists e, sendq (snd (rudp_peer_send_unreliable now peer pc))
            = sendq peer ++ [e] /\ is_reliable e = false.
Proof. eexists. split; reflexivity. Qed.

Lemma all_unreliable_snoc (q : list rudp_packet_chain)
    (e : rudp_packet_chain) :
  all_unreliable q -> is_reliable e = false -> all_unreliable (q ++ [e]).
Proof.
  intros H He. apply Forall_app. split; [exact H|]. constructor; auto.
Qed.

Lemma incoming_sequenced_after_ack (now : Z) (peer : rudp_peer)
    (pc : rudp_packet_chain) :
  all_unreliable (sendq peer) ->
  out_seq_acked peer = ntohs (reliable_ack (header pc)) ->
  let r := incoming_sequenced now peer pc in
  all_unreliable (sendq (peer_after r)) /\
  out_seq_acked (peer_after r) = ntohs (reliable_ack (header pc)).
Proof.
  intros Hq Ha r. unfold r. rewrite incoming_sequenced_eq.
  pose proof (incoming_analyse_frame peer pc) as (_ & _ & Qn & _).
  assert (An : out_seq_acked (snd (incoming_analyse peer pc))
               = out_seq_acked peer).
  { unfold incoming_analyse, peer_analyse_reliable, peer_analyse_unreliable.
    repeat break_if; reflexivity. }
  set (p2 := snd (incoming_analyse peer pc)) in *.
  assert (H2 : all_unreliable (sendq p2) /\
               out_seq_acked p2 = ntohs (reliable_ack (header pc))).
  { rewrite Qn, An. auto. }
  clear Qn An. destruct H2 as (Q2 & A2).
  assert (D : match incoming_dispatch now (fst (incoming_analyse peer pc))
                    p2 pc with
              | inl r' =>
                  all_unreliable (sendq (peer_after r')) /\
                  out_seq_acked (peer_after r')
                    = ntohs (reliable_ack (header pc))
              | inr (p3, _) =>
                  all_unreliable (sendq p3) /\
                  out_seq_acked p3 = ntohs (reliable_ack (header pc))
              end).
  { unfold incoming_dispatch.
    destruct (fst (incoming_analyse peer pc)).
    - repeat break_if; try (split; [exact Q2|exact A2]).
      + unfold peer_handle_ping. break_if; [split; [exact Q2|exact A2]|].
        split; [|exact A2].
        apply all_unreliable_snoc; [exact Q2|reflexivity].
      + unfold peer_handle_pong, peer_update_rtt.
        break_if; split; try exact Q2; exact A2.
    - repeat break_if; try (split; [exact Q2|exact A2]).
      + split; [|exact A2].
        apply all_unreliable_snoc; [exact Q2|reflexivity].
      + cbn [sendq out_seq_acked set_state]. split.
        * unfold peer_handle_ack. repeat break_if; try exact Q2.
          cbn [snd sendq set_sendq set_out_seq_acked set_in_seq_reliable].
          destruct (ack_unqueue_prefix (ntohs (reliable_ack (header pc)))
                      (sendq p2)) as (removed & E & _).
          unfold all_unreliable in *. rewrite E in Q2.
          apply Forall_app in Q2. apply Q2.
        * apply peer_handle_ack_same. exact A2.
    - split; [exact Q2|exact A2]. }
  destruct (incoming_dispatch now (fst (incoming_analyse peer pc)) p2 pc)
    as [r'|[p3 evs]]; [exact D|].
  cbn [peer_after]. destruct D as (Q3 & A3).
  pose proof (incoming_finish_frame now p3 pc) as (_ & _ & _ & Fa).
  split; [|congruence].
  unfold incoming_finish.
  change (sendq (peer_service_schedule now ?p)) with (sendq p).
  destruct (has_opt RUDP_OPT_RELIABLE (header pc)); [|exact Q3].
  unfold peer_post_ack. cbn [sendq set_must_ack].
  destruct (sendq p3) eqn:Q; [|cbn [sendq set_must_ack]; rewrite Q in *; exact Q3].
  cbn. rewrite Q. repeat constructor.
Qed.

Lemma sequenced_app_packet_owes_ack (now : Z) (peer : rudp_peer)
    (pc : rudp_packet_chain) :
  state peer = PEER_RUN ->
  has_opt RUDP_OPT_RELIABLE (header pc) = true ->
  RUDP_CMD_APP <= command (header pc) ->
  fst (incoming_ack peer pc) = 0 ->
  0 <= in_seq_reliable peer < 65536 ->
  ntohs (reliable (header pc)) = uint16 (in_seq_reliable peer + 1) ->
  let p' := peer_after (rudp_peer_incoming_packet now peer pc) in
  sendq p' <> [] /\ abs_timeout_deadline p' = now + DROP_TIMEOUT /\
  must_ack p' = true /\
  in_seq_reliable p' = uint16 (in_seq_reliable peer + 1).
Proof.
  intros Hs Hrel Hc Hok Hr Hn p'.
  destruct (sequenced_app_packet now peer pc Hs Hrel Hc Hok Hr Hn)
    as (_ & _ & Hm & Hi & _).
  fold p' in Hm, Hi. split; [|split; [|split; assumption]].
  - unfold p'. rewrite (incoming_packet_accepted now peer pc Hok).
    rewrite incoming_sequenced_eq.
    destruct (incoming_dispatch _ _ _ _) as [r|[p3 evs]] eqn:D.
    + pose proof (incoming_dispatch_cases now
                    (fst (incoming_analyse (snd (incoming_ack peer pc)) pc))
                    (snd (incoming_analyse (snd (incoming_ack peer pc)) pc))
                    pc) as C.
      rewrite D in C. destruct C as (_ & C & _).
      unfold RUDP_CMD_APP, RUDP_CMD_CLOSE in *. lia.
    + cbn [peer_after].
      destruct (incoming_finish_spec now p3 pc) as (Hne & _ & Hm').
      destruct (sendq p3) eqn:Q.
      * destruct Hm' as (_ & He); [exact Hrel|].
        destruct (He eq_refl) as (carrier & E & _). rewrite E. discriminate.
      * rewrite Hne by discriminate. discriminate.
  - unfold p'. rewrite (incoming_packet_accepted now peer pc Hok).
    rewrite incoming_sequenced_eq.
    pose proof (incoming_ack_in_seq peer pc) as [Ein _].
    set (pa := snd (incoming_ack peer pc)) in *.
    assert (Ea : fst (incoming_analyse pa pc) = SEQUENCED).
    { unfold incoming_analyse, peer_analyse_reliable.
      rewrite Hrel, Ein, Hn.
      destruct (Z.eqb_spec (in_seq_reliable peer)
                  (uint16 (in_seq_reliable peer + 1))) as [E|_].
      - exfalso. apply (uint16_succ_neq (in_seq_reliable peer) Hr).
        symmetry. exact E.
      - rewrite Z.eqb_refl. reflexivity. }
    rewrite Ea.
    pose proof (incoming_dispatch_deadline now SEQUENCED
                  (snd (incoming_analyse pa pc)) pc) as D.
    cbn zeta in D.
    destruct (incoming_dispatch now SEQUENCED
                (snd (incoming_analyse pa pc)) pc) as [r|[p3 evs]];
      [exact D|].
    cbn [peer_after].
    pose proof (incoming_finish_frame now p3 pc) as (_ & Fd & _).
    rewrite Fd. exact D.
Qed.

Section AckReturn.

Variable rudp_endpoint_send : rudp_packet_chain -> Z.

Lemma service_sends_head (now : Z) (peer : rudp_peer)
    (e : rudp_packet_chain) (rest : list rudp_packet_chain) :
  sendq peer = e :: rest ->
  now <= abs_timeout_deadline peer ->
  exists tl, snd (peer_service rudp_endpoint_send now peer)
             = EvSend (stamped peer e) :: tl.
Proof.
  intros Q Hd. unfold peer_service.
  cbn [abs_timeout_deadline set_scheduled sendq last_out_time].
  destruct (Z.ltb_spec (abs_timeout_deadline peer) now); [lia|].
  rewrite Q. unfold peer_send_queue.
  change (sendq (set_scheduled false peer)) with (sendq peer). rewrite Q.
  rewrite send_queue_loop_step. cbn zeta.
  change (stamped (set_scheduled false peer)) with (stamped peer).
  destruct (send_queue_loop rudp_endpoint_send now rest _)
    as [[rest' p'] evs].
  destruct (is_reliable e); destruct (is_retransmitted e);
    cbn [andb fst snd]; eexists; reflexivity.
Qed.

(** X13.  The acknowledgement closes the loop.  A peer [s] with nothing
    queued or unacknowledged sends an application message reliably and
    transmits it; a running peer [r] in step with [s] takes it; [r]'s next
    service cycle, before its drop deadline, transmits at least one
    datagram; and whichever of these datagrams [s] receives, [s] accepts
    it, records the sequence as acknowledged and is left with no reliable
    packet in its queue. *)
Theorem reliable_message_acknowledged (t0 t1 t2 t3 t4 : Z) (s r : rudp_peer)
    (cmd : Z) (payload : list Z) :
  sendq s = [] ->
  out_seq_acked s = out_seq_reliable s ->
  t1 <= abs_timeout_deadline s ->
  0 <= cmd <= 255 - RUDP_CMD_APP ->
  0 <= out_seq_reliable s < 65536 ->
  0 <= in_seq_reliable s < 65536 ->
  state r = PEER_RUN ->
  in_seq_reliable r = out_seq_reliable s ->
  int16 (in_seq_reliable s - out_seq_reliable r) <= 0 ->
  t3 <= t2 + DROP_TIMEOUT ->
  let s1 := snd (rudp_server_send t0 true s 1 cmd payload) in
  let s2 := fst (peer_service rudp_endpoint_send t1 s1) in
  exists d,
    snd (peer_service rudp_endpoint_send t1 s1) = [EvSend d] /\
    let r1 := peer_after (rudp_peer_incoming_packet t2 r d) in
    let acks := snd (peer_service rudp_endpoint_send t3 r1) in
    acks <> [] /\
    forall a, In (EvSend a) acks ->
      let res := rudp_peer_incoming_packet t4 s2 a in
      ret res = 0 /\
      out_seq_acked (peer_after res) = uint16 (out_seq_reliable s + 1) /\
      all_unreliable (sendq (peer_after res)).
Proof.
  intros Hq Hacked Hd Hc Ho Hi Hs Hsync Hack Ht3 s1 s2.
  set (n := uint16 (out_seq_reliable s + 1)).
  destruct (app_message_first_transmission rudp_endpoint_send t0 t1 s cmd
              payload Hq Hd Hc) as (_ & d & Es & Eq2 & Ed & Eo2 & Ea2).
  fold s1 in Es, Eq2, Eo2, Ea2. fold s2 in Eq2, Eo2, Ea2. fold n in Eo2.
  exists d. split; [exact Es|].
  set (pc := mk_chain (mk_header (RUDP_CMD_APP + cmd) RUDP_OPT_RELIABLE 0
                         (htons (uint16 (out_seq_reliable s + 1))) 0)
                      payload) in *.
  destruct (stamped_flags s pc) as (Fr & Ft & Fd & Fc & Fs & _).
  rewrite <- Ed in Fr, Ft, Fd, Fc, Fs.
  assert (Hn : ntohs (reliable (header d)) = n).
  { rewrite Fs. cbn [reliable header pc]. apply ntohs_htons.
    apply uint16_range. }
  assert (Hok : fst (incoming_ack r d) = 0).
  { unfold incoming_ack.
    destruct (has_opt RUDP_OPT_ACK (header d)) eqn:A; [|reflexivity].
    apply peer_handle_ack_not_past.
    assert (M : must_ack s = true).
    { destruct (must_ack s) eqn:M; [reflexivity|].
      rewrite Ed in A. unfold stamped in A. rewrite M in A.
      cbn in A. discriminate A. }
    destruct (stamped_ack s pc M) as (_ & Ea). rewrite <- Ed in Ea.
    rewrite Ea, ntohs_htons by exact Hi. exact Hack. }
  assert (Hr1 : let p' := peer_after (rudp_peer_incoming_packet t2 r d) in
                sendq p' <> [] /\ abs_timeout_deadline p' = t2 + DROP_TIMEOUT
                /\ must_ack p' = true /\
                in_seq_reliable p' = uint16 (in_seq_reliable r + 1)).
  { apply sequenced_app_packet_owes_ack; auto.
    - rewrite Fc. cbn [command header pc]. unfold RUDP_CMD_APP in *. lia.
    - rewrite Hsync. exact Ho.
    - rewrite Hn, Hsync. reflexivity. }
  cbn zeta in Hr1. cbn zeta.
  set (r1 := peer_after (rudp_peer_incoming_packet t2 r d)) in *.
  destruct Hr1 as (Qr & Dr & Mr & Ir). rewrite Hsync in Ir. fold n in Ir.
  split.
  - destruct (sendq r1) as [|e rest] eqn:Q; [congruence|].
    destruct (service_sends_head t3 r1 e rest Q) as (tl & E); [lia|].
    rewrite E. discriminate.
  - intros a Hin.
    destruct (acks_piggybacked_aux rudp_endpoint_send t3 r1 a Mr) as (_ & _ & Hp).
    { rewrite Ir. apply uint16_range. }
    destruct (Hp a Hin) as (Aa & Ra). rewrite Ir in Ra.
    assert (Hs2 : incoming_ack s2 a =
                  (0, set_sendq [] (set_out_seq_acked n s2))).
    { unfold incoming_ack. rewrite Aa, Ra. unfold peer_handle_ack.
      rewrite Ea2, Hacked, Eo2.
      replace (int16 (n - out_seq_reliable s)) with 1
        by (symmetry; apply int16_uint16_add; lia).
      rewrite int16_self. cbn [Z.ltb Z.gtb Z.compare].
      cbn [sendq set_out_seq_acked]. rewrite Eq2.
      cbn [ack_unqueue].
      destruct (marked_flags d) as (Mt & Mr' & _ & _ & _ & Ms & _).
      unfold is_retransmitted, is_reliable in Mt, Mr', Fr.
      rewrite Mt, Mr', Fr, Ms, Hn, int16_self. reflexivity. }
    rewrite incoming_packet_accepted by (rewrite Hs2; reflexivity).
    rewrite Hs2. cbn [snd].
    split; [apply incoming_sequenced_ret|].
    destruct (incoming_sequenced_after_ack t4
                (set_sendq [] (set_out_seq_acked n s2)) a) as (Q3 & A3).
    + constructor.
    + cbn. symmetry. exact Ra.
    + rewrite Ra in A3. split; assumption.
Qed.

End AckReturn.

Lemma reliable_message_acknowledged_witness :
  exists d,
    snd (peer_service (fun _ => 0) 1100
           (snd (rudp_server_send 1050 true (Sample.running 8 0 100 100)
                                  1 3 [104; 105])))
      = [EvSend d] /\
    snd (peer_service (fun _ => 0) 1200
           (peer_after (rudp_peer_incoming_packet 1140
                          (peer Sample.connected_client) d))) <> [].
Proof.
  destruct (reliable_message_acknowledged (fun _ => 0) 1050 1100 1140 1200
              1240 (Sample.running 8 0 100 100)
              (peer Sample.connected_client) 3 [104; 105])
    as (d & Hs & Hne & _).
  - reflexivity.
  - reflexivity.
  - vm_compute. discriminate.
  - vm_compute. split; discriminate.
  - vm_compute. split; [discriminate|reflexivity].
  - vm_compute. split; [discriminate|reflexivity].
  - vm_compute. reflexivity.
  - vm_compute. reflexivity.
  - vm_compute. discriminate.
  - vm_compute. discriminate.
  - exists d. split; assumption.
Defined.

(** ** Sender and receiver stay in step *)

(** X14.  Whatever a sender enqueues next is in sequence for a receiver
    that is in step with it, and the two are in step again once the
    receiver has taken it: this holds for an unreliable packet (its
    unreliable sequence is one more than the receiver's, also across the
    16-bit wrap) and for a reliable one (which starts a new epoch, the
    unreliable counters back to zero).  [p] is the sender when the entry
    is transmitted; it only stamps the ACK fields. *)
Theorem in_step_preserved (t0 t : Z) (s r p : rudp_peer)
    (pc d0 : rudp_packet_chain) :
  in_step s r ->
  (let s1 := snd (rudp_peer_send_unreliable t0 s pc) in
   let d := stamped p (last (sendq s1) d0) in
   fst (incoming_ack r d) = 0 ->
   fst (incoming_analyse (snd (incoming_ack r d)) d) = SEQUENCED /\
   in_step s1 (peer_after (rudp_peer_incoming_packet t r d))) /\
  (let s1 := snd (rudp_peer_send_reliable t0 s pc) in
   let d := stamped p (last (sendq s1) d0) in
   fst (incoming_ack r d) = 0 ->
   fst (incoming_analyse (snd (incoming_ack r d)) d) = SEQUENCED /\
   in_step s1 (peer_after (rudp_peer_incoming_packet t r d))).
Proof.
  intros (Hr & Hu & Ro & Ru). split.
  - intros s1 d Hok.
    set (u := uint16 (out_seq_unreliable s + 1)).
    set (e := with_header (fun h =>
                 set_unreliable (htons u)
                   (set_reliable (htons (out_seq_reliable s)) (set_opt 0 h)))
                pc).
    assert (Ee : last (sendq s1) d0 = e).
    { unfold s1, rudp_peer_send_unreliable. cbn. apply last_last. }
    destruct (stamped_flags p e) as (Fr & _ & _ & _ & Fs & Fu).
    unfold d in *. rewrite Ee in *. clear Ee.
    set (d' := stamped p e) in *.
    destruct (incoming_ack_in_seq r d') as [Ein Eun].
    set (pa := snd (incoming_ack r d')) in *.
    assert (Ea : incoming_analyse pa d' =
                 (SEQUENCED, set_in_seq_unreliable u pa)).
    { unfold incoming_analyse, peer_analyse_unreliable.
      unfold is_reliable in Fr. rewrite Fr, Fs, Fu. cbn [has_opt opt header e
        with_header set_unreliable set_reliable set_opt reliable unreliable].
      change (negb (Z.land 0 RUDP_OPT_RELIABLE =? 0)) with false. cbn iota.
      rewrite !ntohs_htons by (try exact Ro; apply uint16_range).
      rewrite Ein, Eun, Hr, Hu, Z.eqb_refl. cbn [negb].
      unfold u. rewrite int16_uint16_add by lia. reflexivity. }
    split; [rewrite Ea; reflexivity|].
    rewrite (incoming_packet_accepted t r d' Hok). fold pa.
    destruct (incoming_sequenced_in_seq t pa d') as [E1 E2];
      [rewrite Ea; reflexivity|].
    rewrite Ea in E1, E2. cbn [snd] in E1, E2.
    unfold in_step. rewrite E1, E2. cbn [in_seq_reliable in_seq_unreliable
      set_in_seq_unreliable].
    unfold s1, rudp_peer_send_unreliable. cbn.
    repeat split; try lia; try apply uint16_range.
  - intros s1 d Hok.
    set (n := uint16 (out_seq_reliable s + 1)).
    set (e := with_header (fun h =>
                 set_unreliable 0
                   (set_reliable (htons n) (set_opt RUDP_OPT_RELIABLE h)))
                pc).
    assert (Ee : last (sendq s1) d0 = e).
    { unfold s1, rudp_peer_send_reliable. cbn. apply last_last. }
    destruct (stamped_flags p e) as (Fr & _ & _ & _ & Fs & Fu).
    unfold d in *. rewrite Ee in *. clear Ee.
    set (d' := stamped p e) in *.
    destruct (incoming_ack_in_seq r d') as [Ein Eun].
    set (pa := snd (incoming_ack r d')) in *.
    assert (Ea : incoming_analyse pa d' =
                 (SEQUENCED,
                  set_in_seq_unreliable 0 (set_in_seq_reliable n pa))).
    { unfold incoming_analyse, peer_analyse_reliable.
      unfold is_reliable in Fr. rewrite Fr, Fs. cbn [has_opt opt header e
        with_header set_unreliable set_reliable set_opt reliable unreliable].
      change (negb (Z.land RUDP_OPT_RELIABLE RUDP_OPT_RELIABLE =? 0))
        with true. cbn iota.
      rewrite !ntohs_htons by apply uint16_range.
      rewrite Ein, Hr.
      destruct (Z.eqb_spec (out_seq_reliable s) n) as [E|_].
      - exfalso. apply (uint16_succ_neq (out_seq_reliable s) Ro).
        symmetry. exact E.
      - fold n. rewrite Z.eqb_refl. reflexivity. }
    split; [rewrite Ea; reflexivity|].
    rewrite (incoming_packet_accepted t r d' Hok). fold pa.
    destruct (incoming_sequenced_in_seq t pa d') as [E1 E2];
      [rewrite Ea; reflexivity|].
    rewrite Ea in E1, E2. cbn [snd] in E1, E2.
    unfold in_step. rewrite E1, E2.
    unfold s1, rudp_peer_send_reliable. cbn.
    repeat split; try lia; apply uint16_range.
Qed.

(** The third unreliable packet of epoch 9 is in sequence for a receiver
    that has taken two. *)
Lemma in_step_preserved_witness :
  let s := set_out_seq_unreliable 2 (Sample.running 3 0 9 9) in
  let s1 := snd (rudp_peer_send_unreliable 1000 s
                   (mk_chain (mk_header 16 0 0 0 0) [1])) in
  let d := stamped s1 (last (sendq s1) (Sample.packet 0 0 0 0 0 [])) in
  fst (incoming_analyse (snd (incoming_ack (Sample.running 9 2 3 3) d)) d)
    = SEQUENCED.
Proof.
  intros s s1 d.
  destruct (in_step_preserved 1000 1001 s (Sample.running 9 2 3 3) s1
              (mk_chain (mk_header 16 0 0 0 0) [1])
              (Sample.packet 0 0 0 0 0 [])) as [H _].
  - vm_compute. repeat split; discriminate.
  - apply H. reflexivity.
Defined.

(** ** Addresses and the server's peer list *)

Lemma memcmp_eq (a b : list Z) : memcmp a b = 0 <-> a = b.
Proof.
  revert b. induction a as [|x a IH]; intros [|y b]; cbn;
    try (split; [discriminate|discriminate]); try tauto.
  destruct (Z.ltb_spec x y); [split; [discriminate|intros E; inversion E; lia]|].
  destruct (Z.ltb_spec y x); [split; [discriminate|intros E; inversion E; lia]|].
  rewrite IH. split.
  - intros ->. f_equal. lia.
  - intros E. inversion E. reflexivity.
Qed.

Lemma address_compare_zero_iff_aux (a b : sockaddr) :
  rudp_address_compare a b = 0 <-> a = b.
Proof.
  destruct a as [pa la|pa la], b as [pb lb|pb lb]; cbn;
    try (split; discriminate).
  - destruct (Z.eqb_spec pa pb) as [->|N]; cbn.
    + rewrite memcmp_eq. split; [intros ->; reflexivity|].
      intros E. inversion E. reflexivity.
    + split; [discriminate|]. intros E. inversion E. contradiction.
  - destruct (Z.eqb_spec pa pb) as [->|N]; cbn.
    + rewrite memcmp_eq. split; [intros ->; reflexivity|].
      intros E. inversion E. reflexivity.
    + split; [discriminate|]. intros E. inversion E. contradiction.
Qed.

(** X15.  [rudp_address_compare] returns zero exactly when the two
    addresses have the same family, port and address bytes. *)
Theorem address_compare_zero_iff (a b : sockaddr) :
  rudp_address_compare a b = 0 <-> a = b.
Proof. exact (address_compare_zero_iff_aux a b). Qed.

Lemma peer_address_compare_zero_iff (p : rudp_peer) (addr : sockaddr) :
  rudp_peer_address_compare p addr = 0 <-> peer_address p = Some addr.
Proof.
  unfold rudp_peer_address_compare, peer_address.
  destruct p as [a]. cbn. destruct a as [a|].
  - rewrite address_compare_zero_iff_aux. split; congruence.
  - split; discriminate.
Qed.

Lemma server_peer_lookup_first_aux (l : list server_peer) (addr : sockaddr) :
  (rudp_server_peer_lookup l addr = None <->
   ~ In (Some addr) (map (fun sp => peer_address (base sp)) l)) /\
  (forall i, rudp_server_peer_lookup l addr = Some i ->
     exists sp,
       nth_error l i = Some sp /\ peer_address (base sp) = Some addr /\
       forall j sp', (j < i)%nat -> nth_error l j = Some sp' ->
                     peer_address (base sp') <> Some addr).
Proof.
  induction l as [|sp l [IHn IHs]]; cbn [rudp_server_peer_lookup map In].
  - split; [tauto|]. intros i E. discriminate E.
  - destruct (Z.eqb_spec (rudp_peer_address_compare (base sp) addr) 0)
      as [E|N].
    + apply peer_address_compare_zero_iff in E. split.
      * split; [discriminate|]. intros H. exfalso. apply H. left. exact E.
      * intros i Hi. injection Hi as <-. exists sp.
        repeat split; auto. intros j sp' Hj. lia.
    + assert (N' : peer_address (base sp) <> Some addr).
      { intros E. apply N. apply peer_address_compare_zero_iff. exact E. }
      split.
      * destruct (rudp_server_peer_lookup l addr) eqn:L; cbn.
        -- split; [discriminate|]. intros H. exfalso. apply H. right.
           destruct (IHs n eq_refl) as (sp0 & Hn & Ha & _).
           rewrite <- Ha.
           apply (in_map (fun sp => peer_address (base sp))).
           apply (nth_error_In l n). exact Hn.
        -- split; [|reflexivity]. intros _ [H|H]; [contradiction|].
           apply IHn in H; [exact H|reflexivity].
      * intros i Hi. destruct (rudp_server_peer_lookup l addr) as [k|] eqn:L;
          [|discriminate Hi].
        cbn in Hi. injection Hi as <-.
        destruct (IHs k eq_refl) as (sp0 & Hn & Ha & Hf).
        exists sp0. repeat split; auto.
        intros [|j] sp' Hj Hnth; cbn in Hnth.
        -- injection Hnth as <-. exact N'.
        -- apply (Hf j sp'); [lia|exact Hnth].
Qed.

(** X16.  [rudp_server_peer_lookup] finds no peer exactly when none in the
    list is bound to the address; otherwise it returns the first peer of
    the list bound to it. *)
Theorem server_peer_lookup_first (l : list server_peer) (addr : sockaddr) :
  (rudp_server_peer_lookup l addr = None <->
   ~ In (Some addr) (map (fun sp => peer_address (base sp)) l)) /\
  (forall i, rudp_server_peer_lookup l addr = Some i ->
     exists sp,
       nth_error l i = Some sp /\ peer_address (base sp) = Some addr /\
       forall j sp', (j < i)%nat -> nth_error l j = Some sp' ->
                     peer_address (base sp') <> Some addr).
Proof. exact (server_peer_lookup_first_aux l addr). Qed.

Lemma server_peer_lookup_first_witness :
  exists sp,
    nth_error [mk_server_peer (rudp_peer_from_sockaddr 0 1 Sample.addr2) 0;
               mk_server_peer (rudp_peer_from_sockaddr 0 2 Sample.addr1) 0] 1
      = Some sp /\
    peer_address (base sp) = Some Sample.addr1.
Proof.
  destruct (server_peer_lookup_first
              [mk_server_peer (rudp_peer_from_sockaddr 0 1 Sample.addr2) 0;
               mk_server_peer (rudp_peer_from_sockaddr 0 2 Sample.addr1) 0]
              Sample.addr1) as [_ H].
  destruct (H 1%nat eq_refl) as (sp & Hn & Ha & _).
  exists sp. split; assumption.
Defined.

Lemma incoming_packet_address (now : Z) (p : rudp_peer)
    (pc : rudp_packet_chain) :
  peer_address (peer_after (rudp_peer_incoming_packet now p pc))
    = peer_address p.
Proof.
  unfold rudp_peer_incoming_packet.
  assert (Ea : peer_address (snd (incoming_ack p pc)) = peer_address p).
  { unfold incoming_ack, peer_handle_ack. repeat break_if; reflexivity. }
  destruct (incoming_ack p pc) as [broken p1]. cbn [snd] in Ea.
  break_if; [exact Ea|].
  rewrite incoming_sequenced_eq.
  assert (En : peer_address (snd (incoming_analyse p1 pc)) = peer_address p1).
  { unfold incoming_analyse, peer_analyse_reliable, peer_analyse_unreliable.
    repeat break_if; reflexivity. }
  set (p2 := snd (incoming_analyse p1 pc)) in *.
  assert (D : match incoming_dispatch now (fst (incoming_analyse p1 pc)) p2 pc
              with
              | inl r => peer_address (peer_after r) = peer_address p2
              | inr (p3, _) => peer_address p3 = peer_address p2
              end).
  { unfold incoming_dispatch.
    destruct (fst (incoming_analyse p1 pc)).
    - repeat break_if; try reflexivity.
      + unfold peer_handle_ping. break_if; reflexivity.
      + unfold peer_handle_pong, peer_update_rtt. break_if; reflexivity.
    - repeat break_if; try reflexivity.
      unfold peer_handle_ack. cbn. repeat break_if; reflexivity.
    - reflexivity. }
  destruct (incoming_dispatch now (fst (incoming_analyse p1 pc)) p2 pc)
    as [r|[p3 evs]]; [congruence|].
  cbn [peer_after].
  assert (Ef : peer_address (incoming_finish now p3 pc) = peer_address p3).
  { unfold incoming_finish, peer_post_ack.
    destruct (has_opt RUDP_OPT_RELIABLE (header pc)); [|reflexivity].
    cbn [sendq set_must_ack]. destruct (sendq p3); reflexivity. }
  congruence.
Qed.

Lemma map_list_update {A B} (f : A -> B) (g : A -> A) (i : nat)
    (l : list A) :
  (forall x, nth_error l i = Some x -> f (g x) = f x) ->
  map f (list_update i g l) = map f l.
Proof.
  revert i. induction l as [|x l IH]; intros [|i] H; cbn; auto.
  - rewrite H by reflexivity. reflexivity.
  - rewrite IH; auto.
Qed.

Lemma map_list_remove {A B} (f : A -> B) (i : nat) (l : list A) :
  map f (list_remove i l) = list_remove i (map f l).
Proof.
  revert i. induction l as [|x l IH]; intros [|i]; cbn; auto.
  rewrite IH. reflexivity.
Qed.

Lemma list_remove_incl {A} (i : nat) (l : list A) (x : A) :
  In x (list_remove i l) -> In x l.
Proof.
  revert i. induction l as [|y l IH]; intros [|i]; cbn; auto.
  intros [H|H]; [left; exact H|right; eapply IH; exact H].
Qed.

Lemma list_remove_NoDup {A} (i : nat) (l : list A) :
  NoDup l -> NoDup (list_remove i l).
Proof.
  revert i. induction l as [|y l IH]; intros [|i] H; cbn; auto;
    inversion H; subst; auto.
  constructor; auto. intros Hin. apply list_remove_incl in Hin. contradiction.
Qed.

Lemma list_remove_Forall {A} (P : A -> Prop) (i : nat) (l : list A) :
  Forall P l -> Forall P (list_remove i l).
Proof.
  revert i. induction l as [|y l IH]; intros [|i] H; cbn; auto;
    inversion H; subst; auto.
Qed.

Lemma one_peer_per_address_remove (i : nat) (l : list server_peer) :
  one_peer_per_address (mk_server l) ->
  one_peer_per_address (mk_server (list_remove i l)).
Proof.
  unfold one_peer_per_address, bound_addresses. cbn [peer_list].
  rewrite map_list_remove. intros [H1 H2].
  split; [apply list_remove_NoDup|apply list_remove_Forall]; assumption.
Qed.

Lemma server_peer_handler_keeps (i : nat) (evs : list peer_event)
    (server : rudp_server) :
  one_peer_per_address server ->
  one_peer_per_address (fst (server_peer_handler i evs server)).
Proof.
  revert server. induction evs as [|ev evs IH]; intros server H; [exact H|].
  destruct ev as [|pc|pc]; cbn [server_peer_handler].
  - unfold server_peer_dropped, server_peer_forget.
    destruct (nth_error (peer_list server) i); [|exact H].
    cbn [fst]. destruct server as [l]. apply one_peer_per_address_remove.
    exact H.
  - specialize (IH server H).
    destruct (server_peer_handler i evs server). exact IH.
  - apply IH. exact H.
Qed.

(** X17.  The server never holds two peers for one address: the list of
    an initialised server has the property, and handling a datagram, from
    a known or an unknown address, accepted or not, keeps it. *)
Theorem server_one_peer_per_address (now rnd : Z) (alloc_ok : bool)
    (server : rudp_server) (addr : sockaddr) (pc : rudp_packet_chain) :
  one_peer_per_address rudp_server_init /\
  (one_peer_per_address server ->
   one_peer_per_address
     (fst (server_handle_endpoint_packet now rnd alloc_ok server addr pc))).
Proof.
  split.
  { split; constructor. }
  intros H. unfold server_handle_endpoint_packet.
  destruct (rudp_server_peer_lookup (peer_list server) addr) as [i|] eqn:L.
  - destruct (nth_error (peer_list server) i) as [sp|] eqn:N; [|exact H].
    apply server_peer_handler_keeps.
    unfold one_peer_per_address, bound_addresses in *. cbn [peer_list].
    rewrite map_list_update; [exact H|].
    intros x Hx. cbn [base set_base]. rewrite N in Hx. injection Hx as <-.
    apply incoming_packet_address.
  - break_if; [exact H|].
    unfold server_peer_new. destruct alloc_ok; cbn [negb]; [|exact H].
    cbn [base peer_list list_update].
    set (p' := peer_after _).
    assert (H' : one_peer_per_address
                   (mk_server (set_base p'
                                 (mk_server_peer
                                    (rudp_peer_from_sockaddr now rnd addr) 0)
                               :: peer_list server))).
    { destruct H as [H1 H2]. unfold one_peer_per_address, bound_addresses.
      cbn [peer_list map base set_base].
      assert (Ep : peer_address p' = Some addr).
      { unfold p'. rewrite incoming_packet_address. reflexivity. }
      rewrite Ep. split.
      - constructor; [|exact H1].
        apply (proj1 (server_peer_lookup_first_aux (peer_list server) addr)).
        exact L.
      - constructor; [discriminate|exact H2]. }
    pose proof (server_peer_handler_keeps 0 (events
                  (rudp_peer_incoming_packet now
                     (rudp_peer_from_sockaddr now rnd addr) pc)) _ H') as K.
    destruct (server_peer_handler 0 _ _) as [srv out1].
    cbn [fst] in K.
    break_if; [exact K|].
    unfold server_peer_forget.
    destruct (nth_error (peer_list srv) 0); [|exact K].
    cbn [fst]. destruct srv as [l]. apply one_peer_per_address_remove.
    exact K.
Qed.

Lemma server_one_peer_per_address_witness :
  one_peer_per_address
    (fst (server_handle_endpoint_packet 1000 7 true rudp_server_init
            Sample.addr1
            (Sample.packet RUDP_CMD_CONN_REQ RUDP_OPT_RELIABLE 0 8 0
                           [0; 0; 0; 0]))).
Proof.
  apply (server_one_peer_per_address 1000 7 true rudp_server_init
           Sample.addr1).
  split; constructor.
Defined.

(** ** Closing the server *)

Lemma server_close_loop_spec (l : list server_peer) :
  server_close_loop l (mk_server l) =
    (mk_server [],
     flat_map (fun sp => [SrvPeerDropped (base sp); SrvFree (base sp)]) l).
Proof.
  induction l as [|sp l IH]; [reflexivity|].
  cbn [server_close_loop rudp_server_client_close server_peer_forget
       peer_list nth_error list_remove flat_map app].
  rewrite IH. reflexivity.
Qed.

(** X18.  [rudp_server_close] leaves no peer in the server: for each peer
    of the list, in list order, [peer_dropped] is called once and the peer
    is then released; zero is returned. *)
Theorem server_close_drops_all (server : rudp_server) :
  rudp_server_close server =
    (0, mk_server [],
     flat_map (fun sp => [SrvPeerDropped (base sp); SrvFree (base sp)])
              (peer_list server)).
Proof.
  unfold rudp_server_close. destruct server as [l]. cbn [peer_list].
  rewrite server_close_loop_spec. reflexivity.
Qed.

(** ** Application sends *)

Lemma app_packet_send_spec (now : Z) (p : rudp_peer) (reliable cmd : Z)
    (payload : list Z) :
  - RUDP_CMD_APP <= cmd <= 255 - RUDP_CMD_APP ->
  let res := app_packet_send now true p reliable cmd payload in
  fst res = sendto_err p /\
  exists e,
    sendq (snd res) = sendq p ++ [e] /\
    command (header e) = RUDP_CMD_APP + cmd /\
    data e = payload /\
    is_reliable e = negb (reliable =? 0) /\
    is_retransmitted e = false /\
    state (snd res) = state p.
Proof.
  intros Hc. unfold app_packet_send. cbn [negb].
  unfold uint8, RUDP_CMD_APP in *. rewrite Z.mod_small by lia.
  destruct (reliable =? 0); cbn [negb].
  - split; [reflexivity|]. eexists. split; [reflexivity|]. repeat split.
  - split; [reflexivity|]. eexists. split; [reflexivity|]. repeat split.
Qed.

Lemma server_send_checks_aux (now : Z) (alloc_ok : bool) (p : rudp_peer)
    (reliable cmd : Z) (payload : list Z) :
  let res := rudp_server_send now alloc_ok p reliable cmd payload in
  (255 - RUDP_CMD_APP < cmd -> res = (EINVAL, p)) /\
  (cmd <= 255 - RUDP_CMD_APP -> alloc_ok = false -> res = (ENOMEM, p)) /\
  (- RUDP_CMD_APP <= cmd <= 255 - RUDP_CMD_APP -> alloc_ok = true ->
     fst res = sendto_err p /\
     exists e,
       sendq (snd res) = sendq p ++ [e] /\
       command (header e) = RUDP_CMD_APP + cmd /\
       data e = payload /\
       is_reliable e = negb (reliable =? 0)).
Proof.
  unfold rudp_server_send, RUDP_CMD_APP. repeat split.
  - intros H. destruct (Z.gtb_spec (cmd + 16) 255); [reflexivity|lia].
  - intros H ->. destruct (Z.gtb_spec (cmd + 16) 255); [lia|reflexivity].
  - destruct H as [H1 H2]. destruct (Z.gtb_spec (cmd + 16) 255); [lia|].
    rewrite H0. apply app_packet_send_spec. unfold RUDP_CMD_APP. lia.
  - destruct H as [H1 H2]. destruct (Z.gtb_spec (cmd + 16) 255); [lia|].
    rewrite H0.
    destruct (app_packet_send_spec now p reliable cmd payload)
      as (_ & e & Q & C & D & R & _); [unfold RUDP_CMD_APP; lia|].
    exists e. repeat split; auto.
Qed.

(** X19.  [rudp_server_send] refuses a command above [RUDP_CMD_APP_MAX]
    with [EINVAL] and a failed allocation with [ENOMEM], the peer
    untouched in both cases.  Otherwise it appends exactly one packet to
    the peer's queue, with command [RUDP_CMD_APP + command], the payload,
    and the RELIABLE flag as asked, and returns the error left by the
    previous transmission.  There is no lower bound: a negative command
    down to [- RUDP_CMD_APP] is queued under a protocol command code. *)
Theorem server_send_checks (now : Z) (alloc_ok : bool) (p : rudp_peer)
    (reliable cmd : Z) (payload : list Z) :
  let res := rudp_server_send now alloc_ok p reliable cmd payload in
  (255 - RUDP_CMD_APP < cmd -> res = (EINVAL, p)) /\
  (cmd <= 255 - RUDP_CMD_APP -> alloc_ok = false -> res = (ENOMEM, p)) /\
  (- RUDP_CMD_APP <= cmd <= 255 - RUDP_CMD_APP -> alloc_ok = true ->
     fst res = sendto_err p /\
     exists e,
       sendq (snd res) = sendq p ++ [e] /\
       command (header e) = RUDP_CMD_APP + cmd /\
       data e = payload /\
       is_reliable e = negb (reliable =? 0)).
Proof. exact (server_send_checks_aux now alloc_ok p reliable cmd payload). Qed.

Lemma server_send_checks_witness :
  rudp_server_send 1000 true (Sample.running 3 0 6 5) 1 240 [1]
    = (EINVAL, Sample.running 3 0 6 5).
Proof.
  apply (server_send_checks 1000 true (Sample.running 3 0 6 5) 1 240 [1]).
  vm_compute. reflexivity.
Defined.

Lemma client_send_checks_aux (now : Z) (alloc_ok : bool) (c : rudp_client)
    (reliable cmd : Z) (payload : list Z) :
  let res := rudp_client_send now alloc_ok c reliable cmd payload in
  (255 - RUDP_CMD_APP < cmd \/ connected c = 0 -> res = (EINVAL, c)) /\
  (cmd <= 255 - RUDP_CMD_APP -> connected c <> 0 -> alloc_ok = false ->
     fst res = ENOMEM /\ peer (snd res) = peer c) /\
  (0 <= cmd <= 255 - RUDP_CMD_APP -> connected c <> 0 -> alloc_ok = true ->
     fst res = sendto_err (peer c) /\
     connected (snd res) = connected c /\
     exists e,
       sendq (peer (snd res)) = sendq (peer c) ++ [e] /\
       command (header e) = RUDP_CMD_APP + cmd /\
       data e = payload /\
       is_reliable e = negb (reliable =? 0)).
Proof.
  unfold rudp_client_send, RUDP_CMD_APP. split; [|split].
  - intros [H|H].
    + destruct (Z.gtb_spec (cmd + 16) 255); [reflexivity|lia].
    + destruct (Z.gtb_spec (cmd + 16) 255); [reflexivity|].
      rewrite H. reflexivity.
  - intros H1 H2 ->. destruct (Z.gtb_spec (cmd + 16) 255); [lia|].
    destruct (Z.eqb_spec (connected c) 0); [contradiction|].
    split; reflexivity.
  - intros H1 H2 ->. destruct (Z.gtb_spec (cmd + 16) 255); [lia|].
    destruct (Z.eqb_spec (connected c) 0); [contradiction|].
    destruct (app_packet_send_spec now (peer c) reliable cmd payload)
      as (E & e & Q & C & D & R & _); [unfold RUDP_CMD_APP; lia|].
    destruct (app_packet_send now true (peer c) reliable cmd payload)
      as [err p'].
    cbn [fst snd peer connected set_peer] in *.
    split; [exact E|]. split; [reflexivity|].
    exists e. repeat split; auto.
Qed.

(** X20.  [rudp_client_send] returns [EINVAL], the client untouched, for
    a command above [RUDP_CMD_APP_MAX] and whenever [connected] is clear;
    [ENOMEM] when the allocation fails.  Otherwise exactly one packet is
    appended to the peer's queue, with command [RUDP_CMD_APP + command]
    and the payload. *)
Theorem client_send_checks (now : Z) (alloc_ok : bool) (c : rudp_client)
    (reliable cmd : Z) (payload : list Z) :
  let res := rudp_client_send now alloc_ok c reliable cmd payload in
  (255 - RUDP_CMD_APP < cmd \/ connected c = 0 -> res = (EINVAL, c)) /\
  (cmd <= 255 - RUDP_CMD_APP -> connected c <> 0 -> alloc_ok = false ->
     fst res = ENOMEM /\ peer (snd res) = peer c) /\
  (0 <= cmd <= 255 - RUDP_CMD_APP -> connected c <> 0 -> alloc_ok = true ->
     fst res = sendto_err (peer c) /\
     connected (snd res) = connected c /\
     exists e,
       sendq (peer (snd res)) = sendq (peer c) ++ [e] /\
       command (header e) = RUDP_CMD_APP + cmd /\
       data e = payload /\
       is_reliable e = negb (reliable =? 0)).
Proof. exact (client_send_checks_aux now alloc_ok c reliable cmd payload). Qed.

(** A send before the handshake is refused. *)
Lemma client_send_checks_witness :
  rudp_client_send 1000 true Sample.connecting_client 1 0 [1]
    = (EINVAL, Sample.connecting_client).
Proof.
  apply (client_send_checks 1000 true Sample.connecting_client 1 0 [1]).
  right. reflexivity.
Defined.

Lemma server_send_all_loop_spec (now : Z) (alloc_ok : nat -> bool)
    (l : list server_peer) (reliable cmd : Z) (payload : list Z) :
  length (server_send_all_loop now alloc_ok l reliable cmd payload)
    = length l /\
  forall i sp,
    nth_error l i = Some sp ->
    nth_error (server_send_all_loop now alloc_ok l reliable cmd payload) i
      = Some (set_base (snd (rudp_server_send now (alloc_ok i) (base sp)
                               reliable cmd payload)) sp).
Proof.
  revert alloc_ok. induction l as [|sp0 l IH]; intros alloc_ok.
  - split; [reflexivity|]. intros [|i] sp H; discriminate H.
  - cbn [server_send_all_loop length].
    destruct (IH (fun i => alloc_ok (S i))) as [IHl IHn].
    split; [f_equal; exact IHl|].
    intros [|i] sp H; cbn in H |- *.
    + injection H as <-. reflexivity.
    + apply IHn. exact H.
Qed.

(** X21.  [rudp_server_send_all] checks the command once: above
    [RUDP_CMD_APP_MAX] it returns [EINVAL] and queues nothing.  Otherwise
    it returns zero whatever the individual sends return, keeps the list
    of peers as long as it was, and each peer is left as
    [rudp_server_send] on it alone leaves it: one packet more in its
    queue when its allocation succeeded, unchanged when it failed. *)
Theorem server_send_all_each (now : Z) (alloc_ok : nat -> bool)
    (server : rudp_server) (reliable cmd : Z) (payload : list Z) :
  let res := rudp_server_send_all now alloc_ok server reliable cmd payload in
  (255 - RUDP_CMD_APP < cmd -> res = (EINVAL, server)) /\
  (cmd <= 255 - RUDP_CMD_APP ->
     fst res = 0 /\
     length (peer_list (snd res)) = length (peer_list server) /\
     forall i sp,
       nth_error (peer_list server) i = Some sp ->
       exists sp',
         nth_error (peer_list (snd res)) i = Some sp' /\
         user_data sp' = user_data sp /\
         (alloc_ok i = false -> base sp' = base sp) /\
         (alloc_ok i = true -> - RUDP_CMD_APP <= cmd ->
            exists e, sendq (base sp') = sendq (base sp) ++ [e] /\
                      command (header e) = RUDP_CMD_APP + cmd /\
                      data e = payload)).
Proof.
  unfold rudp_server_send_all, RUDP_CMD_APP. split.
  - intros H. destruct (Z.gtb_spec (cmd + 16) 255); [reflexivity|lia].
  - intros H. destruct (Z.gtb_spec (cmd + 16) 255); [lia|].
    cbn [fst snd peer_list].
    destruct (server_send_all_loop_spec now alloc_ok (peer_list server)
                reliable cmd payload) as [Hl Hn].
    split; [reflexivity|]. split; [exact Hl|].
    intros i sp Hi. eexists. split; [apply Hn; exact Hi|].
    cbn [user_data base set_base]. split; [reflexivity|].
    pose proof (server_send_checks_aux now (alloc_ok i) (base sp) reliable cmd
                  payload) as (_ & Hf & Ht).
    split.
    + intros A. rewrite Hf; auto.
    + intros A Hlow.
      destruct Ht as (_ & e & Q & C & D & _);
        [unfold RUDP_CMD_APP; lia|exact A|].
      exists e. auto.
Qed.

Lemma server_send_all_each_witness :
  rudp_server_send_all 1000 (fun _ => true) rudp_server_init 1 300 [1]
    = (EINVAL, rudp_server_init).
Proof.
  apply (server_send_all_each 1000 (fun _ => true) rudp_server_init 1 300
           [1]).
  vm_compute. reflexivity.
Defined.

(** ** The client's [connected] flag *)

Lemma incoming_packet_outcomes (now : Z) (p : rudp_peer)
    (pc : rudp_packet_chain) :
  let r := rudp_peer_incoming_packet now p pc in
  (ret r = EINVAL /\ peer_after r = p /\ events r = []) \/
  (ret r = 0 /\
   (events r = [] \/ events r = [EvDropped] \/ events r = [EvHandlePacket pc])).
Proof.
  intros r. unfold r, rudp_peer_incoming_packet.
  assert (Hbroken : fst (incoming_ack p pc) <> 0 ->
                    snd (incoming_ack p pc) = p).
  { unfold incoming_ack, peer_handle_ack. repeat break_if; cbn; congruence. }
  destruct (incoming_ack p pc) as [broken p1]. cbn [fst snd] in *.
  destruct (Z.eqb_spec broken 0) as [E|N]; cbn [negb].
  - right. split; [apply incoming_sequenced_ret|].
    rewrite incoming_sequenced_eq.
    pose proof (incoming_dispatch_cases now (fst (incoming_analyse p1 pc))
                  (snd (incoming_analyse p1 pc)) pc) as D.
    destruct (incoming_dispatch now (fst (incoming_analyse p1 pc))
                (snd (incoming_analyse p1 pc)) pc) as [r'|[p3 evs]].
    + right. left. apply D.
    + cbn [events]. destruct D as (_ & _ & [D|D]); [left; exact D|].
      right. right. apply D.
  - left. cbn. rewrite (Hbroken N). auto.
Qed.

Lemma set_peer_same (c : rudp_client) : set_peer (peer c) c = c.
Proof. destruct c; reflexivity. Qed.

(** X22.  What [client_handle_endpoint_packet] does with the [connected]
    flag.  A datagram the engine rejects changes nothing and calls
    nothing.  After any other datagram the flag is set, whatever the state
    of the peer; the [connected] handler is called, once and last, exactly
    when the flag was clear on entry or the datagram made the engine drop
    the peer, and in the latter case [server_lost] is called just before
    it. *)
Theorem client_connected_flag (now rnd : Z) (c : rudp_client)
    (pc : rudp_packet_chain) :
  let r := rudp_peer_incoming_packet now (peer c) pc in
  let res := client_handle_endpoint_packet now rnd c pc in
  (ret r <> 0 -> res = (c, [])) /\
  (ret r = 0 -> connected (fst res) <> 0) /\
  (In ClConnected (snd res) <->
   ret r = 0 /\ (connected c = 0 \/ events r = [EvDropped])) /\
  (events r = [EvDropped] -> snd res = [ClServerLost; ClConnected]) /\
  (In ClConnected (snd res) -> exists out, snd res = out ++ [ClConnected] /\
                                           ~ In ClConnected out).
Proof.
  intros r res. unfold res, client_handle_endpoint_packet. fold r.
  destruct (incoming_packet_outcomes now (peer c) pc)
    as [(Er & Ep & Ee)|(Er & [Ee|[Ee|Ee]])]; fold r in Er, Ee;
    try fold r in Ep; rewrite Ee, Er.
  - (* rejected *)
    rewrite Ep, set_peer_same. cbn.
    split; [reflexivity|]. split; [discriminate|].
    split; [|split; [discriminate|intros []]].
    split; [intros []|]. intros [H _]. discriminate H.
  - (* no callback *)
    cbn [client_peer_handler Z.eqb andb connected set_peer].
    destruct (Z.eqb_spec (connected c) 0) as [E0|N0]; cbn [fst snd app].
    + split; [congruence|]. split; [discriminate|].
      split; [|split; [discriminate|]].
      * split; [auto|]. intros _. left. reflexivity.
      * intros _. exists []. split; [reflexivity|intros []].
    + split; [congruence|]. split; [intros _; exact N0|].
      split; [|split; [discriminate|intros []]].
      split; [intros []|]. intros [_ [H|H]]; [contradiction|discriminate H].
  - (* dropped *)
    cbn. split; [congruence|]. split; [discriminate|].
    split; [|split; [reflexivity|]].
    + split; [auto|]. intros _. right. left. reflexivity.
    + intros _. exists [ClServerLost]. split; [reflexivity|].
      intros [H|[]]. discriminate H.
  - (* handle_packet *)
    cbn [client_peer_handler Z.eqb andb connected set_peer app].
    destruct (Z.eqb_spec (connected c) 0) as [E0|N0]; cbn [fst snd app].
    + split; [congruence|]. split; [discriminate|].
      split; [|split; [discriminate|]].
      * split; [auto|]. intros _. right. left. reflexivity.
      * intros _. exists [client_handle_data_packet pc].
        split; [reflexivity|]. intros [H|[]]. discriminate H.
    + split; [congruence|]. split; [intros _; exact N0|].
      split; [|split; [discriminate|]].
      * split.
        -- intros [H|[]]. discriminate H.
        -- intros [_ [H|H]]; [contradiction|discriminate H].
      * intros [H|[]]. discriminate H.
Qed.

Lemma client_connected_flag_witness :
  snd (client_handle_endpoint_packet 2000 0 Sample.connected_client
         (Sample.packet RUDP_CMD_CLOSE 0 0 100 2 []))
    = [ClServerLost; ClConnected].
Proof.
  apply (client_connected_flag 2000 0 Sample.connected_client
           (Sample.packet RUDP_CMD_CLOSE 0 0 100 2 [])).
  vm_compute. reflexivity.
Defined.

(** ** Closing the client *)

Section ClientClose.

Variable rudp_endpoint_send : rudp_packet_chain -> Z.


End ClientClose.


(** ** The packet pool *)

Lemma pool_init_ok : Pool.pool_ok Pool.rudp_init.
Proof.
  unfold Pool.pool_ok, Pool.FREE_PACKET_POOL. cbn.
  split; [reflexivity|split; [lia|constructor]].
Qed.

Lemma pool_trim_within (l : list Pool.chain) (allocated free : Z) :
  free <= Pool.FREE_PACKET_POOL ->
  Pool.pool_trim l allocated free = Some (Pool.mk_rudp l allocated free, []).
Proof.
  intros H. destruct l; cbn [Pool.pool_trim];
    destruct (Z.gtb_spec free Pool.FREE_PACKET_POOL); try lia; reflexivity.
Qed.

Lemma pool_trim_one_over (pc : Pool.chain) (l : list Pool.chain)
    (allocated : Z) :
  Z.of_nat (length l) = Pool.FREE_PACKET_POOL ->
  Pool.pool_trim (pc :: l) allocated (Pool.FREE_PACKET_POOL + 1) =
    Some (Pool.mk_rudp l (uint16 (allocated - 1)) Pool.FREE_PACKET_POOL,
          [pc]).
Proof.
  intros H. cbn [Pool.pool_trim].
  change (Pool.FREE_PACKET_POOL + 1 >? Pool.FREE_PACKET_POOL) with true.
  cbn iota.
  change (uint16 (Pool.FREE_PACKET_POOL + 1 - 1)) with Pool.FREE_PACKET_POOL.
  rewrite pool_trim_within by lia. reflexivity.
Qed.

(** X24.  The pool stays consistent and bounded.  From [rudp_init] on,
    through every allocation and every release, the free counter equals
    the number of cached buffers, never exceeds [FREE_PACKET_POOL], and
    every cached buffer has the default size; in such a pool the trimming
    loop of [rudp_packet_chain_free] always terminates. *)
Theorem pool_stays_consistent (r : Pool.rudp) (fresh : option Z)
    (asked : Z) (pc : Pool.chain) :
  Pool.pool_ok Pool.rudp_init /\
  (Pool.pool_ok r ->
     Pool.pool_ok (snd (Pool.rudp_packet_chain_alloc fresh r asked)) /\
     exists r' released,
       Pool.rudp_packet_chain_free r pc = Some (r', released) /\
       Pool.pool_ok r').
Proof.
  split.
  { exact pool_init_ok. }
  intros (Hc & Hb & Hs). split.
  - unfold Pool.rudp_packet_chain_alloc.
    destruct (_ =? Pool.DEFAULT_ALLOC_SIZE).
    + destruct (Pool.free_packet_list r) as [|hd tl] eqn:Q.
      * destruct fresh; cbn [snd]; unfold Pool.pool_ok; cbn; rewrite ?Q;
          repeat split; auto; cbn in *; rewrite ?Q in *; auto.
      * cbn [snd]. unfold Pool.pool_ok.
        cbn [Pool.free_packets Pool.free_packet_list].
        rewrite Hc. cbn [length]. inversion Hs; subst.
        unfold Pool.FREE_PACKET_POOL in *. cbn [length] in Hc.
        rewrite uint16_small by lia. repeat split; auto; lia.
    + destruct fresh; cbn [snd]; unfold Pool.pool_ok; cbn; auto.
  - unfold Pool.rudp_packet_chain_free.
    destruct (Z.eqb_spec (Pool.alloc_size pc) Pool.DEFAULT_ALLOC_SIZE)
      as [E|N].
    + unfold Pool.FREE_PACKET_POOL in *.
      rewrite uint16_small by lia.
      destruct (Z.eq_dec (Pool.free_packets r) 10) as [F|F].
      * rewrite F.
        rewrite (pool_trim_one_over pc (Pool.free_packet_list r))
          by (unfold Pool.FREE_PACKET_POOL; lia).
        do 2 eexists. split; [reflexivity|].
        unfold Pool.pool_ok. cbn. unfold Pool.FREE_PACKET_POOL.
        repeat split; auto; lia.
      * rewrite pool_trim_within by (unfold Pool.FREE_PACKET_POOL; lia).
        do 2 eexists. split; [reflexivity|].
        unfold Pool.pool_ok. cbn [Pool.free_packets Pool.free_packet_list
                                   length].
        unfold Pool.FREE_PACKET_POOL.
        repeat split; try lia. constructor; auto.
    + rewrite pool_trim_within by exact Hb.
      do 2 eexists. split; [reflexivity|].
      unfold Pool.pool_ok. cbn. auto.
Qed.

Lemma pool_stays_consistent_witness :
  exists r' released,
    Pool.rudp_packet_chain_free Pool.rudp_init
      (Pool.mk_chain 1 Pool.DEFAULT_ALLOC_SIZE 12) = Some (r', released) /\
    Pool.pool_ok r'.
Proof.
  apply (pool_stays_consistent Pool.rudp_init None 12
           (Pool.mk_chain 1 Pool.DEFAULT_ALLOC_SIZE 12)).
  exact pool_init_ok.
Defined.

(** X25.  Releasing a default-size buffer and asking for one again gives
    the same buffer back without calling the allocator, the pool as it
    was before, as long as the pool was not full.  When the pool already
    holds [FREE_PACKET_POOL] buffers, the buffer being released is the one
    handed back to the allocator. *)
Theorem pool_release_then_alloc (r : Pool.rudp) (pc : Pool.chain)
    (fresh : option Z) (asked : Z) :
  Pool.pool_ok r ->
  Pool.alloc_size pc = Pool.DEFAULT_ALLOC_SIZE ->
  0 <= asked <= Pool.DEFAULT_ALLOC_SIZE ->
  (Pool.free_packets r < Pool.FREE_PACKET_POOL ->
     exists r1,
       Pool.rudp_packet_chain_free r pc = Some (r1, []) /\
       Pool.rudp_packet_chain_alloc fresh r1 asked =
         (Some (Pool.mk_chain (Pool.ident pc) (Pool.alloc_size pc) asked),
          r)) /\
  (Pool.free_packets r = Pool.FREE_PACKET_POOL ->
     Pool.rudp_packet_chain_free r pc =
       Some (Pool.mk_rudp (Pool.free_packet_list r)
               (uint16 (Pool.allocated_packets r - 1))
               (Pool.free_packets r), [pc])).
Proof.
  intros (Hc & Hb & Hs) Hd Ha. unfold Pool.rudp_packet_chain_free.
  rewrite Hd, Z.eqb_refl. unfold Pool.FREE_PACKET_POOL in *. split.
  - intros Hf. rewrite uint16_small by lia.
    rewrite pool_trim_within by (unfold Pool.FREE_PACKET_POOL; lia).
    eexists. split; [reflexivity|].
    unfold Pool.rudp_packet_chain_alloc.
    cbn [Pool.free_packet_list Pool.allocated_packets Pool.free_packets].
    assert (E : (if asked <? Pool.DEFAULT_ALLOC_SIZE
                 then Pool.DEFAULT_ALLOC_SIZE else asked)
                = Pool.DEFAULT_ALLOC_SIZE).
    { destruct (Z.ltb_spec asked Pool.DEFAULT_ALLOC_SIZE); lia. }
    rewrite E, Z.eqb_refl.
    replace (Pool.free_packets r + 1 - 1) with (Pool.free_packets r) by lia.
    rewrite uint16_small by lia. rewrite Hd. destruct r; reflexivity.
  - intros Hf. rewrite Hf.
    rewrite (pool_trim_one_over pc (Pool.free_packet_list r))
      by (unfold Pool.FREE_PACKET_POOL; lia).
    reflexivity.
Qed.

Lemma pool_release_then_alloc_witness :
  exists r1,
    Pool.rudp_packet_chain_free Pool.rudp_init
      (Pool.mk_chain 1 Pool.DEFAULT_ALLOC_SIZE 12) = Some (r1, []) /\
    Pool.rudp_packet_chain_alloc None r1 8 =
      (Some (Pool.mk_chain 1 Pool.DEFAULT_ALLOC_SIZE 8), Pool.rudp_init).
Proof.
  apply (pool_release_then_alloc Pool.rudp_init
           (Pool.mk_chain 1 Pool.DEFAULT_ALLOC_SIZE 12) None 8).
  - exact pool_init_ok.
  - reflexivity.
  - vm_compute. split; discriminate.
  - vm_compute. reflexivity.
Defined.

(** X26.  A buffer larger than the default size never comes from the pool
    and never goes into it: its allocation fails whenever the allocator
    does, however many buffers are cached, and its release hands it
    straight back to the allocator, the cache untouched. *)
Theorem pool_oversize_bypasses_cache (r : Pool.rudp) (fresh : option Z)
    (asked : Z) (pc : Pool.chain) :
  Pool.DEFAULT_ALLOC_SIZE < asked ->
  Pool.pool_ok r ->
  Pool.rudp_packet_chain_alloc None r asked = (None, r) /\
  (forall a,
     Pool.rudp_packet_chain_alloc (Some a) r asked =
       (Some (Pool.mk_chain a asked asked),
        Pool.mk_rudp (Pool.free_packet_list r)
                     (uint16 (Pool.allocated_packets r + 1))
                     (Pool.free_packets r))) /\
  (Pool.alloc_size pc = asked ->
     Pool.rudp_packet_chain_free r pc =
       Some (Pool.mk_rudp (Pool.free_packet_list r)
                          (uint16 (Pool.allocated_packets r - 1))
                          (Pool.free_packets r), [pc])).
Proof.
  intros Hbig (Hc & Hb & Hs).
  assert (E : (if asked <? Pool.DEFAULT_ALLOC_SIZE
               then Pool.DEFAULT_ALLOC_SIZE else asked) = asked).
  { destruct (Z.ltb_spec asked Pool.DEFAULT_ALLOC_SIZE); lia. }
  assert (N : (asked =? Pool.DEFAULT_ALLOC_SIZE) = false).
  { apply Z.eqb_neq. lia. }
  unfold Pool.rudp_packet_chain_alloc, Pool.rudp_packet_chain_free.
  rewrite E, N. repeat split.
  intros Hp. rewrite Hp, N. rewrite pool_trim_within by exact Hb.
  reflexivity.
Qed.

Lemma pool_oversize_bypasses_cache_witness :
  Pool.rudp_packet_chain_alloc None Pool.rudp_init 5000
    = (None, Pool.rudp_init).
Proof.
  apply (pool_oversize_bypasses_cache Pool.rudp_init None 5000
           (Pool.mk_chain 1 5000 5000)).
  - vm_compute. reflexivity.
  - exact pool_init_ok.
Defined.

(** X27.  The two counters account for the buffers in use: in a
    consistent pool, away from the 16-bit bounds, [allocated_packets -
    free_packets] goes up by exactly one with every allocation that
    succeeds, stays put with one that fails, and goes down by exactly one
    with every release. *)
Theorem pool_accounting (r : Pool.rudp) (fresh : option Z) (asked : Z)
    (pc : Pool.chain) :
  Pool.pool_ok r ->
  0 < Pool.allocated_packets r < 65535 ->
  let in_use x := Pool.allocated_packets x - Pool.free_packets x in
  (forall got r', Pool.rudp_packet_chain_alloc fresh r asked = (Some got, r')
     -> in_use r' = in_use r + 1) /\
  (forall r', Pool.rudp_packet_chain_alloc fresh r asked = (None, r')
     -> r' = r) /\
  (forall r' released,
     Pool.rudp_packet_chain_free r pc = Some (r', released) ->
     in_use r' = in_use r - 1).
Proof.
  intros (Hc & Hb & Hs) Ha in_use. unfold in_use.
  unfold Pool.FREE_PACKET_POOL in *. repeat split.
  - intros got r'. unfold Pool.rudp_packet_chain_alloc.
    destruct (_ =? Pool.DEFAULT_ALLOC_SIZE).
    + destruct (Pool.free_packet_list r) as [|hd tl] eqn:Q.
      * destruct fresh; [|discriminate]. intros E. injection E as _ <-.
        cbn. rewrite uint16_small by lia. lia.
      * intros E. injection E as _ <-. cbn.
        cbn [length] in Hc. rewrite uint16_small by lia. lia.
    + destruct fresh; [|discriminate]. intros E. injection E as _ <-.
      cbn. rewrite uint16_small by lia. lia.
  - intros r'. unfold Pool.rudp_packet_chain_alloc.
    destruct (_ =? Pool.DEFAULT_ALLOC_SIZE).
    + destruct (Pool.free_packet_list r) as [|hd tl] eqn:Q.
      * destruct fresh; [discriminate|]. intros E. injection E as <-.
        reflexivity.
      * discriminate.
    + destruct fresh; [discriminate|]. intros E. injection E as <-.
      reflexivity.
  - intros r' released. unfold Pool.rudp_packet_chain_free.
    destruct (Z.eqb_spec (Pool.alloc_size pc) Pool.DEFAULT_ALLOC_SIZE)
      as [E|N].
    + rewrite uint16_small by lia.
      destruct (Z.eq_dec (Pool.free_packets r) 10) as [F|F].
      * rewrite F.
        rewrite (pool_trim_one_over pc (Pool.free_packet_list r))
          by (unfold Pool.FREE_PACKET_POOL; lia).
        intros X. injection X as <- _. cbn.
        unfold Pool.FREE_PACKET_POOL. rewrite uint16_small by lia. lia.
      * rewrite pool_trim_within by (unfold Pool.FREE_PACKET_POOL; lia).
        intros X. injection X as <- _. cbn. lia.
    + rewrite pool_trim_within by (unfold Pool.FREE_PACKET_POOL; lia).
      intros X. injection X as <- _. cbn. rewrite uint16_small by lia. lia.
Qed.

Lemma pool_accounting_witness :
  Pool.allocated_packets
    (snd (Pool.rudp_packet_chain_alloc (Some 2) (Pool.mk_rudp [] 1 0) 12))
  - Pool.free_packets
      (snd (Pool.rudp_packet_chain_alloc (Some 2) (Pool.mk_rudp [] 1 0) 12))
  = 1 - 0 + 1.
Proof.
  destruct (pool_accounting (Pool.mk_rudp [] 1 0) (Some 2) 12
              (Pool.mk_chain 1 Pool.DEFAULT_ALLOC_SIZE 12)) as (H & _).
  - unfold Pool.pool_ok, Pool.FREE_PACKET_POOL. cbn.
    split; [reflexivity|split; [lia|constructor]].
  - cbn. lia.
  - exact (H _ _ eq_refl).
Defined.

(** ** Timer values *)

Lemma peer_service_delta_pos (now : Z) (peer : rudp_peer) :
  1 <= peer_service_delta now peer.
Proof.
  unfold peer_service_delta.
  destruct (sendq peer) as [|head rest]; [|break_if]; break_cmp; lia.
Qed.

(** X28.  [rudp_timestamp_to_timeval] of a non-negative number of
    milliseconds is a normalised [timeval] worth exactly that duration:
    seconds not negative, microseconds a multiple of 1000 in
    [[0, 1000000)].  The timer [peer_service_schedule] arms is therefore
    always a valid, strictly positive delay. *)
Theorem timeval_normalised (ts now : Z) (peer : rudp_peer) :
  (0 <= ts ->
     let tv := rudp_timestamp_to_timeval ts in
     0 <= tv_sec tv /\ 0 <= tv_usec tv < 1000000 /\
     tv_usec tv mod 1000 = 0 /\
     tv_sec tv * 1000000 + tv_usec tv = ts * 1000) /\
  (let tv := service_timeout (peer_service_schedule now peer) in
   0 <= tv_sec tv /\ 0 <= tv_usec tv < 1000000 /\
   0 < tv_sec tv * 1000000 + tv_usec tv).
Proof.
  assert (G : forall t, 0 <= t ->
     let tv := rudp_timestamp_to_timeval t in
     0 <= tv_sec tv /\ 0 <= tv_usec tv < 1000000 /\
     tv_usec tv mod 1000 = 0 /\
     tv_sec tv * 1000000 + tv_usec tv = t * 1000).
  { intros t H. unfold rudp_timestamp_to_timeval. cbn [tv_sec tv_usec].
    rewrite Z.quot_div_nonneg, Z.rem_mod_nonneg by lia.
    pose proof (Z.div_mod t 1000 ltac:(lia)) as D.
    pose proof (Z.mod_pos_bound t 1000 ltac:(lia)) as B.
    assert (0 <= t / 1000) by (apply Z.div_pos; lia).
    repeat split; try lia.
    apply Z.mod_mul. lia. }
  split; [exact (G ts)|].
  pose proof (peer_service_delta_pos now peer) as P.
  destruct (G (peer_service_delta now peer)) as (A & B & _ & D); [lia|].
  unfold peer_service_schedule.
  cbn [service_timeout set_scheduled set_service_timeout].
  repeat split; try lia.
Qed.

Lemma timeval_normalised_witness :
  tv_sec (rudp_timestamp_to_timeval 5250) * 1000000
  + tv_usec (rudp_timestamp_to_timeval 5250) = 5250 * 1000.
Proof.
  apply (timeval_normalised 5250 0 (Sample.running 3 0 6 5)).
  discriminate.
Defined.

(** ** The intrusive list *)

Import RudpList.

Lemma next_set_next (m : heap) (a v x : Z) :
  next (set_next m a v x) = if x =? a then v else next (m x).
Proof. unfold set_next. destruct (x =? a); reflexivity. Qed.

Lemma prev_set_next (m : heap) (a v x : Z) :
  prev (set_next m a v x) = prev (m x).
Proof. unfold set_next. destruct (x =? a); reflexivity. Qed.

Lemma next_set_prev (m : heap) (a v x : Z) :
  next (set_prev m a v x) = next (m x).
Proof. unfold set_prev. destruct (x =? a); reflexivity. Qed.

Lemma prev_set_prev (m : heap) (a v x : Z) :
  prev (set_prev m a v x) = if x =? a then v else prev (m x).
Proof. unfold set_prev. destruct (x =? a); reflexivity. Qed.

Lemma set_next_other (m : heap) (a v x : Z) :
  x <> a -> set_next m a v x = m x.
Proof. unfold set_next. intros H. destruct (Z.eqb_spec x a); congruence. Qed.

Lemma set_prev_other (m : heap) (a v x : Z) :
  x <> a -> set_prev m a v x = m x.
Proof. unfold set_prev. intros H. destruct (Z.eqb_spec x a); congruence. Qed.

Lemma NoDup_app_iff (l1 l2 : list Z) :
  NoDup (l1 ++ l2) <->
  NoDup l1 /\ NoDup l2 /\ (forall x, In x l1 -> ~ In x l2).
Proof.
  induction l1 as [|a l1 IH]; simpl.
  - split; [intros H; repeat split; [constructor | exact H | tauto] | tauto].
  - rewrite !NoDup_cons_iff, IH, in_app_iff. split.
    + intros (H1 & H2 & H3 & H4). repeat split; try tauto.
      intros x [->|Hx]; [tauto | apply H4; exact Hx].
    + intros ((H1 & H2) & H3 & H4). repeat split; try tauto.
      * intros [H|H]; [tauto | apply (H4 a); tauto].
      * intros x Hx. apply H4. right. exact Hx.
Qed.

Lemma snoc_cases (l : list Z) : l = [] \/ exists l' a, l = l' ++ [a].
Proof.
  destruct l as [|x l]; [left; reflexivity | right].
  destruct (exists_last (l := x :: l) ltac:(discriminate)) as (l' & a & E).
  exists l', a. exact E.
Qed.

Lemma links_ext (m m' : heap) (path : list Z) :
  links m path ->
  (forall x, In x (removelast path) -> next (m' x) = next (m x)) ->
  (forall x, In x (tl path) -> prev (m' x) = prev (m x)) ->
  links m' path.
Proof.
  induction path as [|a [|b rest] IH]; intros L N P; try exact I.
  destruct L as (L1 & L2 & L3).
  split; [|split].
  - rewrite N; [exact L1 | left; reflexivity].
  - rewrite P; [exact L2 | left; reflexivity].
  - apply IH; [exact L3 | |].
    + intros x Hx. apply N. right. exact Hx.
    + intros x Hx. apply P. right. exact Hx.
Qed.

Lemma links_app (m : heap) (l1 : list Z) (a : Z) (l2 : list Z) :
  links m (l1 ++ a :: l2) <-> links m (l1 ++ [a]) /\ links m (a :: l2).
Proof.
  induction l1 as [|x [|y l1] IH].
  - simpl. tauto.
  - simpl. destruct l2; tauto.
  - change (links m ((x :: y :: l1) ++ a :: l2))
      with (next (m x) = y /\ prev (m y) = x /\ links m ((y :: l1) ++ a :: l2)).
    change (links m ((x :: y :: l1) ++ [a]))
      with (next (m x) = y /\ prev (m y) = x /\ links m ((y :: l1) ++ [a])).
    tauto.
Qed.

(** The same, for a path given by its first node, its inner nodes and
    its last node. *)
Lemma links_ext_seg (m m' : heap) (p : Z) (l : list Z) (q : Z) :
  links m (p :: l ++ [q]) ->
  (forall x, In x (p :: l) -> next (m' x) = next (m x)) ->
  (forall x, In x (l ++ [q]) -> prev (m' x) = prev (m x)) ->
  links m' (p :: l ++ [q]).
Proof.
  intros L N P. apply (links_ext m); [exact L | |].
  - change (p :: l ++ [q]) with ((p :: l) ++ [q]).
    rewrite removelast_last. exact N.
  - exact P.
Qed.

Ltac heap_fields :=
  simpl in *; rewrite ?in_app_iff in *; simpl in *;
  repeat first
    [ progress (rewrite ?next_set_next, ?prev_set_next,
                        ?next_set_prev, ?prev_set_prev in *)
    | match goal with
      | |- context [?a =? ?b] => destruct (Z.eqb_spec a b)
      end ];
  try solve [intuition (subst; try congruence; try tauto)].

Lemma ring_next (m : heap) (head : Z) (l : list Z) :
  ring m head l -> next (m head) = hd head l.
Proof.
  intros [_ L]. destruct l; simpl in L; simpl; tauto.
Qed.

Lemma ring_init (m : heap) (head : Z) :
  ring (rudp_list_init m head) head [].
Proof.
  split.
  - constructor; [simpl; tauto | constructor].
  - unfold rudp_list_init. simpl. heap_fields.
Qed.

Lemma ring_insert (m : heap) (head elm : Z) (l : list Z) :
  ring m head l -> ~ In elm (head :: l) ->
  ring (rudp_list_insert m head elm) head (elm :: l).
Proof.
  intros [ND L] Hn.
  split.
  - rewrite !NoDup_cons_iff in *. simpl in *. intuition congruence.
  - unfold rudp_list_insert.
    rewrite NoDup_cons_iff in ND.
    destruct l as [|x l].
    + simpl in L. simpl.
      destruct L as (L1 & L2 & _).
      rewrite !next_set_next, !next_set_prev, L1.
      heap_fields.
    + change (links m (head :: x :: l ++ [head])) in L.
      destruct L as (L1 & L2 & L3).
      rewrite NoDup_cons_iff in ND.
      assert (E : next (set_next (set_next (set_prev m elm head) elm
                   (next (set_prev m elm head head))) head elm elm) = x).
      { heap_fields. }
      rewrite E.
      change (links ?h (head :: (elm :: x :: l) ++ [head]))
        with (next (h head) = elm /\ prev (h elm) = head /\
              next (h elm) = x /\ prev (h x) = elm /\
              links h (x :: l ++ [head])).
      repeat split; try solve [heap_fields].
      apply (links_ext_seg m); [exact L3 | |]; intros y Hy; heap_fields.
Qed.

Lemma ring_append (m : heap) (head elm : Z) (l : list Z) :
  ring m head l -> ~ In elm (head :: l) ->
  ring (rudp_list_append m head elm) head (l ++ [elm]).
Proof.
  intros [ND L] Hn.
  split.
  - change (head :: l ++ [elm]) with ((head :: l) ++ [elm]).
    apply NoDup_app_iff. split; [exact ND | split].
    + constructor; [simpl; tauto | constructor].
    + intros x Hx [<-|[]]. tauto.
  - unfold rudp_list_append.
    rewrite NoDup_cons_iff in ND.
    destruct (snoc_cases l) as [->|(l' & z & ->)].
    + simpl in L. simpl.
      destruct L as (L1 & L2 & _).
      rewrite !prev_set_prev, !prev_set_next, L2.
      heap_fields.
    + replace (head :: (l' ++ [z]) ++ [head])
        with ((head :: l') ++ z :: [head]) in L
        by (simpl; rewrite <- app_assoc; reflexivity).
      replace (head :: ((l' ++ [z]) ++ [elm]) ++ [head])
        with ((head :: l') ++ z :: [elm; head])
        by (simpl; rewrite <- !app_assoc; reflexivity).
      apply links_app in L. destruct L as (L1 & L2 & L3 & _).
      rewrite NoDup_app_iff in ND. destruct ND as (ND1 & ND2 & ND3 & ND4).
      assert (E : prev (set_prev (set_prev (set_next m elm head) elm
                   (prev (set_next m elm head head))) head elm elm) = z).
      { heap_fields. }
      rewrite E.
      apply links_app. split.
      * apply (links_ext_seg m); [exact L1 | |]; intros y Hy; heap_fields.
        exfalso. destruct Hy as [Hy|Hy]; [apply ND1; right; left; congruence|].
        apply (ND4 y Hy). left. congruence.
      * clear E. repeat split; heap_fields.
Qed.

Lemma ring_remove (m : heap) (head elm : Z) (l1 l2 : list Z) :
  ring m head (l1 ++ elm :: l2) ->
  ring (rudp_list_remove m elm) head (l1 ++ l2).
Proof.
  intros [ND L].
  change (head :: l1 ++ elm :: l2) with ((head :: l1) ++ elm :: l2) in ND.
  split.
  - change (head :: l1 ++ l2) with ((head :: l1) ++ l2).
    apply NoDup_remove_1 in ND. exact ND.
  - apply NoDup_app_iff in ND. destruct ND as (ND1 & ND2 & ND3).
    apply NoDup_cons_iff in ND2. destruct ND2 as (ND2 & ND4).
    assert (ND5 : NoDup (l2 ++ [head])).
    { apply NoDup_app_iff. split; [exact ND4 | split].
      - constructor; [simpl; tauto | constructor].
      - intros x Hx [<-|[]]. apply (ND3 head); [left; reflexivity|].
        right. exact Hx. }
    destruct (snoc_cases (head :: l1)) as [E1|(A & p & E1)];
      [discriminate|].
    assert (E2 : exists n B, l2 ++ [head] = n :: B).
    { destruct l2; simpl; eauto. }
    destruct E2 as (n & B & E2).
    assert (Mp : In p (head :: l1)).
    { rewrite E1. apply in_or_app. right. left. reflexivity. }
    assert (Mn : In n (l2 ++ [head])).
    { rewrite E2. left. reflexivity. }
    assert (Mn' : In n l2 \/ n = head).
    { apply in_app_or in Mn. simpl in Mn. intuition congruence. }
    replace (head :: (l1 ++ elm :: l2) ++ [head])
      with ((head :: l1) ++ elm :: (l2 ++ [head])) in L
      by (simpl; rewrite <- app_assoc; reflexivity).
    replace (head :: (l1 ++ l2) ++ [head])
      with ((head :: l1) ++ (l2 ++ [head]))
      by (simpl; rewrite <- app_assoc; reflexivity).
    rewrite E1, E2 in L. rewrite E1, E2. clear Mn.
    rewrite <- app_assoc in L. simpl app in L.
    rewrite <- app_assoc. simpl app.
    apply links_app in L. destruct L as (La & Lp & Lp' & Le & Le' & Lb).
    assert (Hep : elm <> p).
    { intros <-. apply (ND3 elm Mp). left. reflexivity. }
    assert (Ha : forall x, In x A -> x <> p).
    { intros x Hx ->. rewrite E1 in ND1. apply NoDup_app_iff in ND1.
      destruct ND1 as (_ & _ & ND1). apply (ND1 p Hx). left. reflexivity. }
    assert (Hb : forall x, In x B -> x <> n).
    { intros x Hx ->. rewrite E2 in ND5. apply NoDup_cons_iff in ND5. tauto. }
    assert (Hc : forall x, In x l2 -> x <> p).
    { intros x Hx ->. apply (ND3 p Mp). right. exact Hx. }
    assert (Hd : forall x, In x l1 -> x <> n).
    { intros x Hx ->. destruct Mn' as [Mn'| ->].
      - apply (ND3 n); [right; exact Hx | right; exact Mn'].
      - apply NoDup_cons_iff in ND1. tauto. }
    unfold rudp_list_remove.
    rewrite prev_set_next, next_set_next, Lp', Le.
    destruct (Z.eqb_spec elm p) as [|_]; [contradiction|].
    apply links_app. split; [|split; [|split]].
    + apply (links_ext m); [exact La | |]; intros x Hx.
      * rewrite removelast_last in Hx. heap_fields. exfalso. eapply Ha; eauto.
      * assert (Hx' : In x l1) by (rewrite <- E1 in Hx; exact Hx).
        heap_fields. exfalso. eapply Hd; eauto.
    + heap_fields.
    + heap_fields.
    + apply (links_ext m); [exact Lb | |]; intros x Hx.
      * rewrite <- E2, removelast_last in Hx. heap_fields.
        exfalso. eapply Hc; eauto.
      * simpl in Hx. heap_fields. exfalso. eapply Hb; eauto.
Qed.

Lemma links_next_in (m : heap) (path : list Z) (a : Z) :
  links m path -> In a (removelast path) -> In (next (m a)) (tl path).
Proof.
  induction path as [|a0 [|b rest] IH]; intros L H; try contradiction.
  destruct L as (L1 & _ & L3).
  change (removelast (a0 :: b :: rest)) with (a0 :: removelast (b :: rest)) in H.
  destruct H as [<-|H].
  - left. symmetry. exact L1.
  - right. exact (IH L3 H).
Qed.

Lemma links_prev_in (m : heap) (path : list Z) (b : Z) :
  links m path -> In b (tl path) -> In (prev (m b)) (removelast path).
Proof.
  induction path as [|a0 [|b0 rest] IH]; intros L H; try contradiction.
  destruct L as (_ & L2 & L3).
  change (removelast (a0 :: b0 :: rest)) with (a0 :: removelast (b0 :: rest)).
  destruct H as [<-|H].
  - left. symmetry. exact L2.
  - right. apply (IH L3). exact H.
Qed.

(** The links of a ring's nodes stay within the ring. *)
Lemma ring_closed (m : heap) (head : Z) (l : list Z) (a : Z) :
  ring m head l -> In a (head :: l) ->
  In (next (m a)) (head :: l) /\ In (prev (m a)) (head :: l).
Proof.
  intros [_ L] H. split.
  - assert (X : In (next (m a)) (tl (head :: l ++ [head]))).
    { apply links_next_in; [exact L|].
      change (head :: l ++ [head]) with ((head :: l) ++ [head]).
      rewrite removelast_last. exact H. }
    simpl in X. apply in_app_or in X. simpl in *. tauto.
  - assert (X : In (prev (m a)) (removelast (head :: l ++ [head]))).
    { apply links_prev_in; [exact L|].
      simpl. apply in_or_app. simpl in *. tauto. }
    change (head :: l ++ [head]) with ((head :: l) ++ [head]) in X.
    rewrite removelast_last in X. exact X.
Qed.

(** Nodes outside the ring and other than the one handed in are left
    as they were. *)
Lemma list_ops_frame (m : heap) (head elm : Z) (l : list Z) (x : Z) :
  ring m head l -> ~ In x (head :: elm :: l) ->
  rudp_list_insert m head elm x = m x /\
  rudp_list_append m head elm x = m x /\
  (In elm l -> rudp_list_remove m elm x = m x).
Proof.
  intros R Hx.
  assert (Hh : In head (head :: l)) by (left; reflexivity).
  destruct (ring_closed m head l head R Hh) as [Hn Hp].
  assert (X1 : x <> head) by (intros ->; apply Hx; left; reflexivity).
  assert (X2 : x <> elm) by (intros ->; apply Hx; right; left; reflexivity).
  assert (X3 : forall y, In y (head :: l) -> x <> y).
  { intros y Hy ->. apply Hx. simpl in *. tauto. }
  split; [|split].
  - unfold rudp_list_insert.
    rewrite set_prev_other;
      [rewrite !set_next_other, set_prev_other; auto|].
    rewrite next_set_next, Z.eqb_refl || rewrite next_set_next.
    repeat rewrite ?next_set_next, ?next_set_prev.
    repeat match goal with
           | |- context [?a =? ?b] => destruct (Z.eqb_spec a b)
           end; auto.
  - unfold rudp_list_append.
    rewrite set_next_other;
      [rewrite !set_prev_other, set_next_other; auto|].
    repeat rewrite ?prev_set_prev, ?prev_set_next.
    repeat match goal with
           | |- context [?a =? ?b] => destruct (Z.eqb_spec a b)
           end; auto.
  - intros He.
    destruct (ring_closed m head l elm R (or_intror He)) as [Hen Hep].
    unfold rudp_list_remove.
    rewrite set_prev_other; [rewrite set_next_other; auto|].
    repeat rewrite ?prev_set_next, ?next_set_next.
    destruct (Z.eqb_spec elm (prev (m elm))); apply X3; auto.
Qed.

Lemma for_each_loop_spec (m : heap) (head : Z) (l : list Z) :
  forall (p : Z) (fuel : nat),
  links m (p :: l ++ [head]) -> ~ In head l -> (length l < fuel)%nat ->
  for_each_loop fuel m head (next (m p)) = Some l.
Proof.
  induction l as [|x l IH]; intros p fuel L Hh Hf.
  - destruct fuel; [simpl in Hf; lia|].
    simpl in L. destruct L as (-> & _). simpl. rewrite Z.eqb_refl. reflexivity.
  - destruct fuel; [simpl in Hf; lia|].
    change (links m (p :: x :: l ++ [head])) in L.
    destruct L as (-> & _ & L).
    simpl. destruct (Z.eqb_spec x head) as [->|_].
    + exfalso. apply Hh. left. reflexivity.
    + rewrite (IH x fuel L); [reflexivity | | simpl in Hf; lia].
      intros H. apply Hh. right. exact H.
Qed.

Lemma length_loop_spec (m : heap) (head : Z) (l : list Z) :
  forall (p count : Z) (fuel : nat),
  links m (p :: l ++ [head]) -> ~ In head l -> (length l < fuel)%nat ->
  count + Z.of_nat (length l) <= INT_MAX ->
  length_loop fuel m head (next (m p)) count
  = Some (count + Z.of_nat (length l)).
Proof.
  induction l as [|x l IH]; intros p count fuel L Hh Hf Hc.
  - destruct fuel; [simpl in Hf; lia|].
    simpl in L. destruct L as (-> & _). simpl. rewrite Z.eqb_refl.
    f_equal. lia.
  - destruct fuel; [simpl in Hf; lia|].
    change (links m (p :: x :: l ++ [head])) in L.
    destruct L as (-> & _ & L).
    change (length (x :: l)) with (S (length l)) in *.
    rewrite Nat2Z.inj_succ in *.
    simpl. destruct (Z.eqb_spec x head) as [->|_].
    + exfalso. apply Hh. left. reflexivity.
    + destruct (Z.ltb_spec count INT_MAX); [|lia].
      rewrite (IH x (count + 1) fuel L); [f_equal; lia | | lia | lia].
      intros H'. apply Hh. right. exact H'.
Qed.

Lemma for_each_reverse_loop_spec (m : heap) (head : Z) (l : list Z) :
  forall (q : Z) (fuel : nat),
  links m (head :: l ++ [q]) -> ~ In head l -> (length l < fuel)%nat ->
  for_each_reverse_loop fuel m head (prev (m q)) = Some (rev l).
Proof.
  induction l as [|x l IH] using rev_ind; intros q fuel L Hh Hf.
  - destruct fuel; [simpl in Hf; lia|].
    simpl in L. destruct L as (_ & -> & _). simpl. rewrite Z.eqb_refl.
    reflexivity.
  - destruct fuel; [rewrite length_app in Hf; simpl in Hf; lia|].
    replace (head :: (l ++ [x]) ++ [q]) with ((head :: l) ++ x :: [q]) in L
      by (simpl; rewrite <- app_assoc; reflexivity).
    apply links_app in L. destruct L as (L & _ & -> & _).
    rewrite rev_app_distr. simpl.
    destruct (Z.eqb_spec x head) as [->|_].
    + exfalso. apply Hh. apply in_or_app. right. left. reflexivity.
    + rewrite (IH x fuel L); [reflexivity | | ].
      * intros H. apply Hh. apply in_or_app. left. exact H.
      * rewrite length_app in Hf. simpl in Hf. lia.
Qed.

Lemma for_each_safe_remove_loop_spec (head : Z) (l : list Z) :
  forall (m : heap) (fuel : nat),
  ring m head l -> (length l < fuel)%nat ->
  exists m',
    for_each_safe_remove_loop fuel m head (hd head l)
      (next (m (hd head l))) = Some (m', l)
    /\ ring m' head []
    /\ (forall x, ~ In x (head :: l) -> m' x = m x).
Proof.
  induction l as [|x l IH]; intros m fuel R Hf.
  - destruct fuel; [simpl in Hf; lia|].
    exists m. simpl. rewrite Z.eqb_refl. auto.
  - destruct fuel; [simpl in Hf; lia|].
    pose proof (ring_remove m head x [] l R) as R'. simpl app in R'.
    pose proof (ring_next _ _ _ R') as Hn.
    assert (Hx : x <> head).
    { destruct R as [ND _]. apply NoDup_cons_iff in ND.
      intros ->. apply ND. left. reflexivity. }
    assert (Ht : next (m x) = hd head l).
    { destruct R as [_ L]. change (links m (head :: x :: l ++ [head])) in L.
      destruct L as (_ & _ & L). destruct l; simpl in L; simpl; tauto. }
    destruct (IH (rudp_list_remove m x) fuel R') as (m' & E & Rm & F);
      [simpl in Hf; lia|].
    exists m'. cbn [for_each_safe_remove_loop hd].
    destruct (Z.eqb_spec x head) as [|_]; [contradiction|].
    rewrite Ht, E. split; [reflexivity | split; [exact Rm|]].
    intros y Hy. rewrite F.
    + apply (list_ops_frame m head x (x :: l) y R).
      * intros H. apply Hy. simpl in *. tauto.
      * left. reflexivity.
    + intros H. apply Hy. simpl in *. tauto.
Qed.

(** X29.  The pointer operations of [rudp_list.h] implement the list
    operations the rest of the development uses.  On a heap holding a
    well-formed ring with elements [l] at [head]: [rudp_list_init]
    empties it; for a node not yet in the ring, [rudp_list_insert] puts
    it first and [rudp_list_append] puts it last; [rudp_list_remove]
    takes a member out and keeps the order of the others; the result
    is again a well-formed ring, and no node outside the ring and other
    than the one handed in is written to. *)
Theorem list_updates_refine (m : heap) (head elm : Z) (l : list Z) :
  ring m head l ->
  ring (rudp_list_init m head) head [] /\
  (~ In elm (head :: l) ->
     ring (rudp_list_insert m head elm) head (elm :: l) /\
     ring (rudp_list_append m head elm) head (l ++ [elm])) /\
  (forall l1 l2, l = l1 ++ elm :: l2 ->
     ring (rudp_list_remove m elm) head (l1 ++ l2)) /\
  (forall x, ~ In x (head :: elm :: l) ->
     rudp_list_init m head x = m x /\
     rudp_list_insert m head elm x = m x /\
     rudp_list_append m head elm x = m x /\
     (In elm l -> rudp_list_remove m elm x = m x)).
Proof.
  intros R. split; [apply ring_init | split; [|split]].
  - intros Hn. split; [apply ring_insert | apply ring_append]; assumption.
  - intros l1 l2 ->. apply ring_remove. exact R.
  - intros x Hx. split.
    + unfold rudp_list_init. rewrite set_next_other, set_prev_other; auto;
        intros ->; apply Hx; left; reflexivity.
    + apply (list_ops_frame m head elm l x R Hx).
Qed.

Lemma list_updates_refine_witness :
  ring (rudp_list_remove two_nodes 1) 100 [2] /\
  ring (rudp_list_append two_nodes 100 3) 100 [1; 2; 3].
Proof.
  assert (R : ring two_nodes 100 [1; 2]).
  { split; [|vm_compute; repeat split].
    repeat constructor; simpl; intuition discriminate. }
  split.
  - apply (list_updates_refine two_nodes 100 1 [1; 2] R)
      with (l1 := []) (l2 := [2]). reflexivity.
  - apply (list_updates_refine two_nodes 100 3 [1; 2] R).
    simpl. intuition discriminate.
Defined.

(** X30.  Reading a well-formed ring with elements [l]: given enough
    steps, [rudp_list_for_each] visits exactly [l] in order and
    [rudp_list_for_each_reverse] visits it backwards;
    [rudp_list_length] returns its length as long as that fits an
    [int]; [rudp_list_empty] is 1 exactly for the empty list;
    [rudp_list_head] is the first element, or the head itself when
    there is none; and a [rudp_list_for_each_safe] loop that unlinks
    the current node visits every element once, in order, and leaves
    an empty ring without touching nodes outside it. *)
Theorem list_traversals (m : heap) (head : Z) (l : list Z) (fuel : nat) :
  ring m head l -> (length l < fuel)%nat ->
  rudp_list_for_each fuel m head = Some l /\
  rudp_list_for_each_reverse fuel m head = Some (rev l) /\
  (Z.of_nat (length l) <= INT_MAX ->
   rudp_list_length fuel m head = Some (Z.of_nat (length l))) /\
  rudp_list_empty m head = match l with [] => 1 | _ => 0 end /\
  rudp_list_head m head = hd head l /\
  exists m',
    rudp_list_for_each_safe_remove fuel m head = Some (m', l) /\
    ring m' head [] /\
    (forall x, ~ In x (head :: l) -> m' x = m x).
Proof.
  intros R Hf. pose proof (ring_next _ _ _ R) as Hn.
  pose proof R as [ND L]. apply NoDup_cons_iff in ND. destruct ND as [Hh _].
  split; [|split; [|split; [|split; [|split]]]].
  - apply for_each_loop_spec; assumption.
  - apply for_each_reverse_loop_spec; assumption.
  - intros Hi. unfold rudp_list_length.
    rewrite (length_loop_spec m head l head 0 fuel); auto.
  - unfold rudp_list_empty. rewrite Hn. destruct l as [|x l]; simpl.
    + rewrite Z.eqb_refl. reflexivity.
    + destruct (Z.eqb_spec x head) as [->|_]; [|reflexivity].
      exfalso. apply Hh. left. reflexivity.
  - exact Hn.
  - unfold rudp_list_for_each_safe_remove. rewrite Hn.
    apply for_each_safe_remove_loop_spec; assumption.
Qed.

Lemma list_traversals_witness :
  rudp_list_for_each 3 two_nodes 100 = Some [1; 2] /\
  rudp_list_for_each_reverse 3 two_nodes 100 = Some [2; 1].
Proof.
  assert (R : ring two_nodes 100 [1; 2]).
  { split; [|vm_compute; repeat split].
    repeat constructor; simpl; intuition discriminate. }
  destruct (list_traversals two_nodes 100 [1; 2] 3 R) as (H1 & H2 & _).
  - simpl. lia.
  - split; [exact H1 | exact H2].
Defined.
